(** * A shallow embedding of the Prometheus metric store of the stats package

    The development follows [prometheus/metric.go], [prometheus/atomic.go] and
    the HTTP handler of the same package.  Every goroutine-safe operation of
    the source is modelled by its sequential behaviour: a lock is a no-op, an
    atomic cell is the value it holds, and a pointer into the store is the
    path (map key, chain position) under which the pointee is stored, so that
    a mutation through the pointer is a write-back along that path.

    Part I holds the definitions, Part II the lemmas and theorems. *)

From Stdlib Require Import ZArith QArith Qround Ascii String.
From Stdlib Require Import PrimFloat FloatOps SpecFloat.
From stdpp Require Import gmap strings list fin_maps.

#[local] Set Warnings "-inexact-float".
#[local] Open Scope Z_scope.

(* ===================================================================== *)
(** * Part I: the model                                                   *)
(* ===================================================================== *)

(** ** Machine integers *)

(** Go's [int64] and [uint64] arithmetic wraps around silently. *)
Definition wrap64 (z : Z) : Z := (z + 2 ^ 63) mod 2 ^ 64 - 2 ^ 63.
Definition wrapU64 (z : Z) : Z := z mod 2 ^ 64.

Definition MinInt64 : Z := - 2 ^ 63.
Definition MaxInt64 : Z := 2 ^ 63 - 1.

(** ** IEEE-754 binary64 values

    A [float64] is a primitive binary64 float; [+], [<=] of Go are
    [PrimFloat.add] and [PrimFloat.leb]. *)

(** The conversion [float64(x)] of an unsigned 64-bit integer: the nearest
    binary64 value, ties to even. *)
Definition float64_of_uint64 (z : Z) : float :=
  SF2Prim (binary_normalize 53 1024 z 0 false).

(** The exact rational denoted by a finite binary64 value (no value for
    infinities and NaN).  Used to compare the code's floating-point results
    with sums over the rationals. *)
Definition float64_exact (f : float) : option Q :=
  match Prim2SF f with
  | S754_zero _ => Some (0 # 1)%Q
  | S754_finite s m e =>
      let mag := (inject_Z (Z.pos m) * Qpower (2 # 1) e)%Q in
      Some (if s then Qopp mag else mag)
  | _ => None
  end.

(** ** [time.Time]

    An instant is its Unix time in seconds (an [int64]), the nanoseconds
    within the second and a location.  The monotonic clock reading that a
    [time.Time] may carry plays no role here: [In] strips it. *)

Inductive Location : Type :=
  | UTC
  | Local
  | FixedZone (zname : string) (offset : Z).

Record Time : Type := mkTime {
  unixSec : Z;
  nanosec : Z;
  location : Location
}.

Definition Time_wf (t : Time) : Prop :=
  MinInt64 <= unixSec t <= MaxInt64 /\ 0 <= nanosec t < 1000000000.

(** [t.In(loc)], [t.Unix()], [t.Nanosecond()]. *)
Definition Time_In (t : Time) (loc : Location) : Time :=
  mkTime (unixSec t) (nanosec t) loc.
Definition Time_Unix (t : Time) : Z := unixSec t.
Definition Time_Nanosecond (t : Time) : Z := nanosec t.

(** [time.Unix(sec, nsec)]: [nsec] outside [0, 1e9) is carried into [sec];
    the result is in the local location. *)
Definition time_Unix (sec nsec : Z) : Time :=
  if (nsec <? 0) || (1000000000 <=? nsec) then
    let n := nsec ÷ 1000000000 in
    let sec := wrap64 (sec + n) in
    let nsec := wrap64 (nsec - wrap64 (n * 1000000000)) in
    if nsec <? 0
    then mkTime (wrap64 (sec - 1)) (nsec + 1000000000) Local
    else mkTime sec nsec Local
  else mkTime sec nsec Local.

(** [t.Before(u)]. *)
Definition Time_Before (t u : Time) : bool :=
  (unixSec t <? unixSec u)
  || ((unixSec t =? unixSec u) && (nanosec t <? nanosec u)).

(** [t.Add(d)], [d] a duration in nanoseconds.  It is used below on
    instants away from the ends of the range only. *)
Definition Time_Add (t : Time) (d : Z) : Time :=
  let dsec := d ÷ 1000000000 in
  let nsec := nanosec t + Z.rem d 1000000000 in
  if 1000000000 <=? nsec
  then mkTime (wrap64 (unixSec t + (dsec + 1))) (nsec - 1000000000) (location t)
  else if nsec <? 0
  then mkTime (wrap64 (unixSec t + (dsec - 1))) (nsec + 1000000000) (location t)
  else mkTime (wrap64 (unixSec t + dsec)) nsec (location t).

(** [t.Truncate(time.Millisecond)]: a millisecond divides the second, so
    only the nanosecond field is rounded down. *)
Definition Time_Truncate_Millisecond (t : Time) : Time :=
  Time_Add t (- (Z.rem (nanosec t) 1000000)).

Definition Millisecond : Z := 1000000.
Definition Second : Z := 1000000000.
Definition Minute : Z := 60 * Second.
Definition Hour : Z := 60 * Minute.

(** ** atomic.go *)

Definition atomicUint64 : Type := Z.

Definition atomicUint64_store (a : atomicUint64) (v : Z) : atomicUint64 := v.
Definition atomicUint64_load (a : atomicUint64) : Z := a.
Definition atomicUint64_add (a : atomicUint64) (v : Z) : atomicUint64 :=
  wrapU64 (a + v).

(** The cell keeps the bits of a float; [Float64frombits] undoes
    [Float64bits], so the cell is modelled by the float itself.  The
    compare-and-swap loop of [add] succeeds at its first round when no other
    goroutine interferes. *)
Definition atomicFloat64 : Type := float.

Definition atomicFloat64_store (a : atomicFloat64) (v : float) : atomicFloat64 := v.
Definition atomicFloat64_load (a : atomicFloat64) : float := a.
Definition atomicFloat64_add (a : atomicFloat64) (v : float) : atomicFloat64 :=
  PrimFloat.add a v.

Definition atomicTime : Type := Z.

Definition timeToUnix (t : Time) : Z :=
  let t := Time_In t UTC in
  wrap64 (wrap64 (Time_Unix t * 1000) + Time_Nanosecond t ÷ 1000000).

Definition unixToTime (t : Z) : Time :=
  Time_In (time_Unix (t ÷ 1000) (wrap64 (Z.rem t 1000 * 1000000))) UTC.

(** The millisecond count of an instant, computed without wrap-around. *)
Definition unixMilli (t : Time) : Z := unixSec t * 1000 + nanosec t ÷ 1000000.

Definition makeAtomicTime (v : Time) : atomicTime := timeToUnix v.
Definition atomicTime_store (a : atomicTime) (v : Time) : atomicTime := timeToUnix v.
Definition atomicTime_load (a : atomicTime) : Time := unixToTime a.

(** ** Labels

    The file that declares [label] and [labels] is not part of the sources
    at hand; the operations below are the ones metric.go calls. *)

(** A label is a (name, value) pair of strings; a label set is a sequence. *)
Definition label : Type := (string * string)%type.
Definition labels : Type := list label.

(** Modelled from the spec: [labels.equal], missing from the sources;
    "element-wise string equality". *)
Fixpoint labels_equal (a b : labels) : bool :=
  match a, b with
  | [], [] => true
  | (n1, v1) :: a', (n2, v2) :: b' =>
      String.eqb n1 n2 && String.eqb v1 v2 && labels_equal a' b'
  | _, _ => false
  end.

(** Modelled from the spec: [labels.copy] and [labels.copyAppend], missing
    from the sources; they "produce independent backing storage", which for
    immutable lists is the list itself, respectively the list with the
    label appended. *)
Definition labels_copy (l : labels) : labels := l.
Definition labels_copyAppend (l : labels) (x : label) : labels := l ++ [x].

(** Modelled from the spec: [labels.less], missing from the sources;
    "element-wise lexicographic compare on (name, value), shorter prefix is
    less". *)
Definition string_ltb (a b : string) : bool :=
  match String.compare a b with Lt => true | _ => false end.

Definition label_less (a b : label) : bool :=
  string_ltb (fst a) (fst b)
  || (String.eqb (fst a) (fst b) && string_ltb (snd a) (snd b)).

Fixpoint labels_less (a b : labels) : bool :=
  match a, b with
  | [], [] => false
  | [], _ :: _ => true
  | _ :: _, [] => false
  | x :: a', y :: b' =>
      if label_less x y then true
      else if label_less y x then false
      else labels_less a' b'
  end.

(** ** metric.go: types *)

Inductive metricType : Type :=
  | untyped
  | counter
  | gauge
  | histogram
  | summary.

#[global] Instance metricType_eq_dec : EqDecision metricType.
Proof. solve_decision. Defined.

Definition metricType_String (t : metricType) : string :=
  match t with
  | untyped => "untyped"
  | counter => "counter"
  | gauge => "gauge"
  | histogram => "histogram"
  | summary => "summary"
  end.

Record metricKey : Type := mkKey {
  key_scope : string;
  key_name : string
}.

#[global] Instance metricKey_eq_dec : EqDecision metricKey.
Proof. solve_decision. Defined.

#[global] Instance metricKey_countable : Countable metricKey.
Proof.
  refine (inj_countable' (fun k => (key_scope k, key_name k))
                         (fun p => mkKey (fst p) (snd p)) _).
  intros []; reflexivity.
Defined.

Record metric : Type := mkMetric {
  metric_mtype : metricType;
  metric_scope : string;
  metric_name : string;
  metric_help : string;
  metric_value : float;
  metric_time : Time;
  metric_labels : labels
}.

Definition metric_key (m : metric) : metricKey :=
  {| key_scope := metric_scope m; key_name := metric_name m |}.

(** [strings.LastIndexByte(s, c)]: the position of the last [c] in [s], or
    -1 when there is none. *)
Fixpoint LastIndexByte_from (s : string) (c : ascii) (i last : Z) : Z :=
  match s with
  | EmptyString => last
  | String x r => LastIndexByte_from r c (i + 1) (if Ascii.eqb x c then i else last)
  end.

Definition LastIndexByte (s : string) (c : ascii) : Z :=
  LastIndexByte_from s c 0 (-1).

(** The slice expression [s[:i]]; [None] stands for the run-time panic
    "slice bounds out of range". *)
Definition slice_to (s : string) (i : Z) : option string :=
  if (i <? 0) || (Z.of_nat (String.length s) <? i) then None
  else Some (substring 0 (Z.to_nat i) s).

Definition rootName (m : metric) : option string :=
  if decide (metric_mtype m = histogram)
  then slice_to (metric_name m) (LastIndexByte (metric_name m) "_")
  else Some (metric_name m).

Record metricBucket : Type := mkBucket {
  bucket_count : atomicUint64;
  bucket_limit : float;
  bucket_labels : labels
}.

Definition metricBuckets : Type := list metricBucket.

Record metricState : Type := mkState {
  state_labels : labels;          (* immutable *)
  state_buckets : metricBuckets;  (* mutable from here on *)
  state_value : atomicFloat64;
  state_sum : atomicFloat64;
  state_count : atomicFloat64;
  state_time : atomicTime
}.

(** [map[uint64][]*metricState]: from a label hash to the chain of the
    states whose labels have that hash. *)
Abbreviation metricStateMap := (gmap Z (list metricState)).

Record metricEntry : Type := mkEntry {
  entry_mtype : metricType;
  entry_scope : string;
  entry_name : string;
  entry_help : string;
  entry_bucket : string;
  entry_sum : string;
  entry_count : string;
  entry_states : metricStateMap
}.

Record metricStore : Type := mkStore {
  entries : gmap metricKey metricEntry
}.

(** The zero value [metricStore{}]. *)
Definition emptyStore : metricStore := {| entries := ∅ |}.

(** A [*metricState] held by an entry is the position of the state: the
    hash it is chained under and its index in the chain. *)
Record statePtr : Type := mkPtr {
  ptr_hash : Z;
  ptr_index : nat
}.

(** Field updates. *)
Definition state_set_buckets (st : metricState) (b : metricBuckets) : metricState :=
  mkState (state_labels st) b (state_value st) (state_sum st) (state_count st) (state_time st).
Definition state_set_value (st : metricState) (v : atomicFloat64) : metricState :=
  mkState (state_labels st) (state_buckets st) v (state_sum st) (state_count st) (state_time st).
Definition state_set_sum (st : metricState) (v : atomicFloat64) : metricState :=
  mkState (state_labels st) (state_buckets st) (state_value st) v (state_count st) (state_time st).
Definition state_set_count (st : metricState) (v : atomicFloat64) : metricState :=
  mkState (state_labels st) (state_buckets st) (state_value st) (state_sum st) v (state_time st).
Definition state_set_time (st : metricState) (t : atomicTime) : metricState :=
  mkState (state_labels st) (state_buckets st) (state_value st) (state_sum st) (state_count st) t.
Definition entry_set_states (e : metricEntry) (s : metricStateMap) : metricEntry :=
  mkEntry (entry_mtype e) (entry_scope e) (entry_name e) (entry_help e)
          (entry_bucket e) (entry_sum e) (entry_count e) s.
Definition bucket_set_count (b : metricBucket) (c : atomicUint64) : metricBucket :=
  mkBucket c (bucket_limit b) (bucket_labels b).
Definition metric_silence (m : metric) : metric :=
  mkMetric untyped (metric_scope m) (metric_name m) "" (metric_value m)
           (metric_time m) (metric_labels m).

(** ** metric.go: operations *)

Section Model.

(** [labels.hash] (the file declaring it is missing) and [strconv.FormatFloat]
    behind [ftoa] are taken as parameters: nothing below depends on which
    functions they are. *)
Variable hash : labels -> Z.
Variable ftoa : float -> string.

Definition newMetricEntry (mtype : metricType) (scope name help : string) : metricEntry :=
  let entry :=
    {| entry_mtype := mtype; entry_scope := scope; entry_name := name;
       entry_help := help; entry_bucket := ""; entry_sum := ""; entry_count := "";
       entry_states := ∅ |} in
  if decide (mtype = histogram) then
    {| entry_mtype := mtype; entry_scope := scope; entry_name := name;
       entry_help := help;
       entry_bucket := name +:+ "_bucket";
       entry_sum := name +:+ "_sum";
       entry_count := name +:+ "_count";
       entry_states := ∅ |}
  else entry.

(** The part of [store.lookup] that runs under the write lock: the map is
    read again, and a fresh entry replaces a missing one or one of another
    type. *)
Definition metricStore_lookup_locked (store : metricStore) (mtype : metricType)
    (key : metricKey) (help : string) : metricEntry * metricStore :=
  let create :=
    let entry := newMetricEntry mtype (key_scope key) (key_name key) help in
    (entry, {| entries := <[key := entry]> (entries store) |}) in
  match entries store !! key with
  | None => create
  | Some entry =>
      if decide (entry_mtype entry ≠ mtype) then create else (entry, store)
  end.

(** [store.lookup]: the entry found or created, and the store afterwards.
    The entry returned is the one stored under [key]. *)
Definition metricStore_lookup (store : metricStore) (mtype : metricType)
    (key : metricKey) (help : string) : metricEntry * metricStore :=
  match entries store !! key with
  | None => metricStore_lookup_locked store mtype key help
  | Some entry =>
      if decide (entry_mtype entry ≠ mtype)
      then metricStore_lookup_locked store mtype key help
      else (entry, store)
  end.

Definition newMetricState (ls : labels) : metricState :=
  {| state_labels := labels_copy ls; state_buckets := [];
     state_value := 0%float; state_sum := 0%float; state_count := 0%float;
     state_time := 0 |}.

(** [m.put(key, state)]: [m[key] = append(m[key], state)]. *)
Definition metricStateMap_put (m : metricStateMap) (key : Z) (state : metricState)
    : metricStateMap :=
  <[key := default [] (m !! key) ++ [state]]> m.

(** The loop of [m.find]: the index of the first state of the chain whose
    labels equal [ls]. *)
Fixpoint find_in_chain (states : list metricState) (ls : labels) : option nat :=
  match states with
  | [] => None
  | state :: rest =>
      if labels_equal (state_labels state) ls then Some 0%nat
      else S <$> find_in_chain rest ls
  end.

(** [m.find(key, labels)]; [None] is the nil pointer. *)
Definition metricStateMap_find (m : metricStateMap) (key : Z) (ls : labels)
    : option statePtr :=
  mkPtr key <$> find_in_chain (default [] (m !! key)) ls.

(** The part of [entry.lookup] that runs under the write lock
    (double-checked insertion). *)
Definition metricEntry_lookup_locked (entry : metricEntry) (key : Z) (ls : labels)
    : statePtr * metricEntry :=
  match metricStateMap_find (entry_states entry) key ls with
  | Some state => (state, entry)
  | None =>
      let state := newMetricState ls in
      (mkPtr key (length (default [] (entry_states entry !! key))),
       entry_set_states entry (metricStateMap_put (entry_states entry) key state))
  end.

(** [entry.lookup]: the pointer to the state found or created, and the
    entry afterwards. *)
Definition metricEntry_lookup (entry : metricEntry) (ls : labels)
    : statePtr * metricEntry :=
  let key := hash ls in
  match metricStateMap_find (entry_states entry) key ls with
  | Some state => (state, entry)
  | None => metricEntry_lookup_locked entry key ls
  end.

(** Reading and writing through a [*metricState]. *)
Definition entry_deref (entry : metricEntry) (p : statePtr) : option metricState :=
  default [] (entry_states entry !! ptr_hash p) !! ptr_index p.

Definition entry_modify (entry : metricEntry) (p : statePtr)
    (f : metricState -> metricState) : metricEntry :=
  entry_set_states entry
    (alter (alter f (ptr_index p)) (ptr_hash p) (entry_states entry)).

Definition makeMetricBuckets (buckets : list float) (ls : labels) : metricBuckets :=
  map (fun limit =>
         {| bucket_count := 0; bucket_limit := limit;
            bucket_labels := labels_copyAppend ls ("le"%string, ftoa limit) |})
      buckets.

(** [m.update(value)]: the first bucket whose limit is at least the value
    is incremented, and the loop breaks. *)
Fixpoint metricBuckets_update (m : metricBuckets) (value : float) : metricBuckets :=
  match m with
  | [] => []
  | b :: rest =>
      if PrimFloat.leb value (bucket_limit b)
      then bucket_set_count b (atomicUint64_add (bucket_count b) 1) :: rest
      else b :: metricBuckets_update rest value
  end.

Definition metricState_update (state : metricState) (mtype : metricType)
    (value : float) (time : Time) (buckets : list float) : metricState :=
  let state :=
    match mtype with
    | counter => state_set_value state (atomicFloat64_add (state_value state) value)
    | gauge => state_set_value state (atomicFloat64_store (state_value state) value)
    | histogram =>
        let state :=
          if decide (length (state_buckets state) ≠ length buckets)
          then state_set_buckets state (makeMetricBuckets buckets (state_labels state))
          else state in
        let state := state_set_buckets state (metricBuckets_update (state_buckets state) value) in
        let state := state_set_sum state (atomicFloat64_add (state_sum state) value) in
        state_set_count state (atomicFloat64_add (state_count state) 1%float)
    | _ => state
    end in
  state_set_time state (atomicTime_store (state_time state) time).

(** [store.update]: the entry and the state are reached by pointers, so
    the updated state is written back into its chain and the entry under
    its key. *)
Definition metricStore_update (store : metricStore) (m : metric)
    (buckets : list float) : metricStore :=
  let '(entry, store) :=
    metricStore_lookup store (metric_mtype m) (metric_key m) (metric_help m) in
  let '(state, entry) := metricEntry_lookup entry (metric_labels m) in
  let entry :=
    entry_modify entry state
      (fun st => metricState_update st (metric_mtype m) (metric_value m)
                                    (metric_time m) buckets) in
  {| entries := <[metric_key m := entry]> (entries store) |}.

Definition metricState_collect (metrics : list metric) (state : metricState)
    (entry : metricEntry) : list metric :=
  match entry_mtype entry with
  | counter | gauge =>
      metrics ++
      [ {| metric_mtype := entry_mtype entry;
           metric_scope := entry_scope entry;
           metric_name := entry_name entry;
           metric_help := entry_help entry;
           metric_value := atomicFloat64_load (state_value state);
           metric_time := atomicTime_load (state_time state);
           metric_labels := state_labels state |} ]
  | histogram =>
      let buckets := state_buckets state in
      let time := atomicTime_load (state_time state) in
      let metrics :=
        foldl (fun metrics b =>
                 metrics ++
                 [ {| metric_mtype := entry_mtype entry;
                      metric_scope := "";
                      metric_name := entry_bucket entry;
                      metric_help := entry_help entry;
                      metric_value := float64_of_uint64 (atomicUint64_load (bucket_count b));
                      metric_time := time;
                      metric_labels := bucket_labels b |} ])
              metrics buckets in
      metrics ++
      [ {| metric_mtype := entry_mtype entry;
           metric_scope := "";
           metric_name := entry_sum entry;
           metric_help := entry_help entry;
           metric_value := atomicFloat64_load (state_sum state);
           metric_time := time;
           metric_labels := state_labels state |};
        {| metric_mtype := entry_mtype entry;
           metric_scope := "";
           metric_name := entry_count entry;
           metric_help := entry_help entry;
           metric_value := atomicFloat64_load (state_count state);
           metric_time := time;
           metric_labels := state_labels state |} ]
  | _ => metrics
  end.

(** [entry.collect]; the iteration order of a Go map is unspecified, the
    model iterates in the order of [map_fold]. *)
Definition metricEntry_collect (metrics : list metric) (entry : metricEntry)
    : list metric :=
  if decide (size (entry_states entry) ≠ 0%nat) then
    map_fold (fun _ states metrics =>
                foldl (fun metrics state => metricState_collect metrics state entry)
                      metrics states)
             metrics (entry_states entry)
  else metrics.

Definition metricStore_collect (store : metricStore) (metrics : list metric)
    : list metric :=
  map_fold (fun _ entry metrics => metricEntry_collect metrics entry)
           metrics (entries store).


(** A state is fresh with respect to [exp] when its last update is after
    [exp]: the test of [entry.cleanup]. *)
Definition updated_after (exp : Time) (st : metricState) : Prop :=
  Time_Before exp (atomicTime_load (state_time st)) = true.

#[global] Instance updated_after_dec exp st : Decision (updated_after exp st).
Proof. unfold updated_after. apply _. Defined.

(** One round of the compaction loop of [entry.cleanup] on a chain, a slice
    of pointers ([None] is nil): slot [j] is cleared, and a state updated
    after [exp] is copied back to slot [i]. *)
Definition cleanup_step (exp : Time) (acc : list (option metricState) * nat) (j : nat)
    : list (option metricState) * nat :=
  let '(states, i) := acc in
  match states !! j with
  | Some (Some state) =>
      let states := <[j := None]> states in
      if Time_Before exp (atomicTime_load (state_time state))
      then (<[i := Some state]> states, S i)
      else (states, i)
  | _ => acc (* not reached: [j] is in range and a chain holds no nil *)
  end.

(** The loop over a chain followed by [states = states[:i]]. *)
Definition cleanup_chain (exp : Time) (states : list metricState) : list metricState :=
  let '(arr, i) :=
    foldl (cleanup_step exp) (Some <$> states, 0%nat) (seq 0 (length states)) in
  omap id (take i arr).

(** [entry.cleanup]: the entry afterwards, and whether [empty()] was
    called.  The map is updated while it is ranged over, at the key of the
    current round only. *)
Definition metricEntry_cleanup (entry : metricEntry) (exp : Time) : metricEntry * bool :=
  let states :=
    map_fold (fun hash states (m : metricStateMap) =>
                let states := cleanup_chain exp states in
                if decide (length states = 0%nat) then delete hash m
                else <[hash := states]> m)
             (entry_states entry) (entry_states entry) in
  (entry_set_states entry states, bool_decide (size states = 0%nat)).

(** [store.cleanup]: every entry is cleaned in place, and the callback
    deletes it from the store when it is left without states. *)
Definition metricStore_cleanup (store : metricStore) (exp : Time) : metricStore :=
  {| entries :=
       map_fold (fun name entry (m : gmap metricKey metricEntry) =>
                   let '(entry, empty) := metricEntry_cleanup entry exp in
                   let m := <[name := entry]> m in
                   if empty then delete name m else m)
                (entries store) (entries store) |}.

(** [byNameAndLabels.Less] on two records. *)
Definition byNameAndLabels_Less (m1 m2 : metric) : bool :=
  string_ltb (metric_name m1) (metric_name m2)
  || (String.eqb (metric_name m1) (metric_name m2)
      && labels_less (metric_labels m1) (metric_labels m2)).

End Model.

(** ** Views of the store used in the statements *)

(** The records one state, one entry contribute to a collect. *)
Definition state_records (e : metricEntry) (st : metricState) : list metric :=
  metricState_collect [] st e.

Definition chain_records (e : metricEntry) (chain : list metricState) : list metric :=
  chain ≫= state_records e.

Definition entry_records (e : metricEntry) : list metric :=
  map_to_list (entry_states e) ≫= (fun hc => chain_records e hc.2).

Definition store_records (s : metricStore) : list metric :=
  map_to_list (entries s) ≫= (fun ke => entry_records ke.2).

(** What [entry.cleanup] leaves of a chain, of an entry: the fresh states,
    or nothing at all when none is fresh. *)
Definition keep_fresh (exp : Time) (chain : list metricState)
    : option (list metricState) :=
  let kept := filter (updated_after exp) chain in
  if decide (kept = []) then None else Some kept.

Definition clean_entry (exp : Time) (e : metricEntry) : option metricEntry :=
  let states := omap (keep_fresh exp) (entry_states e) in
  if decide (states = ∅) then None else Some (entry_set_states e states).

(** The entry an update of type [mtype] at [key] works on: the stored one
    when its type agrees, a fresh one otherwise. *)
Definition entry_for (s : metricStore) (mtype : metricType) (key : metricKey)
    (help : string) : metricEntry :=
  match entries s !! key with
  | Some e =>
      if decide (entry_mtype e = mtype) then e
      else newMetricEntry mtype (key_scope key) (key_name key) help
  | None => newMetricEntry mtype (key_scope key) (key_name key) help
  end.

(** The chain under hash [h] after [f] is applied to the state labelled
    [ls], created at the end of the chain when it is missing. *)
Definition chain_update (chain : list metricState) (ls : labels)
    (f : metricState -> metricState) : list metricState :=
  match find_in_chain chain ls with
  | Some i => alter f i chain
  | None => chain ++ [f (newMetricState ls)]
  end.

(** The state labelled [ls] of a chain. *)
Definition chain_series (chain : list metricState) (ls : labels) : option metricState :=
  find_in_chain chain ls ≫= (fun i => chain !! i).

(** An entry after [f] is applied to its state labelled [ls]. *)
Definition entry_update (hash : labels -> Z) (e : metricEntry) (ls : labels)
    (f : metricState -> metricState) : metricEntry :=
  entry_set_states e
    (<[hash ls := chain_update (default [] (entry_states e !! hash ls)) ls f]>
       (entry_states e)).

(** The series (key, labels) of a store: the state that [entry.lookup]
    finds for the labels in the entry stored under the key. *)
Definition series (hash : labels -> Z) (s : metricStore) (key : metricKey)
    (ls : labels) : option metricState :=
  entries s !! key ≫= fun e =>
  chain_series (default [] (entry_states e !! hash ls)) ls.

(** The series when its entry is of type [mtype]. *)
Definition series_of_type (hash : labels -> Z) (s : metricStore)
    (mtype : metricType) (key : metricKey) (ls : labels) : option metricState :=
  entries s !! key ≫= fun e =>
  if decide (entry_mtype e = mtype)
  then chain_series (default [] (entry_states e !! hash ls)) ls
  else None.

(** The state an update of type [mtype] to the series starts from: the
    state of the series when the entry is of that type, a new state
    otherwise. *)
Definition prior_state (hash : labels -> Z) (s : metricStore) (mtype : metricType)
    (key : metricKey) (ls : labels) : metricState :=
  default (newMetricState ls) (series_of_type hash s mtype key ls).

(** The records an update of type [mtype] at [key] and [ls] supersedes:
    the records of the series when the entry is of that type, all the
    records of the entry when it is of another type. *)
Definition superseded (hash : labels -> Z) (s : metricStore) (mtype : metricType)
    (key : metricKey) (ls : labels) : list metric :=
  match entries s !! key with
  | Some e =>
      if decide (entry_mtype e = mtype)
      then from_option (state_records e) []
             (chain_series (default [] (entry_states e !! hash ls)) ls)
      else entry_records e
  | None => []
  end.

(** A sequence of calls of [store.update] with the same buckets. *)
Definition metricStore_updates (hash : labels -> Z) (ftoa : float -> string)
    (s : metricStore) (ms : list metric) (buckets : list float) : metricStore :=
  foldl (fun s m => metricStore_update hash ftoa s m buckets) s ms.

(** The same for one state. *)
Definition metricState_updates (ftoa : float -> string) (st : metricState)
    (ms : list metric) (buckets : list float) : metricState :=
  foldl (fun st m => metricState_update ftoa st (metric_mtype m) (metric_value m)
                                        (metric_time m) buckets) st ms.

(** The metric is an update of type [mtype] to the series [key], [ls]. *)
Definition on_series (mtype : metricType) (key : metricKey) (ls : labels)
    (m : metric) : Prop :=
  metric_mtype m = mtype /\ metric_key m = key /\ metric_labels m = ls.

(** ** The reading of "the arithmetic sum modulo 2^64"

    The exact sum of finite binary64 values over the rationals, and the
    residue of a rational modulo 2^64. *)
Definition exact_sum (vs : list float) : option Q :=
  foldr (fun v acc =>
           match float64_exact v, acc with
           | Some q, Some a => Some (q + a)%Q
           | _, _ => None
           end)
        (Some (0 # 1)%Q) vs.

Definition Qmod64 (q : Q) : Q :=
  (q - inject_Z (2 ^ 64 * Qfloor (q / inject_Z (2 ^ 64))))%Q.

(** A record as the tests of the package write them: no scope, no help
    text. *)
Definition sample (mtype : metricType) (name : string) (value : float)
    (time : Time) (ls : labels) : metric :=
  {| metric_mtype := mtype; metric_scope := ""; metric_name := name;
     metric_help := ""; metric_value := value; metric_time := time;
     metric_labels := ls |}.

(** The chain stored under a key of the store and a hash (empty when
    there is none). *)
Definition store_chain (s : metricStore) (key : metricKey) (h : Z)
    : list metricState :=
  default [] (entries s !! key ≫= fun e => entry_states e !! h).

(** Whether the byte occurs in the string. *)
Fixpoint contains_byte (s : string) (c : ascii) : bool :=
  match s with
  | EmptyString => false
  | String x r => Ascii.eqb x c || contains_byte r c
  end.

(** The stores that [store.update] and [store.cleanup] make of the zero
    value. *)
Inductive reachable (hash : labels -> Z) (ftoa : float -> string)
    : metricStore -> Prop :=
  | reachable_empty : reachable hash ftoa emptyStore
  | reachable_update s m bs :
      reachable hash ftoa s ->
      reachable hash ftoa (metricStore_update hash ftoa s m bs)
  | reachable_cleanup s exp :
      reachable hash ftoa s ->
      reachable hash ftoa (metricStore_cleanup s exp).

(** The names of an entry are the ones [newMetricEntry] renders for the
    name of its key. *)
Definition entry_named (key : metricKey) (e : metricEntry) : Prop :=
  entry_name e = key_name key
  /\ (entry_mtype e = histogram ->
      entry_bucket e = key_name key +:+ "_bucket"
      /\ entry_sum e = key_name key +:+ "_sum"
      /\ entry_count e = key_name key +:+ "_count").

(** ** The [strings] functions used by the handler

    A Go string is a sequence of bytes, here a [string] of [ascii]. *)

(** [strings.Split(s, sep)] for a separator of one byte. *)
Fixpoint Split (s : string) (sep : ascii) : list string :=
  match s with
  | EmptyString => [EmptyString]
  | String c r =>
      if Ascii.eqb c sep then EmptyString :: Split r sep
      else match Split r sep with
           | tok :: toks => String c tok :: toks
           | [] => [String c EmptyString]
           end
  end.

(** [strings.HasPrefix(s, prefix)]. *)
Definition HasPrefix (s pre : string) : bool := String.prefix pre s.

(** The white space of [unicode.IsSpace]: six ASCII bytes, and the UTF-8
    encodings of U+0085, U+00A0, U+1680, U+2000..U+200A, U+2028, U+2029,
    U+202F, U+205F and U+3000.  A valid encoding is the only one of its
    rune, and an invalid byte decodes to U+FFFD, which is no space, so the
    first (last) rune of a string is a space exactly when the string starts
    (ends) with one of these byte sequences. *)
Definition asciiSpace (c : ascii) : bool :=
  let n := nat_of_ascii c in
  ((9 <=? n)%nat && (n <=? 13)%nat) || (n =? 32)%nat.

Definition unicodeSpaces : list (list ascii) :=
  map (map ascii_of_nat)
      [ [194; 133]; [194; 160]; [225; 154; 128];
        [226; 128; 128]; [226; 128; 129]; [226; 128; 130]; [226; 128; 131];
        [226; 128; 132]; [226; 128; 133]; [226; 128; 134]; [226; 128; 135];
        [226; 128; 136]; [226; 128; 137]; [226; 128; 138];
        [226; 128; 168]; [226; 128; 169]; [226; 128; 175];
        [226; 129; 159]; [227; 128; 128] ]%nat.

Fixpoint bytes_prefix (p s : list ascii) : bool :=
  match p, s with
  | [], _ => true
  | x :: p', y :: s' => Ascii.eqb x y && bytes_prefix p' s'
  | _ :: _, [] => false
  end.

(** The number of bytes of the space rune [s] starts with, if any;
    [pats] are the multi-byte encodings to look for. *)
Definition space_width (pats : list (list ascii)) (s : list ascii) : option nat :=
  match s with
  | [] => None
  | c :: _ =>
      if asciiSpace c then Some 1%nat
      else length <$> List.find (fun p => bytes_prefix p s) pats
  end.

(** Leading spaces are dropped one rune at a time; every round drops a
    byte at least, so [length s] rounds are enough. *)
Fixpoint trim_spaces (fuel : nat) (pats : list (list ascii)) (s : list ascii)
    : list ascii :=
  match fuel with
  | O => s
  | S fuel' =>
      match space_width pats s with
      | Some n => trim_spaces fuel' pats (drop n s)
      | None => s
      end
  end.

Definition TrimLeftSpace (s : list ascii) : list ascii :=
  trim_spaces (length s) unicodeSpaces s.

(** Trailing spaces: the same on the reversed bytes. *)
Definition TrimRightSpace (s : list ascii) : list ascii :=
  rev (trim_spaces (length s) (map (@rev ascii) unicodeSpaces) (rev s)).

(** [strings.TrimSpace(s)]. *)
Definition TrimSpace (s : string) : string :=
  string_of_list_ascii (TrimRightSpace (TrimLeftSpace (list_ascii_of_string s))).

(** ** The HTTP handler

    The sources hold the handler in two versions; the model follows the
    later one, which checks the method and reads [Accept-Encoding]. *)

(** [http.Header]; the keys used below are in canonical form already. *)
Abbreviation Header := (gmap string (list string)).

Definition Header_Get (h : Header) (key : string) : string :=
  match h !! key with
  | Some (v :: _) => v
  | _ => EmptyString
  end.

Definition Header_Set (h : Header) (key value : string) : Header :=
  <[key := [value]]> h.

Record Request : Type := mkRequest {
  req_Method : string;
  req_Header : Header
}.

(** What the handler leaves in the [http.ResponseWriter]: the status, the
    header map, whether the body went through a gzip writer, and the
    chunks handed to [Write] (before compression). *)
Record Response : Type := mkResponse {
  res_status : Z;
  res_header : Header;
  res_gzip : bool;
  res_body : list string
}.

Definition StatusOK : Z := 200.
Definition StatusMethodNotAllowed : Z := 405.

Record Handler : Type := mkHandler {
  TrimPrefix : string;
  MetricTimeout : Z;
  UseUnsortedLabels : bool;
  opcount : Z;
  metrics : metricStore
}.

Fixpoint acceptEncoding_loop (codings : list string) (check : string) : bool :=
  match codings with
  | [] => false
  | coding :: rest =>
      let coding := TrimSpace coding in
      if HasPrefix coding check then true
      else acceptEncoding_loop rest check
  end.

Definition acceptEncoding (accept check : string) : bool :=
  acceptEncoding_loop (Split accept ",") check.

Section HandlerModel.

(** [sort.Sort(byNameAndLabels(metrics))] and [appendMetric] (the text
    serializer, in a file that is not at hand) are parameters. *)
Variable sortMetrics : list metric -> list metric.
Variable appendMetric : string -> metric -> string.

(** The loop of [ServeHTTP] over the sorted records, from round [i] on:
    the chunks written, or [None] when [rootName] panics. *)
Fixpoint write_metrics (i : nat) (lastMetricName : string) (ms : list metric)
    : option (list string) :=
  match ms with
  | [] => Some []
  | m :: rest =>
      match rootName m with
      | None => None
      | Some name =>
          let '(m, b) :=
            if String.eqb name lastMetricName then (metric_silence m, EmptyString)
            else if negb (i =? 0)%nat then (m, String "010" EmptyString)
            else (m, EmptyString) in
          (fun chunks => appendMetric b m :: chunks)
            <$> write_metrics (S i) name rest
      end
  end.

(** [h.ServeHTTP(res, req)]; [None] when the handler panics. *)
Definition Handler_ServeHTTP (h : Handler) (req : Request)
    : option Response :=
  if negb (String.eqb (req_Method req) "GET" || String.eqb (req_Method req) "HEAD")
  then Some {| res_status := StatusMethodNotAllowed; res_header := ∅;
               res_gzip := false; res_body := [] |}
  else
    let ms := sortMetrics (metricStore_collect (metrics h) []) in
    let header := Header_Set ∅ "Content-Type" "text/plain; version=0.0.4" in
    let '(header, gz) :=
      if acceptEncoding (Header_Get (req_Header req) "Accept-Encoding") "gzip"
      then (Header_Set header "Content-Encoding" "gzip", true)
      else (header, false) in
    (fun chunks => {| res_status := StatusOK; res_header := header;
                      res_gzip := gz; res_body := chunks |})
      <$> write_metrics 0 EmptyString ms.

End HandlerModel.

(** ** Instances of the parameters

    Concrete functions to run the model on: an FNV-1a hash over the bytes
    of the names and values, a rendering of the bucket bounds used by the
    package's tests, an insertion sort along [byNameAndLabels.Less], and a
    serializer that writes the name of a record on a line. *)

Definition fnv1a_byte (h : Z) (c : ascii) : Z :=
  wrapU64 (Z.lxor h (Z.of_nat (nat_of_ascii c)) * 1099511628211).

Definition fnv1a_string (h : Z) (s : string) : Z :=
  fold_left fnv1a_byte (list_ascii_of_string s) h.

Definition fnv1a_hash (ls : labels) : Z :=
  fold_left (fun h (l : label) => fnv1a_string (fnv1a_string h (fst l)) (snd l))
            ls 14695981039346656037.

Definition ftoa_table (f : float) : string :=
  if PrimFloat.eqb f 0.25 then "0.25"
  else if PrimFloat.eqb f 0.5 then "0.5"
  else if PrimFloat.eqb f 0.75 then "0.75"
  else if PrimFloat.eqb f 1 then "1"
  else if PrimFloat.eqb f infinity then "+Inf"
  else "?".

Fixpoint insert_sorted (m : metric) (l : list metric) : list metric :=
  match l with
  | [] => [m]
  | x :: l' =>
      if byNameAndLabels_Less x m then x :: insert_sorted m l' else m :: l
  end.

Definition insertion_sort (l : list metric) : list metric :=
  foldr insert_sorted [] l.

Definition appendName (b : string) (m : metric) : string :=
  b +:+ metric_name m +:+ String "010" EmptyString.

(** ** The shape of the stores the package builds *)

(** A chain stored under hash [h]: it is not empty, the labels of its
    states hash to [h], and no two of its states carry the same labels. *)
Definition chain_wf (hash : labels -> Z) (h : Z) (chain : list metricState) : Prop :=
  chain <> []
  /\ Forall (fun st => hash (state_labels st) = h) chain
  /\ NoDup (state_labels <$> chain).

(** An entry stored under [key]: it carries the scope and the name of the
    key, and holds at least one chain. *)
Definition entry_wf (hash : labels -> Z) (key : metricKey) (e : metricEntry) : Prop :=
  entry_scope e = key_scope key
  /\ entry_name e = key_name key
  /\ entry_states e <> ∅
  /\ forall h chain, entry_states e !! h = Some chain -> chain_wf hash h chain.

Definition store_wf (hash : labels -> Z) (s : metricStore) : Prop :=
  forall key e, entries s !! key = Some e -> entry_wf hash key e.

(** What identifies a series in the exposition: scope, name and labels of
    a record. *)
Definition series_id (m : metric) : string * string * labels :=
  (metric_scope m, metric_name m, metric_labels m).

(** One instant is not after another. *)
Definition Time_le (t u : Time) : Prop := Time_Before u t = false.

(** ** Identities of collected records *)

(** The identities of the counter and gauge records of a state. *)
Definition state_ids (e : metricEntry) (st : metricState)
    : list (string * string * labels) :=
  series_id <$> filter (fun m => metric_mtype m <> histogram) (state_records e st).

(** ** Histograms over a sequence of observations *)

(** The bucket an observation falls in: the index of the first limit that
    is at least the value, as the loop of [metricBuckets.update] finds it. *)
Fixpoint bucket_index (limits : list float) (value : float) : option nat :=
  match limits with
  | [] => None
  | limit :: rest =>
      if PrimFloat.leb value limit then Some 0%nat
      else S <$> bucket_index rest value
  end.

(** How many of the values fall in bucket [i]. *)
Definition bucket_hits (limits : list float) (vs : list float) (i : nat) : Z :=
  Z.of_nat (length (filter (fun v => bucket_index limits v = Some i) vs)).

(** The buckets [state.update] passes to [metricBuckets.update]: fresh
    ones when the number of limits differs from the number of buckets held. *)
Definition update_buckets (ftoa : float -> string) (st : metricState)
    (buckets : list float) : metricBuckets :=
  if decide (length (state_buckets st) ≠ length buckets)
  then makeMetricBuckets ftoa buckets (state_labels st)
  else state_buckets st.

(** Fresh buckets with the counters set by [c]. *)
Definition counted_buckets (ftoa : float -> string) (ls : labels)
    (limits : list float) (c : nat -> Z) : metricBuckets :=
  imap (fun i b => bucket_set_count b (c i)) (makeMetricBuckets ftoa limits ls).

(** ** [Handler.HandleMetric] *)

(** Modelled from the spec: the kind of an observation event,
    [stats.MetricType], declared outside the sources at hand;
    [OtherType] stands for every value that is none of the three constants
    [metricTypeOf] names. *)
Inductive MetricType : Type :=
  | CounterType | GaugeType | HistogramType | OtherType.

(** Modelled from the spec: a tag and an observation event, [stats.Tag]
    and [stats.Metric], with the fields the handler reads. *)
Record Tag : Type := mkTag {
  Tag_Name : string;
  Tag_Value : string
}.

Record Metric : Type := mkEvent {
  Metric_Type : MetricType;
  Metric_Namespace : string;
  Metric_Name : string;
  Metric_Value : float;
  Metric_Time : Time;
  Metric_Tags : list Tag;
  Metric_Buckets : list float
}.

Definition metricTypeOf (t : MetricType) : metricType :=
  match t with
  | CounterType => counter
  | GaugeType => gauge
  | HistogramType => histogram
  | _ => untyped
  end.

(** [t.IsZero()]: the zero instant is January 1 of year 1, 00:00:00 UTC,
    62135596800 seconds before the Unix epoch. *)
Definition Time_IsZero (t : Time) : bool :=
  (unixSec t =? -62135596800) && (nanosec t =? 0).

(** [strings.TrimPrefix(s, prefix)]. *)
Definition strings_TrimPrefix (s pre : string) : string :=
  if HasPrefix s pre
  then substring (String.length pre) (String.length s - String.length pre) s
  else s.

(** [h.timeout()]. *)
Definition Handler_timeout (h : Handler) : Z :=
  if decide (MetricTimeout h ≠ 0) then MetricTimeout h else 2 * Minute.

Section HandleMetricModel.

Variable hash : labels -> Z.
Variable ftoa : float -> string.

(** [labels.appendTags] is in the file that is missing, and so is
    [label.less], by which [sort.Sort(cache)] orders the labels: both are
    parameters. *)
Variable appendTags : labels -> list Tag -> labels.
Variable sortLabels : labels -> labels.

(** The record [HandleMetric] hands to [store.update]; [now] is what
    [time.Now()] returns.  A cache taken from the pool holds no labels:
    every cache is emptied before it is put back. *)
Definition handled_metric (h : Handler) (m : Metric) (now : Time) : metric :=
  let mtime := if Time_IsZero (Metric_Time m) then now else Metric_Time m in
  let ls := appendTags [] (Metric_Tags m) in
  let ls := if negb (UseUnsortedLabels h) then sortLabels ls else ls in
  {| metric_mtype := metricTypeOf (Metric_Type m);
     metric_scope := strings_TrimPrefix (Metric_Namespace m) (TrimPrefix h);
     metric_name := Metric_Name m;
     metric_help := "";
     metric_value := Metric_Value m;
     metric_time := mtime;
     metric_labels := ls |}.

(** [h.HandleMetric(m)]; [now] and [now'] are the instants the two calls
    of [time.Now()] return. *)
Definition Handler_HandleMetric (h : Handler) (m : Metric) (now now' : Time)
    : Handler :=
  let store :=
    metricStore_update hash ftoa (metrics h) (handled_metric h m now)
                       (Metric_Buckets m) in
  let n := atomicUint64_add (opcount h) 1 in
  let store :=
    if Z.rem n 10000 =? 0
    then metricStore_cleanup store (Time_Add now' (wrap64 (- Handler_timeout h)))
    else store in
  {| TrimPrefix := TrimPrefix h; MetricTimeout := MetricTimeout h;
     UseUnsortedLabels := UseUnsortedLabels h; opcount := n; metrics := store |}.

(** A run of the handler over events, each with the two instants its
    call reads from the clock. *)
Definition Handler_HandleMetrics (h : Handler) (evs : list (Metric * Time * Time))
    : Handler :=
  foldl (fun h ev => Handler_HandleMetric h ev.1.1 ev.1.2 ev.2) h evs.

End HandleMetricModel.

(** ** The earlier version of the handler

    The earlier [ServeHTTP] of the sources serves every method and reads
    the header [Accept-Endoing]; its loop over the records is the same. *)

Section EarlierHandler.

Variable sortMetrics : list metric -> list metric.
Variable appendMetric : string -> metric -> string.

Definition Handler_ServeHTTP_earlier (h : Handler) (req : Request)
    : option Response :=
  let ms := sortMetrics (metricStore_collect (metrics h) []) in
  let header := Header_Set ∅ "Content-Type" "text/plain; version=0.0.4" in
  let '(header, gz) :=
    if acceptEncoding (Header_Get (req_Header req) "Accept-Endoing") "gzip"
    then (Header_Set header "Content-Encoding" "gzip", true)
    else (header, false) in
  (fun chunks => {| res_status := StatusOK; res_header := header;
                    res_gzip := gz; res_body := chunks |})
    <$> write_metrics appendMetric 0 EmptyString ms.

End EarlierHandler.

(** ** The connection wrapper of package [netstats] *)

(** The errors the wrapper tells apart: the three values of package [io]
    it names, a [*net.OpError] (a pointer that is not nil) around another
    error or around nil, and every other error. *)
#[warnings="-register-all"]
Inductive error : Type :=
  | EOF
  | ErrClosedPipe
  | ErrUnexpectedEOF
  | OpError (Err : option error)
  | OtherError (id : nat).

(** The loop of [rootError], [n] rounds of it. *)
Fixpoint rootError_loop (n : nat) (err : option error) : option error :=
  match n with
  | O => err
  | S n' =>
      match err with
      | Some (OpError e) => rootError_loop n' e
      | _ => err
      end
  end.

Definition rootError (err : option error) : option error :=
  rootError_loop 10 err.

(** What the wrapper asks of the engine: [eng.Incr] and [eng.Observe]. *)
Inductive measure : Type :=
  | Incr (name : string) (tags : list Tag)
  | Observe (name : string) (value : float) (tags : list Tag).

(** The wrapper: the protocol name, and whether its [sync.Once] has run.
    The connection it wraps is its environment: the results of the calls
    it forwards are arguments of the functions below. *)
Record conn : Type := mkConn {
  conn_proto : string;
  conn_once : bool
}.

(** [float64(n)] for an [int]. *)
Definition float64_of_int (n : Z) : float :=
  SF2Prim (binary_normalize 53 1024 n 0 false).

Section Conn.

(** [isTemporary] is declared in a file that is not at hand. *)
Variable isTemporary : option error -> bool.

(** [NewConnWith(eng, c)], [proto] being [c.LocalAddr().Network()]: the
    wrapper and the calls on the engine. *)
Definition NewConnWith (proto : string) : conn * list measure :=
  ({| conn_proto := proto; conn_once := false |},
   [Incr "conn.open.count" [mkTag "protocol" proto]]).

(** [c.error(op, err)]: the calls on the engine. *)
Definition conn_error (c : conn) (op : string) (err : option error) : list measure :=
  match rootError err with
  | Some EOF | Some ErrClosedPipe | Some ErrUnexpectedEOF => []
  | root =>
      if negb (isTemporary root)
      then [Incr "conn.error.count"
                 [mkTag "protocol" (conn_proto c); mkTag "operation" op]]
      else []
  end.

(** [c.Close()], [err] being what [c.Conn.Close()] returns. *)
Definition conn_Close (c : conn) (err : option error) : conn * list measure :=
  if conn_once c then (c, [])
  else
    ({| conn_proto := conn_proto c; conn_once := true |},
     (match err with
      | Some _ => conn_error c "close" err
      | None => []
      end)
     ++ [Incr "conn.close.count" [mkTag "protocol" (conn_proto c)]]).

(** [c.Read(b)] and [c.Write(b)], [n] and [err] being what the wrapped
    connection returns. *)
Definition conn_Read (c : conn) (n : Z) (err : option error) : list measure :=
  (if 0 <=? n
   then [Observe "conn.read.bytes" (float64_of_int n)
                 [mkTag "protocol" (conn_proto c)]]
   else [])
  ++ match err with
     | None | Some EOF => []
     | Some _ => conn_error c "read" err
     end.

Definition conn_Write (c : conn) (n : Z) (err : option error) : list measure :=
  (if 0 <=? n
   then [Observe "conn.write.bytes" (float64_of_int n)
                 [mkTag "protocol" (conn_proto c)]]
   else [])
  ++ match err with
     | None => []
     | Some _ => conn_error c "write" err
     end.

(** [c.SetDeadline(t)] and its two variants, [op] being the name they pass
    to [c.error]. *)
Definition conn_SetDeadline (c : conn) (op : string) (err : option error)
    : list measure :=
  match err with
  | None => []
  | Some _ => conn_error c op err
  end.

(** Calls of [Close] one after the other. *)
Definition conn_Closes (c : conn) (errs : list (option error)) : conn * list measure :=
  foldl (fun acc err =>
           let '(c, log) := acc in
           let '(c, out) := conn_Close c err in
           (c, log ++ out))
        (c, []) errs.

End Conn.

(** An error under [k] layers of [*net.OpError]. *)
Fixpoint wrapOpError (k : nat) (e : error) : error :=
  match k with
  | O => e
  | S k' => OpError (Some (wrapOpError k' e))
  end.

(* ===================================================================== *)
(** * Part II: properties                                                 *)
(* ===================================================================== *)

(** ** Machine integers and time *)

Lemma wrap64_id z : MinInt64 <= z <= MaxInt64 -> wrap64 z = z.
Proof.
  unfold wrap64, MinInt64, MaxInt64. intros H.
  rewrite Z.mod_small; lia.
Qed.

Lemma wrap64_range z : MinInt64 <= wrap64 z <= MaxInt64.
Proof.
  unfold wrap64, MinInt64, MaxInt64.
  pose proof (Z.mod_pos_bound (z + 2 ^ 63) (2 ^ 64) ltac:(lia)). lia.
Qed.

Lemma wrap64_wrap64_add a b : wrap64 (wrap64 a + b) = wrap64 (a + b).
Proof.
  unfold wrap64.
  replace ((a + 2 ^ 63) mod 2 ^ 64 - 2 ^ 63 + b + 2 ^ 63)
    with ((a + 2 ^ 63) mod 2 ^ 64 + b) by lia.
  rewrite Zplus_mod_idemp_l. f_equal. f_equal. lia.
Qed.

Lemma timeToUnix_wrap t : timeToUnix t = wrap64 (unixMilli t).
Proof. unfold timeToUnix, unixMilli. simpl. apply wrap64_wrap64_add. Qed.

Lemma timeToUnix_exact t :
  MinInt64 <= unixMilli t <= MaxInt64 -> timeToUnix t = unixMilli t.
Proof. intros H. rewrite timeToUnix_wrap. by apply wrap64_id. Qed.

Lemma unixToTime_floor ms :
  MinInt64 <= ms <= MaxInt64 ->
  unixToTime ms = mkTime (ms / 1000) ((ms mod 1000) * 1000000) UTC.
Proof.
  intros Hms. unfold unixToTime, time_Unix, Time_In.
  assert (Hq : MinInt64 + 1 <= ms ÷ 1000 <= MaxInt64)
    by (unfold MinInt64, MaxInt64 in *; Z.to_euclidean_division_equations; lia).
  assert (Hr : -1000 < Z.rem ms 1000 < 1000)
    by (Z.to_euclidean_division_equations; lia).
  rewrite (wrap64_id (Z.rem ms 1000 * 1000000))
    by (unfold MinInt64, MaxInt64; lia).
  destruct (Z.ltb_spec (Z.rem ms 1000 * 1000000) 0) as [Hneg|Hpos]; simpl.
  - assert (Hn : (Z.rem ms 1000 * 1000000) ÷ 1000000000 = 0)
      by (Z.to_euclidean_division_equations; lia).
    rewrite Hn. replace (ms ÷ 1000 + 0) with (ms ÷ 1000) by lia.
    change (wrap64 (0 * 1000000000)) with 0.
    replace (Z.rem ms 1000 * 1000000 - 0) with (Z.rem ms 1000 * 1000000) by lia.
    rewrite (wrap64_id (ms ÷ 1000)) by lia.
    rewrite (wrap64_id (Z.rem ms 1000 * 1000000))
      by (unfold MinInt64, MaxInt64; lia).
    destruct (Z.ltb_spec (Z.rem ms 1000 * 1000000) 0); [|lia]. simpl.
    rewrite wrap64_id by lia.
    f_equal; Z.to_euclidean_division_equations; lia.
  - destruct (Z.leb_spec 1000000000 (Z.rem ms 1000 * 1000000)); [lia|]. simpl.
    f_equal; Z.to_euclidean_division_equations; lia.
Qed.

Lemma Time_Truncate_Millisecond_wf t :
  Time_wf t ->
  Time_Truncate_Millisecond t =
  mkTime (unixSec t) (nanosec t - nanosec t mod 1000000) (location t).
Proof.
  intros [Hs Hn]. unfold Time_Truncate_Millisecond, Time_Add.
  assert (Hd : (- Z.rem (nanosec t) 1000000) ÷ 1000000000 = 0)
    by (Z.to_euclidean_division_equations; lia).
  assert (Hr : Z.rem (- Z.rem (nanosec t) 1000000) 1000000000
               = - (nanosec t mod 1000000))
    by (Z.to_euclidean_division_equations; lia).
  rewrite Hd, Hr.
  assert (0 <= nanosec t mod 1000000 <= nanosec t)
    by (Z.to_euclidean_division_equations; lia).
  destruct (Z.leb_spec 1000000000 (nanosec t + - (nanosec t mod 1000000))); [lia|].
  destruct (Z.ltb_spec (nanosec t + - (nanosec t mod 1000000)) 0); [lia|].
  rewrite wrap64_id by lia. f_equal; lia.
Qed.

(** Store then load, on an instant whose millisecond count fits the cell. *)
Lemma atomicTime_store_load a t :
  Time_wf t ->
  MinInt64 <= unixMilli t <= MaxInt64 ->
  atomicTime_load (atomicTime_store a t)
  = Time_In (Time_Truncate_Millisecond t) UTC.
Proof.
  intros Hwf Hfit. unfold atomicTime_load, atomicTime_store.
  rewrite timeToUnix_exact by done.
  rewrite unixToTime_floor by done.
  rewrite Time_Truncate_Millisecond_wf by done.
  destruct Hwf as [Hs Hn]. unfold Time_In, unixMilli. simpl.
  f_equal; Z.to_euclidean_division_equations; lia.
Qed.

(** The other way round: every value of the cell is the encoding of the
    instant it decodes to. *)
Lemma timeToUnix_unixToTime ms :
  MinInt64 <= ms <= MaxInt64 -> timeToUnix (unixToTime ms) = ms.
Proof.
  intros Hms. rewrite unixToTime_floor by done.
  rewrite timeToUnix_exact; unfold unixMilli; simpl.
  - Z.to_euclidean_division_equations; lia.
  - unfold MinInt64, MaxInt64 in *. Z.to_euclidean_division_equations; lia.
Qed.

(** C9 (as amended).  For every instant whose count of milliseconds since
    the epoch fits the 64-bit cell, storing it into an atomic timestamp
    cell and loading it back yields the instant truncated to the
    millisecond, in UTC; so does [unixToTime] after [timeToUnix]; and an
    instant that is a whole number of milliseconds comes back as it was
    (in UTC). *)
Theorem atomicTime_roundtrip (a : atomicTime) (t : Time) :
  Time_wf t ->
  MinInt64 <= unixMilli t <= MaxInt64 ->
  atomicTime_load (atomicTime_store a t) = Time_In (Time_Truncate_Millisecond t) UTC
  /\ unixToTime (timeToUnix t) = Time_In (Time_Truncate_Millisecond t) UTC
  /\ (nanosec t mod 1000000 = 0 ->
      atomicTime_load (atomicTime_store a t) = Time_In t UTC
      /\ unixToTime (timeToUnix t) = Time_In t UTC).
Proof.
  intros Hwf Hfit.
  pose proof (atomicTime_store_load a t Hwf Hfit) as Hrt.
  split; [exact Hrt|]. split; [exact Hrt|].
  intros Hms.
  assert (Time_In (Time_Truncate_Millisecond t) UTC = Time_In t UTC) as Heq.
  { rewrite Time_Truncate_Millisecond_wf by done.
    unfold Time_In; simpl. f_equal. lia. }
  rewrite <- Heq. split; exact Hrt.
Qed.

(** The round trip at 2017-07-14 02:40:00.123456789 in a zone one hour
    east of UTC, and at the whole millisecond 02:40:00.123. *)
Lemma atomicTime_roundtrip_witness :
  atomicTime_load
    (atomicTime_store 0 (mkTime 1500000000 123456789 (FixedZone "CET" 3600)))
  = mkTime 1500000000 123000000 UTC
  /\ atomicTime_load (atomicTime_store 0 (mkTime 1500000000 123000000 Local))
     = mkTime 1500000000 123000000 UTC.
Proof.
  split.
  - apply (proj1 (atomicTime_roundtrip 0
             (mkTime 1500000000 123456789 (FixedZone "CET" 3600))
             ltac:(vm_compute; intuition discriminate)
             ltac:(vm_compute; intuition discriminate))).
  - apply (proj1 (proj2 (proj2 (atomicTime_roundtrip 0
             (mkTime 1500000000 123000000 Local)
             ltac:(vm_compute; intuition discriminate)
             ltac:(vm_compute; intuition discriminate))) eq_refl)).
Defined.

(** C9 fails as stated: an instant 2^62 seconds after the epoch is a
    [time.Time], its millisecond count overflows the cell, and the load
    returns an instant before the epoch. *)
Lemma atomicTime_roundtrip_overflow :
  ~ (forall (a : atomicTime) (t : Time),
       Time_wf t ->
       atomicTime_load (atomicTime_store a t)
       = Time_In (Time_Truncate_Millisecond t) UTC).
Proof.
  intros H.
  specialize (H 0 (mkTime (2 ^ 62) 0 UTC)
                ltac:(vm_compute; intuition discriminate)).
  vm_compute in H. discriminate H.
Qed.

(** ** The compaction loop of [entry.cleanup] is a filter *)

Lemma cleanup_loop_inv exp (l : list metricState) (j : nat) :
  (j <= length l)%nat ->
  let kept := filter (updated_after exp) (take j l) in
  foldl (cleanup_step exp) (Some <$> l, 0%nat) (seq 0 j)
  = ((Some <$> kept) ++ replicate (j - length kept) None ++ (Some <$> drop j l),
     length kept).
Proof.
  induction j as [|j IH]; intros Hj kept.
  - subst kept. simpl. by rewrite drop_0.
  - subst kept. rewrite seq_S, foldl_app, IH by lia. clear IH. simpl.
    destruct (lookup_lt_is_Some_2 l j ltac:(lia)) as [x Hx].
    assert (Hk : (length (filter (updated_after exp) (take j l)) <= j)%nat).
    { etrans; [apply length_filter|]. rewrite length_take. lia. }
    rewrite (take_S_r _ _ _ Hx), filter_app.
    rewrite (drop_S _ _ _ Hx), fmap_cons.
    remember (filter (updated_after exp) (take j l)) as kept eqn:Hkept. clear Hkept.
    assert (Hlen : length ((Some <$> kept) ++ replicate (j - length kept) (@None metricState)) = j).
    { rewrite length_app, length_fmap, length_replicate. lia. }
    rewrite (app_assoc (Some <$> kept)).
    rewrite lookup_app_r; [|rewrite Hlen; lia]. rewrite Hlen, Nat.sub_diag. simpl.
    rewrite insert_app_r_alt by (rewrite Hlen; lia). rewrite Hlen, Nat.sub_diag. simpl.
    destruct (Time_Before exp (atomicTime_load (state_time x))) eqn:Hb.
    + rewrite filter_cons_True by done. rewrite filter_nil.
      rewrite length_app. simpl. f_equal; [|lia].
      rewrite <- (app_assoc (Some <$> kept)).
      rewrite insert_app_r_alt by (rewrite length_fmap; lia).
      rewrite length_fmap, Nat.sub_diag.
      rewrite fmap_app, <- app_assoc. simpl. f_equal.
      replace (S j - (length kept + 1))%nat with (j - length kept)%nat by lia.
      destruct (j - length kept)%nat as [|n] eqn:E; simpl; [done|].
      f_equal.
      rewrite (cons_middle None (replicate n None)), app_assoc.
      change [None] with (replicate 1 (@None metricState)).
      rewrite <- replicate_add. by replace (n + 1)%nat with (S n) by lia.
    + rewrite filter_cons_False by (unfold updated_after; congruence). rewrite filter_nil.
      rewrite app_nil_r. f_equal.
      rewrite <- (app_assoc (Some <$> kept)). f_equal.
      replace (S j - length kept)%nat with ((j - length kept) + 1)%nat by lia.
      rewrite replicate_add. simpl. by rewrite <- app_assoc.
Qed.

Lemma omap_id_Some {A} (l : list A) : omap id (Some <$> l) = l.
Proof. induction l; simpl; [done|]. by f_equal. Qed.

Lemma cleanup_chain_filter exp (l : list metricState) :
  cleanup_chain exp l = filter (updated_after exp) l.
Proof.
  unfold cleanup_chain.
  rewrite cleanup_loop_inv by done.
  rewrite firstn_all, drop_all, fmap_nil, app_nil_r.
  rewrite take_app_length' by (by rewrite length_fmap).
  apply omap_id_Some.
Qed.

(** ** State updates *)

Section StateUpdate.
Variable ftoa : float -> string.

Lemma metricState_update_time st mtype v t bs :
  state_time (metricState_update ftoa st mtype v t bs) = timeToUnix t.
Proof. reflexivity. Qed.

Lemma metricState_update_labels st mtype v t bs :
  state_labels (metricState_update ftoa st mtype v t bs) = state_labels st.
Proof.
  unfold metricState_update. destruct mtype; simpl; try reflexivity.
  by destruct (decide _).
Qed.

Lemma metricState_update_counter st v t bs :
  state_value (metricState_update ftoa st counter v t bs)
  = PrimFloat.add (state_value st) v.
Proof. reflexivity. Qed.

Lemma metricState_update_gauge st v t bs :
  state_value (metricState_update ftoa st gauge v t bs) = v.
Proof. reflexivity. Qed.

Lemma metricState_update_histogram st v t bs :
  length (state_buckets st) = length bs ->
  metricState_update ftoa st histogram v t bs
  = {| state_labels := state_labels st;
       state_buckets := metricBuckets_update (state_buckets st) v;
       state_value := state_value st;
       state_sum := PrimFloat.add (state_sum st) v;
       state_count := PrimFloat.add (state_count st) 1;
       state_time := timeToUnix t |}.
Proof.
  intros Hlen. unfold metricState_update.
  destruct (decide _) as [Hne|_]; [done|]. reflexivity.
Qed.

End StateUpdate.

(** The bucket loop: nothing changes when no limit reaches the value. *)
Lemma metricBuckets_update_none (m : metricBuckets) v :
  (forall b, b ∈ m -> PrimFloat.leb v (bucket_limit b) = false) ->
  metricBuckets_update m v = m.
Proof.
  induction m as [|b m IH]; intros H; simpl; [done|].
  rewrite (H b) by apply list_elem_of_here.
  f_equal. apply IH. intros b' Hb'. apply H. by apply list_elem_of_further.
Qed.

(** The bucket loop: the first bucket whose limit reaches the value is
    incremented, and that one only. *)
Lemma metricBuckets_update_first (m : metricBuckets) v (i : nat) b :
  m !! i = Some b ->
  PrimFloat.leb v (bucket_limit b) = true ->
  (forall (j : nat) b', (j < i)%nat -> m !! j = Some b' ->
                PrimFloat.leb v (bucket_limit b') = false) ->
  metricBuckets_update m v
  = <[i := bucket_set_count b (wrapU64 (bucket_count b + 1))]> m.
Proof.
  revert i. induction m as [|b0 m IH]; intros i Hi Hle Hbefore; [done|].
  destruct i as [|i]; simpl in *.
  - injection Hi as ->. by rewrite Hle.
  - rewrite (Hbefore 0%nat b0) by (done || lia).
    f_equal. apply IH; [done..|].
    intros j b' Hj Hb'. apply (Hbefore (S j) b'); [lia|done].
Qed.

Lemma metricBuckets_update_length (m : metricBuckets) v :
  length (metricBuckets_update m v) = length m.
Proof.
  induction m as [|b m IH]; simpl; [done|].
  destruct (PrimFloat.leb _ _); simpl; by rewrite ?IH.
Qed.

Lemma metricBuckets_update_limits (m : metricBuckets) v :
  map bucket_limit (metricBuckets_update m v) = map bucket_limit m.
Proof.
  induction m as [|b m IH]; simpl; [done|].
  destruct (PrimFloat.leb _ _); simpl; by rewrite ?IH.
Qed.

(** ** Collect appends the records of every state *)

Lemma foldl_snoc_map {A B} (g : B -> A) (l : list B) (acc : list A) :
  foldl (fun acc b => acc ++ [g b]) acc l = acc ++ map g l.
Proof.
  revert acc. induction l as [|b l IH]; intros acc; simpl.
  - by rewrite app_nil_r.
  - by rewrite IH, <- app_assoc.
Qed.

Lemma metricState_collect_app ms st e :
  metricState_collect ms st e = ms ++ state_records e st.
Proof.
  unfold state_records, metricState_collect.
  destruct (entry_mtype e); simpl; rewrite ?app_nil_r; try done.
  rewrite !foldl_snoc_map. simpl. by rewrite <- app_assoc.
Qed.

Lemma chain_collect_app ms chain e :
  foldl (fun ms st => metricState_collect ms st e) ms chain
  = ms ++ chain_records e chain.
Proof.
  unfold chain_records. revert ms.
  induction chain as [|st chain IH]; intros ms; simpl.
  - by rewrite app_nil_r.
  - by rewrite IH, metricState_collect_app, <- app_assoc.
Qed.

Lemma foldr_collect_perm {K A} (R : K * A -> list metric) (l : list (K * A)) ms :
  foldr (fun ka acc => acc ++ R ka) ms l ≡ₚ ms ++ (l ≫= R).
Proof.
  induction l as [|ka l IH]; simpl.
  - by rewrite app_nil_r.
  - rewrite IH, <- app_assoc. f_equiv. apply Permutation_app_comm.
Qed.

Lemma metricEntry_collect_perm ms e :
  metricEntry_collect ms e ≡ₚ ms ++ entry_records e.
Proof.
  unfold metricEntry_collect, entry_records.
  destruct (decide _) as [Hne|He].
  - rewrite map_fold_foldr.
    rewrite <- (foldr_collect_perm (fun hc => chain_records e hc.2)).
    match goal with |- ?a ≡ₚ ?b => assert (a = b) as ->; [|done] end.
    apply foldr_ext; [|done..].
    intros [h chain] acc. simpl. apply chain_collect_app.
  - apply dec_stable in He. apply map_size_empty_iff in He. rewrite He.
    by rewrite map_to_list_empty, app_nil_r.
Qed.

Lemma metricStore_collect_perm s ms :
  metricStore_collect s ms ≡ₚ ms ++ store_records s.
Proof.
  unfold metricStore_collect, store_records.
  rewrite map_fold_foldr.
  generalize (map_to_list (entries s)). intros l.
  induction l as [|[k e] l IH]; simpl.
  - by rewrite app_nil_r.
  - rewrite metricEntry_collect_perm, IH, <- app_assoc. f_equiv.
    apply Permutation_app_comm.
Qed.

(** A record is collected exactly when a state of an entry yields it. *)
Lemma elem_of_store_records s x :
  x ∈ store_records s <->
  exists key e h chain st,
    entries s !! key = Some e /\ entry_states e !! h = Some chain
    /\ st ∈ chain /\ x ∈ state_records e st.
Proof.
  unfold store_records, entry_records, chain_records. split.
  - intros ([key e] & Hx & Hke)%list_elem_of_bind.
    apply list_elem_of_bind in Hx as ([h chain] & Hx & Hhc).
    apply list_elem_of_bind in Hx as (st & Hx & Hst).
    apply elem_of_map_to_list in Hke, Hhc. by exists key, e, h, chain, st.
  - intros (key & e & h & chain & st & Hke & Hhc & Hst & Hx).
    apply list_elem_of_bind. exists (key, e). split; [|by apply elem_of_map_to_list].
    apply list_elem_of_bind. exists (h, chain). split; [|by apply elem_of_map_to_list].
    apply list_elem_of_bind. by exists st.
Qed.

Lemma elem_of_metricStore_collect s x :
  x ∈ metricStore_collect s [] <->
  exists key e h chain st,
    entries s !! key = Some e /\ entry_states e !! h = Some chain
    /\ st ∈ chain /\ x ∈ state_records e st.
Proof. by rewrite metricStore_collect_perm, app_nil_l, elem_of_store_records. Qed.

(** With one entry, one chain, the collect is the records of the chain in
    order. *)
Lemma store_records_singleton key e :
  store_records {| entries := {[key := e]} |} = entry_records e.
Proof.
  unfold store_records. simpl. rewrite map_to_list_singleton. simpl.
  by rewrite app_nil_r.
Qed.

Lemma entry_records_singleton e h chain :
  entry_states e = {[h := chain]} -> entry_records e = chain_records e chain.
Proof.
  intros He. unfold entry_records. rewrite He, map_to_list_singleton. simpl.
  by rewrite app_nil_r.
Qed.

Lemma metricStore_collect_singleton key e h chain :
  entry_states e = {[h := chain]} ->
  metricStore_collect {| entries := {[key := e]} |} [] = chain_records e chain.
Proof.
  intros He. unfold metricStore_collect, metricEntry_collect. simpl.
  rewrite map_fold_singleton, He.
  destruct (decide _) as [_|Hz].
  - by rewrite map_fold_singleton, chain_collect_app.
  - exfalso. apply Hz. by rewrite map_size_singleton.
Qed.

(** ** Cleanup as a map over the store *)

(** A loop that ranges over a map and rewrites or deletes the key of the
    current round only ends with every value rewritten or deleted. *)
Lemma map_fold_in_place `{Countable K} {A} (g : K -> A -> option A)
    (m acc : gmap K A) (i : K) :
  map_fold (fun k x (r : gmap K A) =>
              match g k x with Some y => <[k := y]> r | None => delete k r end)
           acc m !! i
  = match m !! i with Some x => g i x | None => acc !! i end.
Proof.
  revert i.
  apply (map_fold_weak_ind (fun r m => forall i,
           r !! i = match m !! i with Some x => g i x | None => acc !! i end)).
  - intros i. by rewrite lookup_empty.
  - intros k x m' r Hk IH i.
    destruct (decide (k = i)) as [->|Hne].
    + rewrite lookup_insert_eq.
      destruct (g i x); by rewrite ?lookup_insert_eq, ?lookup_delete_eq.
    + rewrite (lookup_insert_ne m') by done. rewrite <- IH.
      destruct (g k x); by rewrite ?lookup_insert_ne, ?lookup_delete_ne.
Qed.

Lemma map_fold_in_place_omap `{Countable K} {A} (g : K -> A -> option A)
    (m : gmap K A) :
  map_fold (fun k x (r : gmap K A) =>
              match g k x with Some y => <[k := y]> r | None => delete k r end)
           m m
  = map_imap g m.
Proof.
  apply map_eq. intros i. rewrite map_fold_in_place, map_lookup_imap.
  by destruct (m !! i).
Qed.

Lemma map_fold_ext `{Countable K} {A B} (f g : K -> A -> B -> B) b (m : gmap K A) :
  (forall k x r, f k x r = g k x r) -> map_fold f b m = map_fold g b m.
Proof.
  intros Hfg. rewrite !map_fold_foldr. apply foldr_ext; [|done..].
  intros [k x] r. apply Hfg.
Qed.

Lemma metricEntry_cleanup_states e exp :
  entry_states (metricEntry_cleanup e exp).1
  = omap (keep_fresh exp) (entry_states e).
Proof.
  unfold metricEntry_cleanup. simpl.
  apply map_eq. intros i. rewrite lookup_omap.
  rewrite (map_fold_ext _
    (fun k x (r : metricStateMap) =>
       match keep_fresh exp x with Some y => <[k := y]> r | None => delete k r end)).
  - rewrite (map_fold_in_place (fun _ => keep_fresh exp)).
    by destruct (entry_states e !! i).
  - intros k x r. unfold keep_fresh. rewrite cleanup_chain_filter.
    destruct (decide (length _ = 0%nat)) as [Hl|Hl];
      destruct (decide (_ = [])) as [Hn|Hn]; try done.
    + by apply length_zero_iff_nil in Hl.
    + by rewrite Hn in Hl.
Qed.

Lemma metricEntry_cleanup_empty e exp :
  (metricEntry_cleanup e exp).2
  = bool_decide (omap (keep_fresh exp) (entry_states e) = ∅).
Proof.
  pose proof (metricEntry_cleanup_states e exp) as Hs.
  unfold metricEntry_cleanup in *. simpl in *. rewrite Hs.
  apply bool_decide_ext. apply map_size_empty_iff.
Qed.

Lemma metricEntry_cleanup_fst e exp :
  (metricEntry_cleanup e exp).1
  = entry_set_states e (omap (keep_fresh exp) (entry_states e)).
Proof.
  pose proof (metricEntry_cleanup_states e exp) as Hs.
  unfold metricEntry_cleanup in *. simpl in *. by rewrite Hs.
Qed.

Lemma metricStore_cleanup_entries s exp :
  entries (metricStore_cleanup s exp) = omap (clean_entry exp) (entries s).
Proof.
  unfold metricStore_cleanup. cbn [entries].
  apply map_eq. intros i. rewrite lookup_omap.
  rewrite (map_fold_ext _
    (fun k x (r : gmap metricKey metricEntry) =>
       match clean_entry exp x with Some y => <[k := y]> r | None => delete k r end)).
  - rewrite (map_fold_in_place (fun _ => clean_entry exp)).
    by destruct (entries s !! i).
  - intros k x r. unfold clean_entry.
    destruct (metricEntry_cleanup x exp) as [x' emp] eqn:Hc.
    pose proof (metricEntry_cleanup_fst x exp) as H1.
    pose proof (metricEntry_cleanup_empty x exp) as H2.
    rewrite Hc in H1, H2. simpl in H1, H2. subst x' emp.
    destruct (decide (omap (keep_fresh exp) (entry_states x) = ∅)) as [He|He].
    + rewrite bool_decide_eq_true_2 by done. apply delete_insert_eq.
    + by rewrite bool_decide_eq_false_2 by done.
Qed.

(** What a cleanup leaves of an entry, chain by chain. *)
Lemma metricStore_cleanup_lookup s exp key e' :
  entries (metricStore_cleanup s exp) !! key = Some e' <->
  exists e, entries s !! key = Some e
            /\ e' = entry_set_states e (omap (keep_fresh exp) (entry_states e))
            /\ omap (keep_fresh exp) (entry_states e) <> ∅.
Proof.
  rewrite metricStore_cleanup_entries, lookup_omap. unfold clean_entry.
  destruct (entries s !! key) as [e|]; simpl.
  - destruct (decide _) as [He|He]; split.
    + done.
    + intros (e0 & Heq & _ & Hne). simplify_eq.
    + intros [= <-]. by exists e.
    + intros (e0 & Heq & -> & _). by simplify_eq.
  - split; [done|]. by intros (e0 & ? & _).
Qed.

Lemma keep_fresh_Some exp chain kept :
  keep_fresh exp chain = Some kept <->
  kept = filter (updated_after exp) chain /\ kept <> [].
Proof.
  unfold keep_fresh. destruct (decide _) as [Hn|Hn]; split.
  - done.
  - intros [-> ?]. done.
  - intros [= <-]. done.
  - by intros [-> _].
Qed.

(** ** Lookups in a chain *)

Lemma labels_equal_spec (a b : labels) : labels_equal a b = true <-> a = b.
Proof.
  revert b. induction a as [|[n1 v1] a IH]; intros [|[n2 v2] b]; simpl;
    try (split; (done || discriminate)).
  rewrite !andb_true_iff, !String.eqb_eq, IH. split.
  - by intros [[-> ->] ->].
  - by intros [= -> -> ->].
Qed.

Lemma labels_equal_refl (a : labels) : labels_equal a a = true.
Proof. by apply labels_equal_spec. Qed.

Lemma labels_equal_ne (a b : labels) : a <> b -> labels_equal a b = false.
Proof.
  intros Hne. destruct (labels_equal a b) eqn:E; [|done].
  by apply labels_equal_spec in E.
Qed.

Lemma find_in_chain_Some chain ls (i : nat) :
  find_in_chain chain ls = Some i ->
  exists st, chain !! i = Some st /\ state_labels st = ls.
Proof.
  revert i. induction chain as [|st chain IH]; intros i; simpl; [done|].
  destruct (labels_equal (state_labels st) ls) eqn:E.
  - intros [= <-]. exists st. split; [done|]. by apply labels_equal_spec.
  - destruct (find_in_chain chain ls) as [j|]; simpl; [|done].
    intros [= <-]. by apply IH.
Qed.

Lemma find_in_chain_None chain ls :
  find_in_chain chain ls = None <->
  forall st, st ∈ chain -> state_labels st <> ls.
Proof.
  induction chain as [|st chain IH]; simpl.
  - split; [|done]. intros _ st Hst. by apply elem_of_nil in Hst.
  - destruct (labels_equal (state_labels st) ls) eqn:E.
    + split; [done|]. intros H. apply labels_equal_spec in E.
      by destruct (H st (list_elem_of_here _ _)).
    + destruct (find_in_chain chain ls) as [j|]; simpl.
      * split; [done|]. intros H.
        assert (Some j = None) as Hn; [|done].
        apply IH. intros st' Hst'. apply H. by apply list_elem_of_further.
      * split; [|done]. intros _ st' [->|Hst']%elem_of_cons.
        -- intros Heq. apply labels_equal_spec in Heq. congruence.
        -- by apply IH.
Qed.

Lemma find_in_chain_alter chain ls (f : metricState -> metricState) (i : nat) :
  (forall st, state_labels (f st) = state_labels st) ->
  find_in_chain (alter f i chain) ls = find_in_chain chain ls.
Proof.
  intros Hf. revert i. induction chain as [|st chain IH]; intros [|i]; simpl; try done.
  - by rewrite Hf.
  - specialize (IH i). unfold alter in IH. by rewrite IH.
Qed.

Lemma find_in_chain_app chain ls st :
  find_in_chain (chain ++ [st]) ls
  = match find_in_chain chain ls with
    | Some i => Some i
    | None => if labels_equal (state_labels st) ls then Some (length chain) else None
    end.
Proof.
  induction chain as [|st0 chain IH]; simpl.
  - by destruct (labels_equal _ _).
  - destruct (labels_equal (state_labels st0) ls); [done|].
    rewrite IH. destruct (find_in_chain chain ls); simpl; [done|].
    by destruct (labels_equal _ _).
Qed.

(** The state labelled [ls] after an update of the chain at [ls]. *)
Lemma chain_series_update_eq chain ls f :
  (forall st, state_labels (f st) = state_labels st) ->
  chain_series (chain_update chain ls f) ls
  = Some (f (default (newMetricState ls) (chain_series chain ls))).
Proof.
  intros Hf. unfold chain_series, chain_update.
  destruct (find_in_chain chain ls) as [i|] eqn:Hfind; simpl.
  - rewrite find_in_chain_alter, Hfind by done. simpl.
    destruct (find_in_chain_Some _ _ _ Hfind) as (st & Hst & _).
    rewrite Hst. simpl. rewrite list_lookup_alter_eq, Hst. done.
  - rewrite find_in_chain_app, Hfind.
    rewrite Hf. simpl. unfold labels_copy. rewrite labels_equal_refl. simpl.
    by rewrite lookup_app_r, Nat.sub_diag by done.
Qed.

(** The states under other labels are left alone. *)
Lemma chain_series_update_ne chain ls ls' f :
  (forall st, state_labels (f st) = state_labels st) ->
  ls' <> ls ->
  chain_series (chain_update chain ls f) ls' = chain_series chain ls'.
Proof.
  intros Hf Hne. unfold chain_series, chain_update.
  destruct (find_in_chain chain ls) as [i|] eqn:Hfind.
  - rewrite find_in_chain_alter by done.
    destruct (find_in_chain chain ls') as [j|] eqn:Hfind'; simpl; [|done].
    destruct (decide (i = j)) as [->|Hij].
    + destruct (find_in_chain_Some _ _ _ Hfind) as (st & Hst & Hl).
      destruct (find_in_chain_Some _ _ _ Hfind') as (st' & Hst' & Hl').
      congruence.
    + by rewrite list_lookup_alter_ne.
  - rewrite find_in_chain_app.
    destruct (find_in_chain chain ls') as [j|] eqn:Hfind'; simpl.
    + destruct (find_in_chain_Some _ _ _ Hfind') as (st' & Hst' & _).
      rewrite lookup_app_l; [done|]. by eapply lookup_lt_Some.
    + rewrite Hf. simpl. unfold labels_copy.
      by rewrite labels_equal_ne.
Qed.

(** ** One update of the store *)

Section StoreUpdate.
Variable hash : labels -> Z.
Variable ftoa : float -> string.

Lemma metricStore_lookup_entry_for s mtype key help :
  metricStore_lookup s mtype key help
  = (entry_for s mtype key help,
     {| entries := <[key := entry_for s mtype key help]> (entries s) |}).
Proof.
  unfold metricStore_lookup, metricStore_lookup_locked, entry_for.
  destruct (entries s !! key) as [e|] eqn:He; [|done].
  destruct (decide (entry_mtype e ≠ mtype)) as [Hne|Heq].
  - by rewrite decide_False by done.
  - apply dec_stable in Heq. rewrite decide_True by done.
    rewrite insert_id by done. by destruct s.
Qed.

Lemma metricEntry_lookup_modify e ls f :
  (let '(p, e1) := metricEntry_lookup hash e ls in entry_modify e1 p f)
  = entry_update hash e ls f.
Proof.
  unfold metricEntry_lookup, metricEntry_lookup_locked, metricStateMap_find,
    entry_update, chain_update.
  destruct (find_in_chain (default [] (entry_states e !! hash ls)) ls)
    as [i|] eqn:Hfind; simpl.
  - unfold entry_modify. simpl. f_equal.
    destruct (entry_states e !! hash ls) as [chain|] eqn:Hc; simpl in *; [|done].
    apply map_eq. intros h. destruct (decide (h = hash ls)) as [->|Hne].
    + by rewrite lookup_alter_eq, lookup_insert_eq, Hc.
    + by rewrite lookup_alter_ne, lookup_insert_ne.
  - unfold entry_modify, metricStateMap_put. simpl. f_equal.
    apply map_eq. intros h. destruct (decide (h = hash ls)) as [->|Hne].
    + rewrite lookup_alter_eq, !lookup_insert_eq. simpl. f_equal.
      generalize (default [] (entry_states e !! hash ls)). intros chain.
      induction chain as [|st chain IH]; simpl; [done|]. by f_equal.
    + by rewrite lookup_alter_ne, !lookup_insert_ne.
Qed.

(** [store.update] writes the updated entry under the key of the metric. *)
Lemma metricStore_update_entries s m bs :
  entries (metricStore_update hash ftoa s m bs)
  = <[metric_key m :=
        entry_update hash
          (entry_for s (metric_mtype m) (metric_key m) (metric_help m))
          (metric_labels m)
          (fun st => metricState_update ftoa st (metric_mtype m) (metric_value m)
                                        (metric_time m) bs)]>
      (entries s).
Proof.
  unfold metricStore_update. rewrite metricStore_lookup_entry_for.
  pose proof (metricEntry_lookup_modify
    (entry_for s (metric_mtype m) (metric_key m) (metric_help m))
    (metric_labels m)
    (fun st => metricState_update ftoa st (metric_mtype m) (metric_value m)
                                  (metric_time m) bs)) as H.
  destruct (metricEntry_lookup hash _ _) as [p e1]. simpl.
  rewrite insert_insert_eq. by rewrite H.
Qed.

Lemma entry_for_mtype s mtype key help :
  entry_mtype (entry_for s mtype key help) = mtype.
Proof.
  unfold entry_for, newMetricEntry.
  destruct (entries s !! key) as [e|]; [destruct (decide _); [done|]|];
    by destruct (decide (mtype = histogram)).
Qed.

Lemma entry_for_series s mtype key help ls :
  default (newMetricState ls)
    (chain_series (default [] (entry_states (entry_for s mtype key help) !! hash ls)) ls)
  = prior_state hash s mtype key ls.
Proof.
  unfold entry_for, prior_state, series_of_type, newMetricEntry.
  destruct (entries s !! key) as [e|]; simpl;
    [destruct (decide _); [done|]|];
    by destruct (decide (mtype = histogram)).
Qed.

Lemma metricStore_update_lookup s m bs :
  entries (metricStore_update hash ftoa s m bs) !! metric_key m
  = Some (entry_update hash
            (entry_for s (metric_mtype m) (metric_key m) (metric_help m))
            (metric_labels m)
            (fun st => metricState_update ftoa st (metric_mtype m) (metric_value m)
                                          (metric_time m) bs)).
Proof. by rewrite metricStore_update_entries, lookup_insert_eq. Qed.

Lemma metricStore_update_lookup_ne s m bs key :
  key <> metric_key m ->
  entries (metricStore_update hash ftoa s m bs) !! key = entries s !! key.
Proof. intros. by rewrite metricStore_update_entries, lookup_insert_ne. Qed.

(** The series is what [find] and a read through the pointer give. *)
Lemma series_find s key ls e :
  entries s !! key = Some e ->
  series hash s key ls
  = metricStateMap_find (entry_states e) (hash ls) ls ≫= entry_deref e.
Proof.
  intros He. unfold series, chain_series, metricStateMap_find, entry_deref.
  rewrite He. simpl.
  by destruct (find_in_chain (default [] (entry_states e !! hash ls)) ls).
Qed.

(** The series updated holds the updated state. *)
Lemma series_update_eq s m bs :
  series hash (metricStore_update hash ftoa s m bs) (metric_key m) (metric_labels m)
  = Some (metricState_update ftoa
            (prior_state hash s (metric_mtype m) (metric_key m) (metric_labels m))
            (metric_mtype m) (metric_value m) (metric_time m) bs).
Proof.
  unfold series. rewrite metricStore_update_lookup. simpl.
  rewrite lookup_insert_eq. simpl.
  rewrite chain_series_update_eq by (intros; apply metricState_update_labels).
  by rewrite entry_for_series.
Qed.

(** The other series of the same name and type are left alone. *)
Lemma series_update_ne_labels s m bs e ls :
  entries s !! metric_key m = Some e ->
  entry_mtype e = metric_mtype m ->
  ls <> metric_labels m ->
  series hash (metricStore_update hash ftoa s m bs) (metric_key m) ls
  = series hash s (metric_key m) ls.
Proof.
  intros He Hty Hne. unfold series. rewrite metricStore_update_lookup, He. simpl.
  unfold entry_for. rewrite He, decide_True by done.
  destruct (decide (hash ls = hash (metric_labels m))) as [Heq|Hh].
  - rewrite Heq, lookup_insert_eq. simpl.
    by rewrite chain_series_update_ne
      by (done || intros; apply metricState_update_labels).
  - by rewrite lookup_insert_ne.
Qed.

(** So are the series of other names. *)
Lemma series_update_ne_key s m bs key ls :
  key <> metric_key m ->
  series hash (metricStore_update hash ftoa s m bs) key ls = series hash s key ls.
Proof. intros. unfold series. by rewrite metricStore_update_lookup_ne. Qed.

Lemma prior_state_update s m bs :
  prior_state hash (metricStore_update hash ftoa s m bs)
    (metric_mtype m) (metric_key m) (metric_labels m)
  = metricState_update ftoa
      (prior_state hash s (metric_mtype m) (metric_key m) (metric_labels m))
      (metric_mtype m) (metric_value m) (metric_time m) bs.
Proof.
  pose proof (series_update_eq s m bs) as Hs.
  unfold series in Hs. unfold prior_state at 1. unfold series_of_type.
  rewrite metricStore_update_lookup in *. simpl in *.
  rewrite entry_for_mtype, decide_True by done. by rewrite Hs.
Qed.

End StoreUpdate.

(** ** The records of a store, before and after an update *)

Lemma chain_records_app e c1 c2 :
  chain_records e (c1 ++ c2) = chain_records e c1 ++ chain_records e c2.
Proof. unfold chain_records. apply bind_app. Qed.

Lemma chain_records_cons e st c :
  chain_records e (st :: c) = state_records e st ++ chain_records e c.
Proof. reflexivity. Qed.

Lemma chain_records_update e chain ls f :
  exists rest,
    chain_records e chain
    ≡ₚ from_option (state_records e) [] (chain_series chain ls) ++ rest
    /\ chain_records e (chain_update chain ls f)
       ≡ₚ state_records e (f (default (newMetricState ls) (chain_series chain ls)))
          ++ rest.
Proof.
  unfold chain_series, chain_update.
  destruct (find_in_chain chain ls) as [i|] eqn:Hfind; simpl.
  - destruct (find_in_chain_Some _ _ _ Hfind) as (st & Hst & _).
    rewrite Hst. simpl.
    exists (chain_records e (take i chain) ++ chain_records e (drop (S i) chain)).
    split.
    + rewrite <- (take_drop_middle chain i st Hst) at 1.
      rewrite chain_records_app, chain_records_cons.
      rewrite !app_assoc. f_equiv. apply Permutation_app_comm.
    + assert (alter f i chain = take i chain ++ f st :: drop (S i) chain) as ->.
      { rewrite <- (take_drop_middle chain i st Hst) at 1.
        assert (length (take i chain) = i) as Hlen.
        { rewrite length_take. apply lookup_lt_Some in Hst. lia. }
        rewrite alter_app_r_alt by lia. by rewrite Hlen, Nat.sub_diag. }
      rewrite chain_records_app, chain_records_cons.
      rewrite !app_assoc. f_equiv. apply Permutation_app_comm.
  - exists (chain_records e chain). split; [done|].
    rewrite chain_records_app. unfold chain_records at 2. simpl.
    rewrite app_nil_r. apply Permutation_app_comm.
Qed.

Lemma entry_records_set_states e m :
  entry_records (entry_set_states e m)
  = map_to_list m ≫= (fun hc => chain_records e hc.2).
Proof. reflexivity. Qed.

Lemma entry_records_insert e h chain :
  exists rest,
    entry_records e
    ≡ₚ chain_records e (default [] (entry_states e !! h)) ++ rest
    /\ entry_records (entry_set_states e (<[h := chain]> (entry_states e)))
       ≡ₚ chain_records e chain ++ rest.
Proof.
  exists (map_to_list (delete h (entry_states e)) ≫= (fun hc => chain_records e hc.2)).
  rewrite entry_records_set_states. unfold entry_records. split.
  - destruct (entry_states e !! h) as [c0|] eqn:Hc; simpl.
    + by rewrite <- (map_to_list_delete _ _ _ Hc) at 1.
    + by rewrite delete_id.
  - rewrite <- insert_delete_eq.
    by rewrite map_to_list_insert by apply lookup_delete_eq.
Qed.

Section RecordsUpdate.
Variable hash : labels -> Z.
Variable ftoa : float -> string.

Lemma entry_records_update e ls f :
  exists rest,
    entry_records e
    ≡ₚ from_option (state_records e) []
         (chain_series (default [] (entry_states e !! hash ls)) ls) ++ rest
    /\ entry_records (entry_update hash e ls f)
       ≡ₚ state_records e
            (f (default (newMetricState ls)
                  (chain_series (default [] (entry_states e !! hash ls)) ls)))
          ++ rest.
Proof.
  unfold entry_update.
  destruct (entry_records_insert e (hash ls)
              (chain_update (default [] (entry_states e !! hash ls)) ls f))
    as (rest1 & H1 & H2).
  destruct (chain_records_update e (default [] (entry_states e !! hash ls)) ls f)
    as (rest2 & H3 & H4).
  exists (rest2 ++ rest1). split.
  - by rewrite H1, H3, app_assoc.
  - by rewrite H2, H4, app_assoc.
Qed.

Lemma store_records_insert s key e' :
  exists rest,
    store_records s ≡ₚ from_option entry_records [] (entries s !! key) ++ rest
    /\ store_records {| entries := <[key := e']> (entries s) |}
       ≡ₚ entry_records e' ++ rest.
Proof.
  exists (map_to_list (delete key (entries s)) ≫= (fun ke => entry_records ke.2)).
  unfold store_records. simpl. split.
  - destruct (entries s !! key) as [e|] eqn:He; simpl.
    + by rewrite <- (map_to_list_delete _ _ _ He) at 1.
    + by rewrite delete_id.
  - rewrite <- insert_delete_eq.
    by rewrite map_to_list_insert by apply lookup_delete_eq.
Qed.

Lemma entry_records_new mtype scope name help :
  entry_records (newMetricEntry mtype scope name help) = [].
Proof.
  unfold entry_records, newMetricEntry.
  destruct (decide _); simpl; by rewrite map_to_list_empty.
Qed.

Lemma state_records_entry_for s mtype key help e st :
  entries s !! key = Some e -> entry_mtype e = mtype ->
  state_records (entry_for s mtype key help) st = state_records e st.
Proof. intros He Hty. unfold entry_for. by rewrite He, decide_True. Qed.

(** An update supersedes some records and adds the records of the updated
    state; every other record of the store stays. *)
Lemma store_records_update s m bs :
  exists rest,
    store_records s
    ≡ₚ superseded hash s (metric_mtype m) (metric_key m) (metric_labels m) ++ rest
    /\ store_records (metricStore_update hash ftoa s m bs)
       ≡ₚ state_records
            (entry_for s (metric_mtype m) (metric_key m) (metric_help m))
            (metricState_update ftoa
               (prior_state hash s (metric_mtype m) (metric_key m) (metric_labels m))
               (metric_mtype m) (metric_value m) (metric_time m) bs)
          ++ rest.
Proof.
  set (f := fun st => metricState_update ftoa st (metric_mtype m) (metric_value m)
                                         (metric_time m) bs).
  set (E := entry_for s (metric_mtype m) (metric_key m) (metric_help m)).
  destruct (store_records_insert s (metric_key m)
              (entry_update hash E (metric_labels m) f)) as (rest1 & H1 & H2).
  destruct (entry_records_update E (metric_labels m) f) as (rest2 & H3 & H4).
  assert (store_records (metricStore_update hash ftoa s m bs)
          ≡ₚ entry_records (entry_update hash E (metric_labels m) f) ++ rest1) as H2'.
  { rewrite <- H2. unfold store_records. by rewrite metricStore_update_entries. }
  clear H2.
  pose proof (entry_for_series hash s (metric_mtype m) (metric_key m)
                (metric_help m) (metric_labels m)) as Hprior.
  fold E in Hprior. rewrite <- Hprior. clear Hprior.
  unfold superseded.
  destruct (entries s !! metric_key m) as [e|] eqn:He; simpl in H1 |- *.
  - destruct (decide (entry_mtype e = metric_mtype m)) as [Hty|Hty].
    + assert (E = e) as HE by (subst E; unfold entry_for; by rewrite He, decide_True).
      rewrite HE in *. exists (rest2 ++ rest1). split.
      * by rewrite H1, H3, app_assoc.
      * by rewrite H2', H4, app_assoc.
    + assert (entry_records E = []) as HE.
      { subst E. unfold entry_for. rewrite He, decide_False by done.
        apply entry_records_new. }
      rewrite HE in H3. symmetry in H3. apply Permutation_nil_r in H3.
      apply app_eq_nil in H3 as [_ ->]. exists rest1. split; [done|].
      by rewrite H2', H4, app_nil_r.
  - assert (entry_records E = []) as HE.
    { subst E. unfold entry_for. rewrite He. apply entry_records_new. }
    rewrite HE in H3. symmetry in H3. apply Permutation_nil_r in H3.
    apply app_eq_nil in H3 as [_ ->]. exists rest1. split; [done|].
    by rewrite H2', H4, app_nil_r.
Qed.

End RecordsUpdate.

(** ** Sequences of updates to one series *)

Section SeriesUpdates.
Variable hash : labels -> Z.
Variable ftoa : float -> string.

Lemma prior_state_updates s mtype key ls ms bs :
  Forall (on_series mtype key ls) ms ->
  prior_state hash (metricStore_updates hash ftoa s ms bs) mtype key ls
  = metricState_updates ftoa (prior_state hash s mtype key ls) ms bs.
Proof.
  unfold metricStore_updates, metricState_updates.
  revert s. induction ms as [|m ms IH]; intros s Hall; simpl; [done|].
  apply Forall_cons in Hall as [(Hty & Hk & Hl) Hall].
  rewrite IH by done. f_equal.
  rewrite <- Hty, <- Hk, <- Hl. apply prior_state_update.
Qed.

Lemma metricStore_updates_snoc s ms m bs :
  metricStore_updates hash ftoa s (ms ++ [m]) bs
  = metricStore_update hash ftoa (metricStore_updates hash ftoa s ms bs) m bs.
Proof. unfold metricStore_updates. by rewrite foldl_snoc. Qed.

Lemma metricState_updates_snoc st ms m bs :
  metricState_updates ftoa st (ms ++ [m]) bs
  = metricState_update ftoa (metricState_updates ftoa st ms bs)
      (metric_mtype m) (metric_value m) (metric_time m) bs.
Proof. unfold metricState_updates. by rewrite foldl_snoc. Qed.

(** After a non-empty sequence of updates to one series, the entry is of
    the type of the updates and the series holds the prior state with
    every update applied in order. *)
Lemma series_updates s mtype key ls ms bs :
  Forall (on_series mtype key ls) ms -> ms <> [] ->
  (exists e, entries (metricStore_updates hash ftoa s ms bs) !! key = Some e
             /\ entry_mtype e = mtype)
  /\ series hash (metricStore_updates hash ftoa s ms bs) key ls
     = Some (metricState_updates ftoa (prior_state hash s mtype key ls) ms bs).
Proof.
  intros Hall Hne.
  destruct (exists_last Hne) as (ms' & m & ->).
  apply Forall_app in Hall as [Hall Hm].
  apply Forall_singleton in Hm as (Hty & Hk & Hl).
  rewrite metricStore_updates_snoc, metricState_updates_snoc.
  rewrite <- Hk, <- Hl. split.
  - eexists. split; [apply metricStore_update_lookup|].
    simpl. by rewrite entry_for_mtype.
  - rewrite series_update_eq. do 2 f_equal.
    rewrite Hty, Hk, Hl. by apply prior_state_updates.
Qed.

(** The state found for a series is in a chain of its entry, so its
    records are collected. *)
Lemma series_collected s key ls e st x :
  entries s !! key = Some e ->
  series hash s key ls = Some st ->
  x ∈ state_records e st ->
  x ∈ metricStore_collect s [].
Proof.
  intros He Hs Hx. unfold series in Hs. rewrite He in Hs. simpl in Hs.
  unfold chain_series in Hs.
  destruct (find_in_chain _ ls) as [i|] eqn:Hfind; simpl in Hs; [|done].
  destruct (entry_states e !! hash ls) as [chain|] eqn:Hc; simpl in *; [|done].
  apply elem_of_metricStore_collect.
  exists key, e, (hash ls), chain, st. split_and!; try done.
  by eapply list_elem_of_lookup_2.
Qed.

Lemma series_labels s key ls st :
  series hash s key ls = Some st -> state_labels st = ls.
Proof.
  unfold series, chain_series. destruct (entries s !! key) as [e|]; simpl; [|done].
  destruct (find_in_chain _ ls) as [i|] eqn:Hfind; simpl; [|done].
  destruct (find_in_chain_Some _ _ _ Hfind) as (st' & Hst' & Hl).
  rewrite Hst'. by intros [= <-].
Qed.

Lemma prior_state_labels s mtype key ls :
  state_labels (prior_state hash s mtype key ls) = ls.
Proof.
  unfold prior_state, series_of_type.
  destruct (entries s !! key) as [e|] eqn:He; simpl; [|done].
  destruct (decide _); [|done].
  destruct (chain_series _ ls) as [st|] eqn:Hs; simpl; [|done].
  apply (series_labels s key). unfold series. by rewrite He.
Qed.

End SeriesUpdates.

(** The value of a counter after updates: the floating-point sum, in
    order, from the value before. *)
Lemma counter_updates_value ftoa st ms bs :
  Forall (fun m => metric_mtype m = counter) ms ->
  state_value (metricState_updates ftoa st ms bs)
  = fold_left PrimFloat.add (map metric_value ms) (state_value st).
Proof.
  unfold metricState_updates. revert st.
  induction ms as [|m ms IH]; intros st Hall; simpl; [done|].
  apply Forall_cons in Hall as [Hty Hall].
  rewrite IH by done. by rewrite Hty.
Qed.

(** The value of a gauge after updates: the value of the last one. *)
Lemma gauge_updates_value ftoa st ms m bs :
  metric_mtype m = gauge ->
  state_value (metricState_updates ftoa st (ms ++ [m]) bs) = metric_value m.
Proof. intros Hty. rewrite metricState_updates_snoc. by rewrite Hty. Qed.

Lemma metricState_updates_labels ftoa st ms bs :
  state_labels (metricState_updates ftoa st ms bs) = state_labels st.
Proof.
  unfold metricState_updates. revert st.
  induction ms as [|m ms IH]; intros st; simpl; [done|].
  by rewrite IH, metricState_update_labels.
Qed.

Lemma metricState_updates_time ftoa st ms m bs :
  state_time (metricState_updates ftoa st (ms ++ [m]) bs) = timeToUnix (metric_time m).
Proof. by rewrite metricState_updates_snoc. Qed.

(** ** Stores that hold one series, and series that are not there *)

Section SingleSeries.
Variable hash : labels -> Z.
Variable ftoa : float -> string.

Lemma series_of_type_update_eq s m bs :
  series_of_type hash (metricStore_update hash ftoa s m bs)
    (metric_mtype m) (metric_key m) (metric_labels m)
  = series hash (metricStore_update hash ftoa s m bs) (metric_key m) (metric_labels m).
Proof.
  unfold series_of_type, series. rewrite metricStore_update_lookup. simpl.
  by rewrite entry_for_mtype, decide_True.
Qed.

(** Under the key of the update, a series with other labels is what it was
    when the entry was of the type of the update, and is not there when
    the entry was created or replaced. *)
Lemma series_of_type_update_ne s m bs ls :
  ls <> metric_labels m ->
  series_of_type hash (metricStore_update hash ftoa s m bs)
    (metric_mtype m) (metric_key m) ls
  = series_of_type hash s (metric_mtype m) (metric_key m) ls.
Proof.
  intros Hne. unfold series_of_type at 1. rewrite metricStore_update_lookup. simpl.
  rewrite entry_for_mtype, decide_True by done.
  assert (chain_series
            (default [] (<[hash (metric_labels m) :=
               chain_update
                 (default [] (entry_states
                    (entry_for s (metric_mtype m) (metric_key m) (metric_help m))
                    !! hash (metric_labels m)))
                 (metric_labels m)
                 (fun st => metricState_update ftoa st (metric_mtype m)
                              (metric_value m) (metric_time m) bs)]>
               (entry_states
                  (entry_for s (metric_mtype m) (metric_key m) (metric_help m)))
             !! hash ls)) ls
          = chain_series
              (default [] (entry_states
                 (entry_for s (metric_mtype m) (metric_key m) (metric_help m))
                 !! hash ls)) ls) as ->.
  { destruct (decide (hash ls = hash (metric_labels m))) as [Heq|Hh].
    - rewrite Heq, lookup_insert_eq. simpl.
      by rewrite chain_series_update_ne
        by (done || intros; apply metricState_update_labels).
    - by rewrite lookup_insert_ne. }
  unfold series_of_type, entry_for, newMetricEntry.
  destruct (entries s !! metric_key m) as [e|]; simpl.
  - destruct (decide (entry_mtype e = metric_mtype m)); [done|].
    by destruct (decide (metric_mtype m = histogram)).
  - by destruct (decide (metric_mtype m = histogram)).
Qed.

Lemma superseded_series_of_type s mtype key ls e :
  entries s !! key = Some e -> entry_mtype e = mtype ->
  superseded hash s mtype key ls
  = from_option (state_records e) [] (series_of_type hash s mtype key ls).
Proof.
  intros He Hty. unfold superseded, series_of_type.
  rewrite He. simpl. by destruct (decide (entry_mtype e = mtype)).
Qed.

Lemma superseded_update s m bs :
  superseded hash (metricStore_update hash ftoa s m bs)
    (metric_mtype m) (metric_key m) (metric_labels m)
  = state_records (entry_for s (metric_mtype m) (metric_key m) (metric_help m))
      (metricState_update ftoa
         (prior_state hash s (metric_mtype m) (metric_key m) (metric_labels m))
         (metric_mtype m) (metric_value m) (metric_time m) bs).
Proof.
  erewrite superseded_series_of_type;
    [|apply metricStore_update_lookup|simpl; apply entry_for_mtype].
  by rewrite series_of_type_update_eq, series_update_eq.
Qed.

Lemma entry_for_update s m bs help :
  entry_for (metricStore_update hash ftoa s m bs) (metric_mtype m) (metric_key m) help
  = entry_update hash
      (entry_for s (metric_mtype m) (metric_key m) (metric_help m))
      (metric_labels m)
      (fun st => metricState_update ftoa st (metric_mtype m) (metric_value m)
                                    (metric_time m) bs).
Proof.
  unfold entry_for at 1. rewrite metricStore_update_lookup.
  simpl. by rewrite entry_for_mtype, decide_True.
Qed.

Lemma Permutation_app_self_nil {A} (l rest : list A) : l ≡ₚ l ++ rest -> rest = [].
Proof.
  intros Hp. apply Permutation_length in Hp. rewrite length_app in Hp.
  apply length_zero_iff_nil. lia.
Qed.

(** When the records of the store are those of one series, updates to
    that series leave the records of its updated state. *)
Lemma store_records_single_series s mtype key ls m ms bs :
  Forall (on_series mtype key ls) (m :: ms) ->
  store_records s ≡ₚ superseded hash s mtype key ls ->
  store_records (metricStore_updates hash ftoa s (m :: ms) bs)
  ≡ₚ state_records (entry_for s mtype key (metric_help m))
       (metricState_updates ftoa (prior_state hash s mtype key ls) (m :: ms) bs).
Proof.
  revert s m. induction ms as [|m' ms IH]; intros s m Hall Hs.
  - apply Forall_singleton in Hall as (Hty & Hk & Hl). subst mtype key ls.
    destruct (store_records_update hash ftoa s m bs) as (rest & H1 & H2).
    rewrite Hs in H1. apply Permutation_app_self_nil in H1. subst rest.
    by rewrite app_nil_r in H2.
  - apply Forall_cons in Hall as [(Hty & Hk & Hl) Hall]. subst mtype key ls.
    destruct (store_records_update hash ftoa s m bs) as (rest & H1 & H2).
    rewrite Hs in H1. apply Permutation_app_self_nil in H1. subst rest.
    rewrite app_nil_r in H2.
    change (metricStore_updates hash ftoa s (m :: m' :: ms) bs)
      with (metricStore_updates hash ftoa (metricStore_update hash ftoa s m bs)
              (m' :: ms) bs).
    rewrite (IH (metricStore_update hash ftoa s m bs) m' Hall)
      by (by rewrite superseded_update).
    rewrite entry_for_update, prior_state_update. done.
Qed.

Lemma store_records_empty : store_records emptyStore = [].
Proof. unfold store_records. simpl. by rewrite map_to_list_empty. Qed.

Lemma superseded_empty mtype key ls : superseded hash emptyStore mtype key ls = [].
Proof. unfold superseded. simpl. by rewrite lookup_empty. Qed.

Lemma prior_state_empty mtype key ls :
  prior_state hash emptyStore mtype key ls = newMetricState ls.
Proof. unfold prior_state, series_of_type. simpl. by rewrite lookup_empty. Qed.

Lemma entry_for_empty mtype key help :
  entry_for emptyStore mtype key help
  = newMetricEntry mtype (key_scope key) (key_name key) help.
Proof. unfold entry_for. simpl. by rewrite lookup_empty. Qed.

End SingleSeries.

(** ** The records of counters and gauges *)

Lemma state_records_counter e st :
  entry_mtype e = counter ->
  state_records e st
  = [ {| metric_mtype := counter; metric_scope := entry_scope e;
         metric_name := entry_name e; metric_help := entry_help e;
         metric_value := state_value st;
         metric_time := atomicTime_load (state_time st);
         metric_labels := state_labels st |} ].
Proof. intros Hty. unfold state_records, metricState_collect. by rewrite Hty. Qed.

Lemma state_records_gauge e st :
  entry_mtype e = gauge ->
  state_records e st
  = [ {| metric_mtype := gauge; metric_scope := entry_scope e;
         metric_name := entry_name e; metric_help := entry_help e;
         metric_value := state_value st;
         metric_time := atomicTime_load (state_time st);
         metric_labels := state_labels st |} ].
Proof. intros Hty. unfold state_records, metricState_collect. by rewrite Hty. Qed.

Section Examples.
Variable hash : labels -> Z.
Variable ftoa : float -> string.

(** A series that has not been updated is not in the store. *)
Lemma series_of_type_updates_ne s mtype key ls ls' ms bs :
  Forall (on_series mtype key ls) ms -> ls' <> ls ->
  series_of_type hash (metricStore_updates hash ftoa s ms bs) mtype key ls'
  = series_of_type hash s mtype key ls'.
Proof.
  unfold metricStore_updates. revert s.
  induction ms as [|m ms IH]; intros s Hall Hne; simpl; [done|].
  apply Forall_cons in Hall as [(Hty & Hk & Hl) Hall].
  rewrite IH by done. subst mtype key ls.
  by apply series_of_type_update_ne.
Qed.

(** An update to a series that the entry, of the same type, does not hold
    adds the records of the new state. *)
Lemma store_records_update_new s m bs e :
  entries s !! metric_key m = Some e ->
  entry_mtype e = metric_mtype m ->
  series_of_type hash s (metric_mtype m) (metric_key m) (metric_labels m) = None ->
  store_records (metricStore_update hash ftoa s m bs)
  ≡ₚ state_records e
       (metricState_update ftoa (newMetricState (metric_labels m))
          (metric_mtype m) (metric_value m) (metric_time m) bs)
     ++ store_records s.
Proof.
  intros He Hty Hnone.
  destruct (store_records_update hash ftoa s m bs) as (rest & H1 & H2).
  rewrite (superseded_series_of_type hash s _ _ _ e He Hty), Hnone in H1.
  simpl in H1. rewrite H2, <- H1. unfold prior_state. rewrite Hnone. simpl.
  by rewrite (state_records_entry_for s _ _ _ e).
Qed.

(** An update to a series that the entry, of the same type, holds replaces
    the records of its state. *)
Lemma store_records_update_old s m bs e st rest :
  entries s !! metric_key m = Some e ->
  entry_mtype e = metric_mtype m ->
  series_of_type hash s (metric_mtype m) (metric_key m) (metric_labels m) = Some st ->
  store_records s ≡ₚ state_records e st ++ rest ->
  store_records (metricStore_update hash ftoa s m bs)
  ≡ₚ state_records e
       (metricState_update ftoa st
          (metric_mtype m) (metric_value m) (metric_time m) bs)
     ++ rest.
Proof.
  intros He Hty Hsome Hs.
  destruct (store_records_update hash ftoa s m bs) as (rest' & H1 & H2).
  rewrite (superseded_series_of_type hash s _ _ _ e He Hty), Hsome in H1.
  simpl in H1. rewrite Hs in H1. apply Permutation_app_inv_l in H1.
  rewrite H2, <- H1. unfold prior_state. rewrite Hsome. simpl.
  by rewrite (state_records_entry_for s _ _ _ e).
Qed.

End Examples.

(** ** Scenario S1: counter aggregation *)

Section S1.
Variable hash : labels -> Z.
Variable ftoa : float -> string.

Lemma example_S1 t1 t2 t3 :
  metricStore_collect
    (metricStore_updates hash ftoa emptyStore
       [ sample counter "A" 1 t1 [];
         sample counter "A" 2 t2 [];
         sample counter "A" 4 t3 [("id", "123")] ] [])
    []
  ≡ₚ [ sample counter "A" 3 (unixToTime (timeToUnix t2)) [];
       sample counter "A" 4 (unixToTime (timeToUnix t3)) [("id", "123")] ].
Proof.
  rewrite metricStore_collect_perm, app_nil_l.
  pose (ms := [sample counter "A" 1 t1 []; sample counter "A" 2 t2 []]).
  pose (m3 := sample counter "A" 4 t3 [("id", "123")]).
  change (store_records
            (metricStore_update hash ftoa
               (metricStore_updates hash ftoa emptyStore ms []) m3 []) ≡ₚ
          [ sample counter "A" 3 (unixToTime (timeToUnix t2)) [];
            sample counter "A" 4 (unixToTime (timeToUnix t3)) [("id", "123")] ]).
  assert (Forall (on_series counter (mkKey "" "A") []) ms) as Hall
    by (repeat constructor).
  destruct (series_updates hash ftoa emptyStore counter (mkKey "" "A") [] ms []
              Hall ltac:(done)) as [(e & He & Hty) _].
  pose proof (store_records_single_series hash ftoa emptyStore counter
                (mkKey "" "A") [] _ _ [] Hall) as Hrec.
  rewrite store_records_empty, superseded_empty in Hrec.
  specialize (Hrec ltac:(done)).
  rewrite prior_state_empty, entry_for_empty in Hrec.
  rewrite (store_records_update_new hash ftoa _ m3 [] e He Hty).
  - subst ms. rewrite Hrec, (state_records_counter e) by done.
    assert (entry_scope e = "" /\ entry_name e = "A" /\ entry_help e = "")
      as (-> & -> & ->).
    { unfold metricStore_updates in He. cbn [foldl] in He.
      change (mkKey "" "A") with (metric_key (sample counter "A" 2 t2 [])) in He.
      rewrite metricStore_update_lookup in He. injection He as <-.
      change (metric_mtype (sample counter "A" 2 t2 []))
        with (metric_mtype (sample counter "A" 1 t1 [])).
      change (metric_key (sample counter "A" 2 t2 []))
        with (metric_key (sample counter "A" 1 t1 [])).
      rewrite entry_for_update. cbn [entry_update entry_set_states entry_scope
        entry_name entry_help]. by rewrite entry_for_empty. }
    apply Permutation_swap.
  - change (metric_labels m3) with [("id", "123")]%string.
    change (metric_key m3) with (mkKey "" "A").
    change (metric_mtype m3) with counter.
    rewrite (series_of_type_updates_ne hash ftoa _ counter (mkKey "" "A") [])
      by done.
    unfold series_of_type. simpl. by rewrite lookup_empty.
Qed.

End S1.

(** ** Scenarios S2 and S3: gauges on two label sets, a histogram *)

Section S2S3.
Variable hash : labels -> Z.
Variable ftoa : float -> string.

Lemma example_S2 t1 t2 t3 :
  metricStore_collect
    (metricStore_updates hash ftoa emptyStore
       [ sample gauge "B" 1 t1 [("a", "1"); ("b", "2")];
         sample gauge "B" 42 t2 [("a", "1")];
         sample gauge "B" 21 t3 [("a", "1"); ("b", "2")] ] [])
    []
  ≡ₚ [ sample gauge "B" 42 (unixToTime (timeToUnix t2)) [("a", "1")];
       sample gauge "B" 21 (unixToTime (timeToUnix t3)) [("a", "1"); ("b", "2")] ].
Proof.
  rewrite metricStore_collect_perm, app_nil_l.
  pose (m1 := sample gauge "B" 1 t1 [("a", "1"); ("b", "2")]).
  pose (m2 := sample gauge "B" 42 t2 [("a", "1")]).
  pose (m3 := sample gauge "B" 21 t3 [("a", "1"); ("b", "2")]).
  pose (s1 := metricStore_update hash ftoa emptyStore m1 []).
  pose (s2 := metricStore_update hash ftoa s1 m2 []).
  pose (E := newMetricEntry gauge "" "B" "").
  change (store_records (metricStore_update hash ftoa s2 m3 []) ≡ₚ
          [ sample gauge "B" 42 (unixToTime (timeToUnix t2)) [("a", "1")];
            sample gauge "B" 21 (unixToTime (timeToUnix t3)) [("a", "1"); ("b", "2")] ]).
  (* the first update creates the entry and the series a=1,b=2 *)
  assert (store_records s1 ≡ₚ state_records E
            (metricState_update ftoa (newMetricState (metric_labels m1))
               gauge 1 t1 [])) as Hs1.
  { pose proof (store_records_single_series hash ftoa emptyStore gauge
                  (mkKey "" "B") (metric_labels m1) m1 [] []
                  ltac:(repeat constructor)) as Hrec.
    rewrite store_records_empty, superseded_empty in Hrec.
    specialize (Hrec ltac:(done)).
    by rewrite prior_state_empty, entry_for_empty in Hrec. }
  assert (entries s1 !! mkKey "" "B"
          = Some (entry_update hash E (metric_labels m1)
                    (fun st => metricState_update ftoa st gauge 1 t1 [])))
    as He1.
  { subst s1. change (mkKey "" "B") with (metric_key m1).
    rewrite metricStore_update_lookup. by rewrite entry_for_empty. }
  assert (series_of_type hash s1 gauge (mkKey "" "B") (metric_labels m1)
          = Some (metricState_update ftoa (newMetricState (metric_labels m1))
                    gauge 1 t1 [])) as Hser1.
  { subst s1. pose proof (series_of_type_update_eq hash ftoa emptyStore m1 []) as H.
    rewrite series_update_eq, prior_state_empty in H. exact H. }
  assert (series_of_type hash s1 gauge (mkKey "" "B") (metric_labels m2) = None)
    as Hser1'.
  { subst s1.
    rewrite (series_of_type_update_ne hash ftoa emptyStore m1 []) by done.
    unfold series_of_type. simpl. by rewrite lookup_empty. }
  (* the second update adds the series a=1 *)
  pose proof (store_records_update_new hash ftoa s1 m2 [] _ He1 eq_refl Hser1')
    as Hs2.
  fold s2 in Hs2. rewrite Hs1 in Hs2.
  assert (entries s2 !! mkKey "" "B"
          = Some (entry_update hash
                    (entry_update hash E (metric_labels m1)
                       (fun st => metricState_update ftoa st gauge 1 t1 []))
                    (metric_labels m2)
                    (fun st => metricState_update ftoa st gauge 42 t2 [])))
    as He2.
  { subst s2. change (mkKey "" "B") with (metric_key m2).
    rewrite metricStore_update_lookup. unfold entry_for.
    change (metric_key m2) with (mkKey "" "B"). by rewrite He1. }
  assert (series_of_type hash s2 gauge (mkKey "" "B") (metric_labels m3)
          = Some (metricState_update ftoa (newMetricState (metric_labels m1))
                    gauge 1 t1 [])) as Hser2.
  { subst s2.
    rewrite (series_of_type_update_ne hash ftoa s1 m2 []) by done.
    exact Hser1. }
  (* the third update replaces the state of the series a=1,b=2 *)
  rewrite (store_records_update_old hash ftoa s2 m3 [] _ _
             (state_records E
                (metricState_update ftoa (newMetricState (metric_labels m2))
                   gauge 42 t2 []))
             He2 eq_refl Hser2).
  2:{ rewrite Hs2. apply Permutation_app_comm. }
  simpl. apply Permutation_swap.
Qed.

Lemma example_S3 t1 t2 t3 t4 :
  metricStore_collect
    (metricStore_updates hash ftoa emptyStore
       [ sample histogram "C" 0.1 t1 [];
         sample histogram "C" 0.1 t2 [];
         sample histogram "C" 0.5 t3 [];
         sample histogram "C" 10 t4 [] ]
       [0.25; 0.5; 0.75; 1]%float)
    []
  ≡ₚ [ sample histogram "C_bucket" 2 (unixToTime (timeToUnix t4)) [("le", ftoa 0.25)];
       sample histogram "C_bucket" 1 (unixToTime (timeToUnix t4)) [("le", ftoa 0.5)];
       sample histogram "C_bucket" 0 (unixToTime (timeToUnix t4)) [("le", ftoa 0.75)];
       sample histogram "C_bucket" 0 (unixToTime (timeToUnix t4)) [("le", ftoa 1)];
       sample histogram "C_sum" 10.7 (unixToTime (timeToUnix t4)) [];
       sample histogram "C_count" 4 (unixToTime (timeToUnix t4)) [] ].
Proof.
  rewrite metricStore_collect_perm, app_nil_l.
  pose proof (store_records_single_series hash ftoa emptyStore histogram
                (mkKey "" "C") []
                (sample histogram "C" 0.1 t1 [])
                [ sample histogram "C" 0.1 t2 [];
                  sample histogram "C" 0.5 t3 [];
                  sample histogram "C" 10 t4 [] ]
                [0.25; 0.5; 0.75; 1]%float
                ltac:(repeat constructor)) as Hrec.
  rewrite store_records_empty, superseded_empty in Hrec.
  specialize (Hrec ltac:(done)).
  rewrite prior_state_empty, entry_for_empty in Hrec.
  rewrite Hrec. reflexivity.
Qed.

End S2S3.

(** ** Histograms (C1) *)

(** C1.  An update of a histogram series with bounds [bs] increments the
    counter of the first bucket, in order, whose limit is at least the
    sample (a [uint64] increment) and leaves every other bucket as it is;
    when no limit reaches the sample no bucket changes; in both cases the
    sample is added to the sum and 1 to the count.  A new series gets its
    bucket vector, with the bounds given and counters at zero, from its
    first update.  With the bounds 0.25, 0.5, 0.75, 1 and the samples 0.1,
    0.1, 0.5, 10 the collect yields the bucket counts 2, 1, 0, 0, the count
    4 and the sum 10.7. *)
Theorem histogram_update_first_bucket (hash : labels -> Z) (ftoa : float -> string) :
  (forall (st : metricState) (v : float) (t : Time) (bs : list float),
      map bucket_limit (state_buckets st) = bs ->
      let st' := metricState_update ftoa st histogram v t bs in
      (forall (i : nat) (b : metricBucket),
          state_buckets st !! i = Some b ->
          PrimFloat.leb v (bucket_limit b) = true ->
          (forall (j : nat) (b' : metricBucket),
              (j < i)%nat -> state_buckets st !! j = Some b' ->
              PrimFloat.leb v (bucket_limit b') = false) ->
          state_buckets st'
          = <[i := bucket_set_count b (wrapU64 (bucket_count b + 1))]>
              (state_buckets st))
      /\ ((forall b, b ∈ state_buckets st ->
                     PrimFloat.leb v (bucket_limit b) = false) ->
          state_buckets st' = state_buckets st)
      /\ state_sum st' = PrimFloat.add (state_sum st) v
      /\ state_count st' = PrimFloat.add (state_count st) 1)
  /\ (forall (ls : labels) (v : float) (t : Time) (bs : list float),
         bs <> [] ->
         state_buckets (metricState_update ftoa (newMetricState ls) histogram v t bs)
         = metricBuckets_update
             (map (fun limit => mkBucket 0 limit (ls ++ [("le"%string, ftoa limit)])) bs)
             v)
  /\ (forall t1 t2 t3 t4 : Time,
         metricStore_collect
           (metricStore_updates hash ftoa emptyStore
              [ sample histogram "C" 0.1 t1 [];
                sample histogram "C" 0.1 t2 [];
                sample histogram "C" 0.5 t3 [];
                sample histogram "C" 10 t4 [] ]
              [0.25; 0.5; 0.75; 1]%float)
           []
         ≡ₚ [ sample histogram "C_bucket" 2 (unixToTime (timeToUnix t4)) [("le", ftoa 0.25%float)];
              sample histogram "C_bucket" 1 (unixToTime (timeToUnix t4)) [("le", ftoa 0.5%float)];
              sample histogram "C_bucket" 0 (unixToTime (timeToUnix t4)) [("le", ftoa 0.75%float)];
              sample histogram "C_bucket" 0 (unixToTime (timeToUnix t4)) [("le", ftoa 1%float)];
              sample histogram "C_sum" 10.7 (unixToTime (timeToUnix t4)) [];
              sample histogram "C_count" 4 (unixToTime (timeToUnix t4)) [] ]).
Proof.
  split; [|split].
  - intros st v t bs Hbs st'. subst st'.
    rewrite metricState_update_histogram
      by (by rewrite <- Hbs, length_map).
    simpl. split_and!; [|by apply metricBuckets_update_none|done..].
    intros i b Hi Hle Hbefore. by apply metricBuckets_update_first.
  - intros ls v t bs Hne. unfold metricState_update. simpl.
    destruct (decide _) as [_|Heq]; [done|].
    exfalso. apply Heq. destruct bs; [done|]. simpl. lia.
  - apply example_S3.
Qed.

(** The update of a series with the bounds 0.25 and 0.5 by the sample 0.3:
    the second bucket is the first to reach it. *)
Lemma histogram_update_first_bucket_witness :
  state_buckets
    (metricState_update ftoa_table
       (mkState [] [mkBucket 7 0.25%float [("le","0.25")]; mkBucket 3 0.5%float [("le","0.5")]]
                0%float 1.5%float 10%float 0)
       histogram 0.3%float (mkTime 1500000000 0 UTC) [0.25; 0.5]%float)
  = [mkBucket 7 0.25%float [("le","0.25")]; mkBucket 4 0.5%float [("le","0.5")]].
Proof.
  apply (proj1 (proj1 (histogram_update_first_bucket fnv1a_hash ftoa_table)
                  (mkState [] [mkBucket 7 0.25%float [("le","0.25")];
                               mkBucket 3 0.5%float [("le","0.5")]] 0%float 1.5%float 10%float 0)
                  0.3%float (mkTime 1500000000 0 UTC) [0.25; 0.5]%float eq_refl)
               1%nat (mkBucket 3 0.5%float [("le","0.5")]) eq_refl eq_refl).
  intros [|j] b' Hj Hb'; [|lia]. by injection Hb' as <-.
Defined.

(** ** Counters (C2) *)

(** C2 (as amended).  After a non-empty sequence of counter updates to one
    series, collect reports for the series the binary64 sum of the update
    values, added in order to the value the series had before (zero for a
    series that did not exist or whose entry was of another type); updates
    from the empty store leave exactly that record.  Updating counter A
    with 1 and 2 on the empty label set and with 4 on {id=123} yields A=3
    for the empty label set and A=4 for {id=123}. *)
Theorem counter_updates_float_sum (hash : labels -> Z) (ftoa : float -> string) :
  (forall (s : metricStore) (key : metricKey) (ls : labels) (ms : list metric)
          (bs : list float),
      Forall (on_series counter key ls) ms -> ms <> [] ->
      let s' := metricStore_updates hash ftoa s ms bs in
      exists e st,
        entries s' !! key = Some e /\ entry_mtype e = counter
        /\ series hash s' key ls = Some st
        /\ state_value st
           = fold_left PrimFloat.add (map metric_value ms)
               (state_value (prior_state hash s counter key ls))
        /\ {| metric_mtype := counter; metric_scope := entry_scope e;
              metric_name := entry_name e; metric_help := entry_help e;
              metric_value := state_value st;
              metric_time := atomicTime_load (state_time st);
              metric_labels := ls |} ∈ metricStore_collect s' [])
  /\ (forall (key : metricKey) (ls : labels) (m : metric) (ms : list metric)
             (bs : list float),
         Forall (on_series counter key ls) (m :: ms) ->
         exists t,
           metricStore_collect (metricStore_updates hash ftoa emptyStore (m :: ms) bs) []
           = [ {| metric_mtype := counter; metric_scope := key_scope key;
                  metric_name := key_name key; metric_help := metric_help m;
                  metric_value :=
                    fold_left PrimFloat.add (map metric_value (m :: ms)) 0%float;
                  metric_time := t; metric_labels := ls |} ])
  /\ (forall t1 t2 t3 : Time,
         metricStore_collect
           (metricStore_updates hash ftoa emptyStore
              [ sample counter "A" 1 t1 [];
                sample counter "A" 2 t2 [];
                sample counter "A" 4 t3 [("id", "123")] ] [])
           []
         ≡ₚ [ sample counter "A" 3 (unixToTime (timeToUnix t2)) [];
              sample counter "A" 4 (unixToTime (timeToUnix t3)) [("id", "123")] ]).
Proof.
  split; [|split].
  - intros s key ls ms bs Hall Hne s'. subst s'.
    destruct (series_updates hash ftoa s counter key ls ms bs Hall Hne)
      as [(e & He & Hty) Hser].
    exists e, (metricState_updates ftoa (prior_state hash s counter key ls) ms bs).
    assert (Forall (fun m => metric_mtype m = counter) ms) as Hc
      by (eapply Forall_impl; [exact Hall|by intros m (? & _)]).
    split_and!; try done.
    + by apply counter_updates_value.
    + eapply (series_collected hash _ key ls e); [done..|].
      rewrite state_records_counter by done.
      rewrite metricState_updates_labels, prior_state_labels.
      apply list_elem_of_here.
  - intros key ls m ms bs Hall.
    pose proof (store_records_single_series hash ftoa emptyStore counter key ls
                  m ms bs Hall) as Hrec.
    rewrite store_records_empty, superseded_empty in Hrec.
    specialize (Hrec ltac:(done)).
    rewrite prior_state_empty, entry_for_empty in Hrec.
    rewrite state_records_counter in Hrec by done.
    rewrite <- (app_nil_l (store_records _)), <- metricStore_collect_perm in Hrec.
    apply Permutation_singleton_r in Hrec. rewrite Hrec. eexists. f_equal.
    assert (Forall (fun m => metric_mtype m = counter) (m :: ms)) as Hc
      by (eapply Forall_impl; [exact Hall|by intros m' (? & _)]).
    rewrite metricState_updates_labels.
    rewrite (counter_updates_value ftoa _ (m :: ms) bs Hc). reflexivity.
  - apply example_S1.
Qed.

(** Two updates of counter A on the empty store. *)
Lemma counter_updates_float_sum_witness :
  exists t,
    metricStore_collect
      (metricStore_updates fnv1a_hash ftoa_table emptyStore
         [ sample counter "A" 1.5 (mkTime 1500000000 0 UTC) [];
           sample counter "A" 2.25 (mkTime 1500000001 0 UTC) [] ] [])
      []
    = [ sample counter "A" 3.75 t [] ].
Proof.
  apply (proj1 (proj2 (counter_updates_float_sum fnv1a_hash ftoa_table))
           (mkKey "" "A") []
           (sample counter "A" 1.5 (mkTime 1500000000 0 UTC) [])
           [sample counter "A" 2.25 (mkTime 1500000001 0 UTC) []] []).
  repeat constructor.
Defined.

(** C2 fails as stated: the counter cell is a [float64], not an integer
    modulo 2^64.  Adding 1 to a counter at 2^53 leaves 2^53, whereas the
    sum of the update values is 2^53 + 1, below 2^64. *)
Lemma counter_sum_not_exact :
  ~ (forall (ms : list metric) (x : metric) (total q : Q),
        Forall (on_series counter (mkKey "" "A") []) ms -> ms <> [] ->
        exact_sum (map metric_value ms) = Some total ->
        x ∈ metricStore_collect
              (metricStore_updates fnv1a_hash ftoa_table emptyStore ms []) [] ->
        float64_exact (metric_value x) = Some q ->
        Qeq q (Qmod64 total)).
Proof.
  intros H.
  assert (sample counter "A" 9007199254740992 (mkTime 0 0 UTC) []
          ∈ metricStore_collect
              (metricStore_updates fnv1a_hash ftoa_table emptyStore
                 [ sample counter "A" 9007199254740992 (mkTime 0 0 UTC) [];
                   sample counter "A" 1 (mkTime 0 0 UTC) [] ] []) []) as Hin.
  { vm_compute. apply list_elem_of_here. }
  pose proof (H [ sample counter "A" 9007199254740992 (mkTime 0 0 UTC) [];
                  sample counter "A" 1 (mkTime 0 0 UTC) [] ]
                _ _ _ ltac:(repeat constructor) ltac:(done) eq_refl Hin eq_refl)
    as Heq.
  vm_compute in Heq. discriminate Heq.
Qed.

(** ** Gauges (C3) *)

(** C3.  After a sequence of gauge updates to one series, collect reports
    for the series the value of the last update, whatever came before; a
    gauge update to one label set leaves the series of the other label
    sets of the same name as they were.  Updating gauge B with 1 then 21 on
    {a=1,b=2} and with 42 on {a=1} yields B=42 for {a=1} and B=21 for
    {a=1,b=2}. *)
Theorem gauge_last_write_wins (hash : labels -> Z) (ftoa : float -> string) :
  (forall (s : metricStore) (key : metricKey) (ls : labels) (ms : list metric)
          (m : metric) (bs : list float),
      Forall (on_series gauge key ls) (ms ++ [m]) ->
      let s' := metricStore_updates hash ftoa s (ms ++ [m]) bs in
      exists e st,
        entries s' !! key = Some e /\ entry_mtype e = gauge
        /\ series hash s' key ls = Some st
        /\ state_value st = metric_value m
        /\ {| metric_mtype := gauge; metric_scope := entry_scope e;
              metric_name := entry_name e; metric_help := entry_help e;
              metric_value := metric_value m;
              metric_time := unixToTime (timeToUnix (metric_time m));
              metric_labels := ls |} ∈ metricStore_collect s' [])
  /\ (forall (s : metricStore) (m : metric) (bs : list float) (e : metricEntry)
             (ls' : labels),
         metric_mtype m = gauge ->
         entries s !! metric_key m = Some e -> entry_mtype e = gauge ->
         ls' <> metric_labels m ->
         series hash (metricStore_update hash ftoa s m bs) (metric_key m) ls'
         = series hash s (metric_key m) ls')
  /\ (forall t1 t2 t3 : Time,
         metricStore_collect
           (metricStore_updates hash ftoa emptyStore
              [ sample gauge "B" 1 t1 [("a", "1"); ("b", "2")];
                sample gauge "B" 42 t2 [("a", "1")];
                sample gauge "B" 21 t3 [("a", "1"); ("b", "2")] ] [])
           []
         ≡ₚ [ sample gauge "B" 42 (unixToTime (timeToUnix t2)) [("a", "1")];
              sample gauge "B" 21 (unixToTime (timeToUnix t3))
                     [("a", "1"); ("b", "2")] ]).
Proof.
  split; [|split].
  - intros s key ls ms m bs Hall s'. subst s'.
    destruct (series_updates hash ftoa s gauge key ls (ms ++ [m]) bs Hall)
      as [(e & He & Hty) Hser]; [by destruct ms|].
    exists e, (metricState_updates ftoa (prior_state hash s gauge key ls)
                 (ms ++ [m]) bs).
    apply Forall_app in Hall as [_ Hm].
    apply Forall_singleton in Hm as (Hm & _).
    split_and!; try done.
    + by apply gauge_updates_value.
    + eapply (series_collected hash _ key ls e); [done..|].
      rewrite state_records_gauge by done.
      rewrite metricState_updates_labels, prior_state_labels.
      rewrite gauge_updates_value by done.
      rewrite metricState_updates_time.
      apply list_elem_of_here.
  - intros s m bs e ls' Hm He Hty Hne.
    apply (series_update_ne_labels hash ftoa s m bs e); congruence.
  - apply example_S2.
Qed.

(** Three updates of one gauge series, the last with the value 21. *)
Lemma gauge_last_write_wins_witness :
  exists e st,
    entries (metricStore_updates fnv1a_hash ftoa_table emptyStore
               ([ sample gauge "B" 1 (mkTime 1500000002 0 UTC) [("a", "1")];
                  sample gauge "B" 42 (mkTime 1500000001 0 UTC) [("a", "1")] ]
                ++ [ sample gauge "B" 21 (mkTime 1500000000 0 UTC) [("a", "1")] ])
               [])
      !! mkKey "" "B" = Some e
    /\ series fnv1a_hash
         (metricStore_updates fnv1a_hash ftoa_table emptyStore
            ([ sample gauge "B" 1 (mkTime 1500000002 0 UTC) [("a", "1")];
               sample gauge "B" 42 (mkTime 1500000001 0 UTC) [("a", "1")] ]
             ++ [ sample gauge "B" 21 (mkTime 1500000000 0 UTC) [("a", "1")] ])
            [])
         (mkKey "" "B") [("a", "1")] = Some st
    /\ state_value st = 21%float.
Proof.
  destruct (proj1 (gauge_last_write_wins fnv1a_hash ftoa_table)
              emptyStore (mkKey "" "B") [("a", "1")]%string
              [ sample gauge "B" 1 (mkTime 1500000002 0 UTC) [("a", "1")];
                sample gauge "B" 42 (mkTime 1500000001 0 UTC) [("a", "1")] ]
              (sample gauge "B" 21 (mkTime 1500000000 0 UTC) [("a", "1")]) []
              ltac:(repeat constructor))
    as (e & st & He & _ & Hs & Hv & _).
  exists e, st. split; [exact He|]. split; [exact Hs|exact Hv].
Defined.

(** ** What a cleanup keeps *)

Lemma store_chain_cleanup s exp key h :
  store_chain (metricStore_cleanup s exp) key h
  = filter (updated_after exp) (store_chain s key h).
Proof.
  unfold store_chain. rewrite metricStore_cleanup_entries, lookup_omap.
  destruct (entries s !! key) as [e|]; simpl; [|done].
  unfold clean_entry. destruct (decide _) as [Hemp|Hne]; simpl.
  - apply (f_equal (fun m => m !! h)) in Hemp.
    rewrite lookup_omap, lookup_empty in Hemp.
    destruct (entry_states e !! h) as [chain|]; simpl in *; [|done].
    unfold keep_fresh in Hemp. simpl in Hemp.
    destruct (decide (filter (updated_after exp) chain = [])) as [Heq|Hneq];
      [by rewrite Heq|done].
  - rewrite lookup_omap.
    destruct (entry_states e !! h) as [chain|]; simpl; [|done].
    unfold keep_fresh. simpl.
    destruct (decide (filter (updated_after exp) chain = [])) as [Heq|Hneq];
      [by rewrite Heq|done].
Qed.

Lemma cleanup_states_fresh s exp key e h chain st :
  entries (metricStore_cleanup s exp) !! key = Some e ->
  entry_states e !! h = Some chain ->
  st ∈ chain ->
  updated_after exp st.
Proof.
  intros He Hc Hst.
  pose proof (store_chain_cleanup s exp key h) as Hf.
  unfold store_chain at 1 in Hf. rewrite He in Hf. simpl in Hf.
  rewrite Hc in Hf. simpl in Hf. rewrite Hf in Hst.
  by apply list_elem_of_filter in Hst as [? _].
Qed.

Lemma cleanup_entry_nonempty s exp key e :
  entries (metricStore_cleanup s exp) !! key = Some e ->
  entry_states e <> ∅
  /\ forall h chain, entry_states e !! h = Some chain -> chain <> [].
Proof.
  intros He. apply metricStore_cleanup_lookup in He as (e0 & He0 & -> & Hne).
  split; [done|]. simpl. intros h chain Hc.
  rewrite lookup_omap in Hc.
  destruct (entry_states e0 !! h) as [c0|]; simpl in Hc; [|done].
  by apply keep_fresh_Some in Hc as [_ ?].
Qed.

Lemma cleanup_entry_removed s exp key e :
  entries s !! key = Some e ->
  (forall h chain st, entry_states e !! h = Some chain -> st ∈ chain ->
                      ~ updated_after exp st) ->
  entries (metricStore_cleanup s exp) !! key = None.
Proof.
  intros He Hold. rewrite metricStore_cleanup_entries, lookup_omap, He. simpl.
  unfold clean_entry. rewrite decide_True; [done|].
  apply map_eq. intros h. rewrite lookup_omap, lookup_empty.
  destruct (entry_states e !! h) as [chain|] eqn:Hc; simpl; [|done].
  unfold keep_fresh. rewrite decide_True; [done|].
  destruct (filter (updated_after exp) chain) as [|st l] eqn:Hf; [done|].
  assert (st ∈ filter (updated_after exp) chain) as Hin
    by (rewrite Hf; apply list_elem_of_here).
  apply list_elem_of_filter in Hin as [Hfresh Hin].
  by destruct (Hold h chain st Hc Hin).
Qed.

Lemma Time_Before_irrefl t u :
  unixSec u = unixSec t -> nanosec u = nanosec t -> Time_Before t u = false.
Proof.
  intros Hs Hn. unfold Time_Before. rewrite Hs, Hn.
  by rewrite !Z.ltb_irrefl, andb_false_r.
Qed.

(** ** Scenario S4: the eviction boundary *)

Lemma clean_entry_single exp e h st :
  clean_entry exp (entry_set_states e {[h := [st]]})
  = if decide (updated_after exp st)
    then Some (entry_set_states e {[h := [st]]})
    else None.
Proof.
  unfold clean_entry. simpl. rewrite omap_singleton. unfold keep_fresh.
  destruct (decide (updated_after exp st)) as [Hf|Hf].
  - rewrite filter_cons_True, filter_nil by done. simpl.
    rewrite decide_False; [done|]. apply insert_non_empty.
  - rewrite filter_cons_False, filter_nil by done. simpl.
    by rewrite decide_True.
Qed.

(** Whole seconds added to an instant away from the ends of the range. *)
Lemma Time_Add_seconds t k :
  Time_wf t -> MinInt64 <= unixSec t + k <= MaxInt64 ->
  Time_Add t (k * Second) = mkTime (unixSec t + k) (nanosec t) (location t).
Proof.
  intros [Hs Hn] Hk. unfold Time_Add, Second.
  rewrite Z.quot_mul, Z.rem_mul by done.
  replace (nanosec t + 0) with (nanosec t) by lia.
  destruct (Z.leb_spec 1000000000 (nanosec t)); [lia|].
  destruct (Z.ltb_spec (nanosec t) 0); [lia|].
  by rewrite wrap64_id.
Qed.

(** The state left by an update stamped [k] seconds off [now] was updated
    after [now] exactly when [k] is positive. *)
Lemma updated_after_seconds ftoa now k st mtype v bs :
  Time_wf now ->
  -9000000000000000 <= unixSec now <= 9000000000000000 ->
  -3600 <= k <= 3600 ->
  updated_after now
    (metricState_update ftoa st mtype v (Time_Add now (k * Second)) bs)
  <-> 0 < k.
Proof.
  intros Hwf Hr Hk. unfold updated_after.
  rewrite metricState_update_time.
  change (atomicTime_load (timeToUnix ?t)) with (atomicTime_load (atomicTime_store 0 t)).
  destruct Hwf as [Hs Hn].
  rewrite Time_Add_seconds by (done || unfold MinInt64, MaxInt64; lia).
  rewrite atomicTime_store_load.
  - rewrite Time_Truncate_Millisecond_wf
      by (split; simpl; [unfold MinInt64, MaxInt64; lia|done]).
    unfold Time_Before, Time_In. simpl.
    assert (0 <= nanosec now mod 1000000) by (apply Z.mod_pos_bound; lia).
    rewrite orb_true_iff, andb_true_iff, !Z.ltb_lt, Z.eqb_eq. lia.
  - split; simpl; [unfold MinInt64, MaxInt64; lia|done].
  - unfold unixMilli, MinInt64, MaxInt64. simpl.
    Z.to_euclidean_division_equations; lia.
Qed.

Lemma not_updated_after_now ftoa now st mtype v bs :
  Time_wf now ->
  -9000000000000000 <= unixSec now <= 9000000000000000 ->
  ~ updated_after now (metricState_update ftoa st mtype v now bs).
Proof.
  intros Hwf Hr. unfold updated_after.
  rewrite metricState_update_time.
  change (atomicTime_load (timeToUnix ?t)) with (atomicTime_load (atomicTime_store 0 t)).
  rewrite atomicTime_store_load.
  - rewrite Time_Truncate_Millisecond_wf by done. destruct Hwf as [Hs Hn].
    unfold Time_Before, Time_In. simpl.
    assert (0 <= nanosec now mod 1000000) by (apply Z.mod_pos_bound; lia).
    rewrite orb_true_iff, andb_true_iff, !Z.ltb_lt, Z.eqb_eq. lia.
  - done.
  - destruct Hwf as [Hs Hn]. unfold unixMilli, MinInt64, MaxInt64.
    Z.to_euclidean_division_equations; lia.
Qed.

Section S4.
Variable hash : labels -> Z.
Variable ftoa : float -> string.

(** The first update under a key stores a new entry with one state. *)
Lemma metricStore_update_fresh s m bs :
  entries s !! metric_key m = None ->
  entries (metricStore_update hash ftoa s m bs)
  = <[metric_key m :=
        entry_set_states
          (newMetricEntry (metric_mtype m) (key_scope (metric_key m))
                          (key_name (metric_key m)) (metric_help m))
          {[hash (metric_labels m) :=
              [metricState_update ftoa (newMetricState (metric_labels m))
                 (metric_mtype m) (metric_value m) (metric_time m) bs]]}]>
      (entries s).
Proof.
  intros Hnone. rewrite metricStore_update_entries. f_equal.
  unfold entry_for. rewrite Hnone. unfold entry_update.
  assert (entry_states
            (newMetricEntry (metric_mtype m) (key_scope (metric_key m))
               (key_name (metric_key m)) (metric_help m)) = ∅) as ->.
  { unfold newMetricEntry. by destruct (decide _). }
  rewrite lookup_empty. simpl. by rewrite insert_empty.
Qed.

Lemma metricStore_collect_one s key e h chain :
  entries s = {[key := e]} -> entry_states e = {[h := chain]} ->
  metricStore_collect s [] = chain_records e chain.
Proof.
  intros Hs He. destruct s as [m]. simpl in Hs. subst m.
  by apply (metricStore_collect_singleton key e h).
Qed.

Lemma example_S4 now :
  Time_wf now ->
  -9000000000000000 <= unixSec now <= 9000000000000000 ->
  metricStore_collect
    (metricStore_cleanup
       (metricStore_updates hash ftoa emptyStore
          [ sample counter "A" 1 (Time_Add now (- Hour)) [];
            sample counter "B" 1 (Time_Add now (- Minute)) [];
            sample counter "C" 1 (Time_Add now (- Second)) [];
            sample counter "D" 1 now [];
            sample counter "E" 1 (Time_Add now Second) [] ] [])
       now)
    []
  = [ sample counter "E" 1
        (Time_In (Time_Truncate_Millisecond (Time_Add now Second)) UTC) [] ].
Proof.
  intros Hwf Hr.
  change (- Hour) with (-3600 * Second).
  change (- Minute) with (-60 * Second).
  change (- Second) with (-1 * Second).
  change (Time_Add now Second) with (Time_Add now (1 * Second)).
  unfold metricStore_updates. cbn [foldl].
  set (upd := metricStore_update hash ftoa).
  assert (forall s name t,
             entries s !! mkKey "" name = None ->
             entries (upd s (sample counter name 1 t []) [])
             = <[mkKey "" name :=
                   entry_set_states (newMetricEntry counter "" name "")
                     {[hash [] :=
                         [metricState_update ftoa (newMetricState []) counter 1
                            t []]]}]> (entries s))
    as Hstep.
  { intros s name t Hnone. subst upd.
    by rewrite metricStore_update_fresh. }
  pose (stE := metricState_update ftoa (newMetricState []) counter 1
                  (Time_Add now (1 * Second)) []).
  rewrite (metricStore_collect_one _ (mkKey "" "E")
             (entry_set_states (newMetricEntry counter "" "E" "")
                               {[hash [] := [stE]]})
             (hash []) [stE]).
  - unfold chain_records. simpl.
    change (atomicTime_load (timeToUnix ?t))
      with (atomicTime_load (atomicTime_store 0 t)).
    rewrite atomicTime_store_load; [done|..].
    + rewrite Time_Add_seconds by (done || unfold MinInt64, MaxInt64; lia).
      destruct Hwf. split; simpl; [unfold MinInt64, MaxInt64; lia|done].
    + rewrite Time_Add_seconds by (done || unfold MinInt64, MaxInt64; lia).
      destruct Hwf. unfold unixMilli, MinInt64, MaxInt64. simpl.
      Z.to_euclidean_division_equations; lia.
  - rewrite metricStore_cleanup_entries.
    rewrite !Hstep; simpl; rewrite ?lookup_insert_ne, ?lookup_empty by done;
      try done.
    rewrite omap_insert_Some with (y :=
      entry_set_states (newMetricEntry counter "" "E" "") {[hash [] := [stE]]}).
    2:{ rewrite clean_entry_single. rewrite decide_True; [done|].
        apply updated_after_seconds; (done || lia). }
    rewrite omap_insert_None.
    2:{ rewrite clean_entry_single. rewrite decide_False; [done|].
        by apply not_updated_after_now. }
    rewrite !omap_insert_None.
    2-4: rewrite clean_entry_single; rewrite decide_False; [done|];
         rewrite updated_after_seconds by (done || lia); lia.
    rewrite omap_empty, !delete_empty. apply insert_empty.
  - reflexivity.
Qed.

End S4.

(** ** Eviction (C4, C5) *)

(** C4.  After [cleanup(exp)] every state left in every entry was last
    updated strictly after [exp]: each chain is the chain it was, reduced
    to the states updated after [exp], so no state updated at or before
    [exp] stays, and a state whose time is [exp] itself is evicted.  With
    one series each stamped now-1h, now-1m, now-1s, now and now+1s, the
    cleanup at [now] leaves the series stamped now+1s only. *)
Theorem cleanup_keeps_updated_after (hash : labels -> Z) (ftoa : float -> string) :
  (forall (s : metricStore) (exp : Time) (key : metricKey) (e : metricEntry)
          (h : Z) (chain : list metricState) (st : metricState),
      entries (metricStore_cleanup s exp) !! key = Some e ->
      entry_states e !! h = Some chain ->
      st ∈ chain ->
      Time_Before exp (atomicTime_load (state_time st)) = true)
  /\ (forall (s : metricStore) (exp : Time) (key : metricKey) (h : Z),
         store_chain (metricStore_cleanup s exp) key h
         = filter (updated_after exp) (store_chain s key h))
  /\ (forall (s : metricStore) (exp : Time) (key : metricKey) (h : Z)
             (st : metricState),
         unixSec (atomicTime_load (state_time st)) = unixSec exp ->
         nanosec (atomicTime_load (state_time st)) = nanosec exp ->
         st ∉ store_chain (metricStore_cleanup s exp) key h)
  /\ (forall now : Time,
         Time_wf now ->
         -9000000000000000 <= unixSec now <= 9000000000000000 ->
         metricStore_collect
           (metricStore_cleanup
              (metricStore_updates hash ftoa emptyStore
                 [ sample counter "A" 1 (Time_Add now (- Hour)) [];
                   sample counter "B" 1 (Time_Add now (- Minute)) [];
                   sample counter "C" 1 (Time_Add now (- Second)) [];
                   sample counter "D" 1 now [];
                   sample counter "E" 1 (Time_Add now Second) [] ] [])
              now)
           []
         = [ sample counter "E" 1
               (Time_In (Time_Truncate_Millisecond (Time_Add now Second)) UTC) [] ]).
Proof.
  split_and!.
  - intros s exp key e h chain st He Hc Hst.
    by apply (cleanup_states_fresh s exp key e h chain st).
  - apply store_chain_cleanup.
  - intros s exp key h st Hs Hn Hin.
    rewrite store_chain_cleanup in Hin.
    apply list_elem_of_filter in Hin as [Hf _]. unfold updated_after in Hf.
    by rewrite Time_Before_irrefl in Hf.
  - apply example_S4.
Qed.

(** The scenario at 2017-07-14 02:40:00.123456789 UTC. *)
Lemma cleanup_keeps_updated_after_witness :
  metricStore_collect
    (metricStore_cleanup
       (metricStore_updates fnv1a_hash ftoa_table emptyStore
          [ sample counter "A" 1 (Time_Add (mkTime 1500000000 123456789 UTC) (- Hour)) [];
            sample counter "B" 1 (Time_Add (mkTime 1500000000 123456789 UTC) (- Minute)) [];
            sample counter "C" 1 (Time_Add (mkTime 1500000000 123456789 UTC) (- Second)) [];
            sample counter "D" 1 (mkTime 1500000000 123456789 UTC) [];
            sample counter "E" 1 (Time_Add (mkTime 1500000000 123456789 UTC) Second) [] ] [])
       (mkTime 1500000000 123456789 UTC))
    []
  = [ sample counter "E" 1
        (Time_In (Time_Truncate_Millisecond
                    (Time_Add (mkTime 1500000000 123456789 UTC) Second)) UTC) [] ].
Proof.
  apply (proj2 (proj2 (proj2 (cleanup_keeps_updated_after fnv1a_hash ftoa_table)))
           (mkTime 1500000000 123456789 UTC)).
  - vm_compute. intuition discriminate.
  - simpl. lia.
Defined.

(** C5.  An entry left in the store by [cleanup(exp)] has a state: its map
    of states is not empty, and neither is any of its chains.  An entry
    whose states were all updated at or before [exp] is removed from the
    store.  The callback that removes the entry is called exactly when the
    cleaned entry has an empty map of states. *)
Theorem cleanup_removes_empty_entries :
  (forall (s : metricStore) (exp : Time) (key : metricKey) (e : metricEntry),
      entries (metricStore_cleanup s exp) !! key = Some e ->
      size (entry_states e) <> 0%nat
      /\ forall h chain, entry_states e !! h = Some chain -> chain <> [])
  /\ (forall (s : metricStore) (exp : Time) (key : metricKey) (e : metricEntry),
         entries s !! key = Some e ->
         (forall h chain st, entry_states e !! h = Some chain -> st ∈ chain ->
                             ~ updated_after exp st) ->
         entries (metricStore_cleanup s exp) !! key = None)
  /\ (forall (e : metricEntry) (exp : Time),
         (metricEntry_cleanup e exp).2 = true
         <-> entry_states (metricEntry_cleanup e exp).1 = ∅).
Proof.
  split_and!.
  - intros s exp key e He.
    destruct (cleanup_entry_nonempty s exp key e He) as [Hne Hchains].
    split; [|done]. by apply map_size_non_empty_iff.
  - apply cleanup_entry_removed.
  - intros e exp.
    rewrite metricEntry_cleanup_empty, metricEntry_cleanup_states.
    apply bool_decide_eq_true.
Qed.

(** A store whose only entry holds one state, updated at the epoch: the
    cleanup one second later removes the entry. *)
Lemma cleanup_removes_empty_entries_witness :
  entries
    (metricStore_cleanup
       {| entries :=
            {[mkKey "" "A" :=
                entry_set_states (newMetricEntry counter "" "A" "")
                  {[0 := [mkState [] [] 1%float 0%float 0%float 0]]} ]} |}
       (mkTime 1 0 UTC))
    !! mkKey "" "A" = None.
Proof.
  apply (proj1 (proj2 cleanup_removes_empty_entries) _ _ _
           (entry_set_states (newMetricEntry counter "" "A" "")
              {[0 := [mkState [] [] 1%float 0%float 0%float 0]]})).
  - apply lookup_singleton_eq.
  - intros h chain st Hc Hst. simpl in Hc.
    apply lookup_singleton_Some in Hc as [_ <-].
    apply list_elem_of_singleton in Hst as ->.
    vm_compute. discriminate.
Defined.

(** ** The last-update clock (C7) *)

(** The instant an update leaves in the cell of its state. *)
Lemma metricState_update_instant ftoa st mtype v t bs :
  Time_wf t ->
  MinInt64 <= unixMilli t <= MaxInt64 ->
  atomicTime_load (state_time (metricState_update ftoa st mtype v t bs))
  = Time_In (Time_Truncate_Millisecond t) UTC.
Proof.
  intros Hwf Hfit. rewrite metricState_update_time.
  apply (atomicTime_store_load 0 t Hwf Hfit).
Qed.

(** C7 (as amended).  An update of any type, by an event whose timestamp
    counts a number of milliseconds since the epoch that fits the 64-bit
    cell, overwrites the last-update time of the state with that timestamp,
    truncated to the millisecond and in UTC, whatever the time was: when
    the timestamp is older than the instant the state held, the clock of
    the series goes back.  The cleanup reads the same clock: right after
    such an update the state is kept by [cleanup(exp)] exactly when [exp]
    is before the truncated timestamp. *)
Theorem update_overwrites_time (hash : labels -> Z) (ftoa : float -> string) :
  (forall (st : metricState) (mtype : metricType) (v : float) (t : Time)
          (bs : list float),
      Time_wf t ->
      MinInt64 <= unixMilli t <= MaxInt64 ->
      atomicTime_load (state_time (metricState_update ftoa st mtype v t bs))
      = Time_In (Time_Truncate_Millisecond t) UTC)
  /\ (forall (st : metricState) (mtype : metricType) (v : float) (t : Time)
             (bs : list float),
         Time_wf t ->
         MinInt64 <= unixMilli t <= MaxInt64 ->
         MinInt64 <= state_time st <= MaxInt64 ->
         Time_Before t (atomicTime_load (state_time st)) = true ->
         Time_Before
           (atomicTime_load (state_time (metricState_update ftoa st mtype v t bs)))
           (atomicTime_load (state_time st)) = true)
  /\ (forall (s : metricStore) (m : metric) (bs : list float),
         Time_wf (metric_time m) ->
         MinInt64 <= unixMilli (metric_time m) <= MaxInt64 ->
         exists st,
           series hash (metricStore_update hash ftoa s m bs)
                  (metric_key m) (metric_labels m) = Some st
           /\ atomicTime_load (state_time st)
              = Time_In (Time_Truncate_Millisecond (metric_time m)) UTC)
  /\ (forall (exp : Time) (st : metricState) (mtype : metricType) (v : float)
             (t : Time) (bs : list float),
         Time_wf t ->
         MinInt64 <= unixMilli t <= MaxInt64 ->
         cleanup_chain exp [metricState_update ftoa st mtype v t bs]
         = if Time_Before exp (Time_In (Time_Truncate_Millisecond t) UTC)
           then [metricState_update ftoa st mtype v t bs]
           else []).
Proof.
  split_and!.
  - intros. by apply metricState_update_instant.
  - intros st mtype v t bs Hwf Hfit Hcell Hold.
    rewrite metricState_update_instant by done.
    rewrite Time_Truncate_Millisecond_wf by done.
    unfold atomicTime_load in *. rewrite unixToTime_floor in * by done.
    destruct Hwf as [Hs Hn].
    unfold Time_Before, Time_In in *. simpl in *.
    apply orb_true_iff in Hold. apply orb_true_iff.
    rewrite andb_true_iff, Z.ltb_lt, Z.eqb_eq, Z.ltb_lt in *.
    assert (0 <= nanosec t mod 1000000) by (apply Z.mod_pos_bound; lia).
    lia.
  - intros s m bs Hwf Hfit. eexists. split; [apply series_update_eq|].
    by apply metricState_update_instant.
  - intros exp st mtype v t bs Hwf Hfit. rewrite cleanup_chain_filter.
    pose proof (metricState_update_instant ftoa st mtype v t bs Hwf Hfit) as Hi.
    destruct (Time_Before exp (Time_In (Time_Truncate_Millisecond t) UTC)) eqn:Hb.
    + rewrite filter_cons_True; [done|]. unfold updated_after. by rewrite Hi.
    + rewrite filter_cons_False; [done|]. unfold updated_after. by rewrite Hi, Hb.
Qed.

(** A state last updated at 2 s is updated with an event stamped
    1.0005 s: its clock goes back to 1 s. *)
Lemma update_overwrites_time_witness :
  Time_Before
    (atomicTime_load
       (state_time
          (metricState_update ftoa_table
             (mkState [] [] 5%float 0%float 0%float 2000)
             counter 1%float (mkTime 1 500000 UTC) [])))
    (atomicTime_load (state_time (mkState [] [] 5%float 0%float 0%float 2000)))
  = true.
Proof.
  apply (proj1 (proj2 (update_overwrites_time fnv1a_hash ftoa_table))
           (mkState [] [] 5%float 0%float 0%float 2000) counter 1%float
           (mkTime 1 500000 UTC) []
           ltac:(vm_compute; intuition discriminate)
           ltac:(vm_compute; intuition discriminate)
           ltac:(vm_compute; intuition discriminate)
           eq_refl).
Defined.

(** C7 fails as stated: an event stamped 9223372036854776 seconds before
    the epoch is older than a state last updated in 2017, its millisecond
    count wraps around in the cell, and the update moves the clock of the
    state forward, to an instant some 292 million years ahead. *)
Lemma update_time_wraps_forward :
  ~ (forall (st : metricState) (mtype : metricType) (v : float) (t : Time)
            (bs : list float),
       Time_wf t ->
       MinInt64 <= state_time st <= MaxInt64 ->
       Time_Before t (atomicTime_load (state_time st)) = true ->
       Time_Before
         (atomicTime_load
            (state_time (metricState_update ftoa_table st mtype v t bs)))
         (atomicTime_load (state_time st)) = true).
Proof.
  intros H.
  specialize (H (mkState [] [] 5%float 0%float 0%float 1500000000000)
                counter 1%float (mkTime (-9223372036854776) 0 UTC) []
                ltac:(vm_compute; intuition discriminate)
                ltac:(vm_compute; intuition discriminate)
                eq_refl).
  vm_compute in H. discriminate H.
Qed.

(** ** Entries and types (C6) *)

(** C6.  For a key present in the store, [store.lookup] with a type other
    than the type of the stored entry replaces the entry by a new one of
    the new type, without states; with the same type it returns the stored
    entry and leaves the store as it is.  So an update of another type
    leaves under the key one state only, the one it creates, and an update
    of the same type keeps the other series of the entry; the entries
    under other keys are never touched. *)
Theorem lookup_replaces_on_kind_change (hash : labels -> Z) (ftoa : float -> string) :
  (forall (s : metricStore) (mtype : metricType) (key : metricKey) (help : string)
          (e : metricEntry),
      entries s !! key = Some e -> entry_mtype e <> mtype ->
      metricStore_lookup s mtype key help
      = (newMetricEntry mtype (key_scope key) (key_name key) help,
         {| entries :=
              <[key := newMetricEntry mtype (key_scope key) (key_name key) help]>
                (entries s) |})
      /\ entry_states (newMetricEntry mtype (key_scope key) (key_name key) help) = ∅
      /\ entry_mtype (newMetricEntry mtype (key_scope key) (key_name key) help) = mtype)
  /\ (forall (s : metricStore) (mtype : metricType) (key : metricKey) (help : string)
             (e : metricEntry),
         entries s !! key = Some e -> entry_mtype e = mtype ->
         metricStore_lookup s mtype key help = (e, s))
  /\ (forall (s : metricStore) (m : metric) (bs : list float) (e : metricEntry),
         entries s !! metric_key m = Some e -> entry_mtype e <> metric_mtype m ->
         exists e',
           entries (metricStore_update hash ftoa s m bs) !! metric_key m = Some e'
           /\ entry_mtype e' = metric_mtype m
           /\ entry_states e'
              = {[hash (metric_labels m) :=
                    [metricState_update ftoa (newMetricState (metric_labels m))
                       (metric_mtype m) (metric_value m) (metric_time m) bs]]})
  /\ (forall (s : metricStore) (m : metric) (bs : list float) (e : metricEntry)
             (ls : labels),
         entries s !! metric_key m = Some e -> entry_mtype e = metric_mtype m ->
         ls <> metric_labels m ->
         series hash (metricStore_update hash ftoa s m bs) (metric_key m) ls
         = series hash s (metric_key m) ls)
  /\ (forall (s : metricStore) (m : metric) (bs : list float) (key : metricKey),
         key <> metric_key m ->
         entries (metricStore_update hash ftoa s m bs) !! key = entries s !! key).
Proof.
  split_and!.
  - intros s mtype key help e He Hne. split_and!.
    + unfold metricStore_lookup, metricStore_lookup_locked. rewrite He.
      by rewrite !decide_True.
    + unfold newMetricEntry. by destruct (decide _).
    + unfold newMetricEntry. by destruct (decide _).
  - intros s mtype key help e He Hty.
    unfold metricStore_lookup. rewrite He.
    by rewrite decide_False by (by intros ?).
  - intros s m bs e He Hne. eexists. split; [apply metricStore_update_lookup|].
    split; [simpl; apply entry_for_mtype|].
    unfold entry_for. rewrite He, decide_False by done.
    unfold entry_update. cbn [entry_states entry_set_states].
    assert (entry_states
              (newMetricEntry (metric_mtype m) (key_scope (metric_key m))
                 (key_name (metric_key m)) (metric_help m)) = ∅) as ->.
    { unfold newMetricEntry. by destruct (decide _). }
    rewrite lookup_empty. simpl. by rewrite insert_empty.
  - intros s m bs e ls He Hty Hne. by apply (series_update_ne_labels hash ftoa s m bs e).
  - intros s m bs key Hne. by apply metricStore_update_lookup_ne.
Qed.

(** A store that holds gauge B is asked for counter B. *)
Lemma lookup_replaces_on_kind_change_witness :
  metricStore_lookup
    {| entries :=
         {[mkKey "" "B" :=
             entry_set_states (newMetricEntry gauge "" "B" "")
               {[0 := [mkState [] [] 42%float 0%float 0%float 0]]} ]} |}
    counter (mkKey "" "B") ""
  = (newMetricEntry counter "" "B" "",
     {| entries :=
          <[mkKey "" "B" := newMetricEntry counter "" "B" ""]>
            {[mkKey "" "B" :=
                entry_set_states (newMetricEntry gauge "" "B" "")
                  {[0 := [mkState [] [] 42%float 0%float 0%float 0]]} ]} |}).
Proof.
  apply (proj1 (proj1 (lookup_replaces_on_kind_change fnv1a_hash ftoa_table)
                  {| entries :=
                       {[mkKey "" "B" :=
                           entry_set_states (newMetricEntry gauge "" "B" "")
                             {[0 := [mkState [] [] 42%float 0%float 0%float 0]]} ]} |}
                  counter (mkKey "" "B") ""%string
                  (entry_set_states (newMetricEntry gauge "" "B" "")
                     {[0 := [mkState [] [] 42%float 0%float 0%float 0]]})
                  (lookup_singleton_eq _ _) ltac:(discriminate))).
Defined.

(** ** Root names *)

Lemma LastIndexByte_from_absent s c i last :
  contains_byte s c = false -> LastIndexByte_from s c i last = last.
Proof.
  revert i last. induction s as [|x s IH]; intros i last; simpl; [done|].
  intros [Hx Hs]%orb_false_iff. rewrite Hx. by apply IH.
Qed.

Lemma LastIndexByte_from_bounds s c i last :
  contains_byte s c = true ->
  i <= LastIndexByte_from s c i last < i + Z.of_nat (String.length s).
Proof.
  revert i last. induction s as [|x s IH]; intros i last; simpl; [done|].
  destruct (contains_byte s c) eqn:Hs.
  - intros _. specialize (IH (i + 1) (if Ascii.eqb x c then i else last) eq_refl).
    lia.
  - rewrite orb_false_r. intros ->.
    rewrite LastIndexByte_from_absent by done. lia.
Qed.

Lemma LastIndexByte_from_app pre suf c i last :
  contains_byte suf c = false ->
  LastIndexByte_from (pre +:+ String c suf) c i last
  = i + Z.of_nat (String.length pre).
Proof.
  intros Hsuf. revert i last.
  induction pre as [|x pre IH]; intros i last; simpl.
  - rewrite Ascii.eqb_refl, LastIndexByte_from_absent by done. lia.
  - rewrite IH. lia.
Qed.

Lemma substring_app_prefix pre rest :
  substring 0 (String.length pre) (pre +:+ rest) = pre.
Proof.
  induction pre as [|x pre IH]; simpl.
  - by destruct rest.
  - by rewrite IH.
Qed.

Lemma length_append_le pre rest :
  (String.length pre <= String.length (pre +:+ rest))%nat.
Proof. induction pre as [|x pre IH]; simpl; lia. Qed.

(** On a histogram record the suffix after the last underscore is cut. *)
Lemma rootName_strips m pre suf :
  metric_mtype m = histogram ->
  metric_name m = pre +:+ String "_" suf ->
  contains_byte suf "_" = false ->
  rootName m = Some pre.
Proof.
  intros Hty Hname Hsuf. unfold rootName, LastIndexByte, slice_to.
  rewrite decide_True by done. rewrite Hname.
  rewrite LastIndexByte_from_app by done. rewrite Z.add_0_l.
  pose proof (length_append_le pre (String "_" suf)).
  destruct (Z.ltb_spec (Z.of_nat (String.length pre)) 0); [lia|].
  destruct (Z.ltb_spec (Z.of_nat (String.length (pre +:+ String "_" suf)))
                       (Z.of_nat (String.length pre))); [lia|].
  simpl. by rewrite Nat2Z.id, substring_app_prefix.
Qed.

(** On a histogram record [rootName] panics exactly when the name has no
    underscore. *)
Lemma rootName_panics m :
  metric_mtype m = histogram ->
  rootName m = None <-> contains_byte (metric_name m) "_" = false.
Proof.
  intros Hty. unfold rootName, LastIndexByte, slice_to.
  rewrite decide_True by done.
  destruct (contains_byte (metric_name m) "_") eqn:Hc.
  - pose proof (LastIndexByte_from_bounds _ _ 0 (-1) Hc) as Hb.
    destruct (Z.ltb_spec (LastIndexByte_from (metric_name m) "_" 0 (-1)) 0); [lia|].
    destruct (Z.ltb_spec (Z.of_nat (String.length (metric_name m)))
                (LastIndexByte_from (metric_name m) "_" 0 (-1))); [lia|].
    simpl. split; discriminate.
  - by rewrite LastIndexByte_from_absent.
Qed.

Section Reachable.
Variable hash : labels -> Z.
Variable ftoa : float -> string.

Lemma newMetricEntry_named mtype key help :
  entry_named key (newMetricEntry mtype (key_scope key) (key_name key) help).
Proof.
  unfold entry_named, newMetricEntry.
  destruct (decide (mtype = histogram)) as [->|Hne]; simpl; [done|].
  split; [done|]. by intros ?.
Qed.

Lemma reachable_named s :
  reachable hash ftoa s ->
  forall key e, entries s !! key = Some e -> entry_named key e.
Proof.
  induction 1 as [|s m bs _ IH|s exp _ IH]; intros key e He.
  - simpl in He. by rewrite lookup_empty in He.
  - destruct (decide (key = metric_key m)) as [->|Hne].
    + rewrite metricStore_update_lookup in He. injection He as <-.
      unfold entry_for.
      destruct (entries s !! metric_key m) as [e0|] eqn:He0.
      * destruct (decide _); [by apply (IH _ e0)|apply newMetricEntry_named].
      * apply newMetricEntry_named.
    + rewrite metricStore_update_lookup_ne in He by done. by apply IH.
  - apply metricStore_cleanup_lookup in He as (e0 & He0 & -> & _).
    by apply (IH _ e0).
Qed.

Lemma state_records_mtype e st x :
  x ∈ state_records e st -> metric_mtype x = entry_mtype e.
Proof.
  unfold state_records, metricState_collect.
  destruct (entry_mtype e) eqn:Hty; simpl; rewrite ?foldl_snoc_map.
  - by intros ?%elem_of_nil.
  - by intros ->%list_elem_of_singleton.
  - by intros ->%list_elem_of_singleton.
  - rewrite app_nil_l, elem_of_app, list_elem_of_fmap.
    intros [(b & -> & _)|[->|[->|[]%elem_of_nil]%elem_of_cons]%elem_of_cons]; done.
  - by intros ?%elem_of_nil.
Qed.

Lemma state_records_histogram_name e st x :
  entry_mtype e = histogram -> x ∈ state_records e st ->
  metric_name x = entry_bucket e \/ metric_name x = entry_sum e
  \/ metric_name x = entry_count e.
Proof.
  intros Hty. unfold state_records, metricState_collect. rewrite Hty.
  simpl. rewrite foldl_snoc_map, app_nil_l, elem_of_app, list_elem_of_fmap.
  intros [(b & -> & _)|[->|[->|[]%elem_of_nil]%elem_of_cons]%elem_of_cons]; auto.
Qed.

(** Every histogram record collected from a reachable store carries a
    rendered name, and its root name is the name of the metric. *)
Lemma collected_rootName s x :
  reachable hash ftoa s ->
  x ∈ metricStore_collect s [] ->
  metric_mtype x = histogram ->
  exists key,
    is_Some (entries s !! key)
    /\ (metric_name x = key_name key +:+ "_bucket"
        \/ metric_name x = key_name key +:+ "_sum"
        \/ metric_name x = key_name key +:+ "_count")
    /\ rootName x = Some (key_name key).
Proof.
  intros Hreach Hx Hty.
  apply elem_of_metricStore_collect in Hx
    as (key & e & h & chain & st & He & Hc & Hst & Hx).
  pose proof (state_records_mtype e st x Hx) as Hm. rewrite Hty in Hm.
  destruct (reachable_named s Hreach key e He) as [_ Hnames].
  destruct (Hnames (eq_sym Hm)) as (Hb & Hs & Hcn).
  exists key. split; [by eexists|].
  destruct (state_records_histogram_name e st x (eq_sym Hm) Hx) as [Hn|[Hn|Hn]].
  - rewrite Hb in Hn. split; [by left|].
    by apply (rootName_strips x (key_name key) "bucket").
  - rewrite Hs in Hn. split; [by right; left|].
    by apply (rootName_strips x (key_name key) "sum").
  - rewrite Hcn in Hn. split; [by right; right|].
    by apply (rootName_strips x (key_name key) "count").
Qed.

Lemma collected_rootName_safe s x :
  reachable hash ftoa s ->
  x ∈ metricStore_collect s [] ->
  is_Some (rootName x).
Proof.
  intros Hreach Hx.
  destruct (decide (metric_mtype x = histogram)) as [Hty|Hty].
  - destruct (collected_rootName s x Hreach Hx Hty) as (key & _ & _ & ->).
    by eexists.
  - unfold rootName. rewrite decide_False by done. by eexists.
Qed.

End Reachable.

(** ** Root names of the collected records (C10) *)

Lemma LastIndexByte_negative s c :
  LastIndexByte s c < 0 <-> contains_byte s c = false.
Proof.
  unfold LastIndexByte. destruct (contains_byte s c) eqn:Hc.
  - pose proof (LastIndexByte_from_bounds s c 0 (-1) Hc). split; [lia|done].
  - rewrite LastIndexByte_from_absent by done. split; [done|lia].
Qed.

(** C10.  [rootName] returns the name of a record that is not a histogram
    record as it is; on a histogram record it cuts the name at its last
    underscore; it slices with a negative index (and panics) exactly on the
    histogram records whose name has no underscore.  Every histogram record
    that collect yields from a store built by updates and cleanups carries
    one of the names rendered by [newMetricEntry], [<name>_bucket],
    [<name>_sum] or [<name>_count], so [rootName] is safe on it and returns
    [<name>]. *)
Theorem rootName_safe_on_collected (hash : labels -> Z) (ftoa : float -> string) :
  (forall m : metric,
      metric_mtype m <> histogram -> rootName m = Some (metric_name m))
  /\ (forall (m : metric) (pre suf : string),
         metric_mtype m = histogram ->
         metric_name m = pre +:+ String "_" suf ->
         contains_byte suf "_" = false ->
         rootName m = Some pre)
  /\ (forall m : metric,
         metric_mtype m = histogram ->
         (rootName m = None <-> LastIndexByte (metric_name m) "_" < 0)
         /\ (rootName m = None <-> contains_byte (metric_name m) "_" = false))
  /\ (forall (s : metricStore) (x : metric),
         reachable hash ftoa s ->
         x ∈ metricStore_collect s [] ->
         metric_mtype x = histogram ->
         exists key,
           is_Some (entries s !! key)
           /\ (metric_name x = key_name key +:+ "_bucket"
               \/ metric_name x = key_name key +:+ "_sum"
               \/ metric_name x = key_name key +:+ "_count")
           /\ rootName x = Some (key_name key)).
Proof.
  split_and!.
  - intros m Hne. unfold rootName. by rewrite decide_False.
  - apply rootName_strips.
  - intros m Hty. split; [|by apply rootName_panics].
    rewrite LastIndexByte_negative. by apply rootName_panics.
  - apply collected_rootName.
Qed.

(** The record of the bucket le=0.5 collected after one update of
    histogram C. *)
Lemma rootName_safe_on_collected_witness :
  exists key,
    is_Some (entries (metricStore_update fnv1a_hash ftoa_table emptyStore
                        (sample histogram "C" 0.1 (mkTime 0 0 UTC) [])
                        [0.25; 0.5]%float) !! key)
    /\ (metric_name (sample histogram "C_bucket" 0 (mkTime 0 0 UTC) [("le", "0.5")])
        = key_name key +:+ "_bucket"
        \/ metric_name (sample histogram "C_bucket" 0 (mkTime 0 0 UTC) [("le", "0.5")])
           = key_name key +:+ "_sum"
        \/ metric_name (sample histogram "C_bucket" 0 (mkTime 0 0 UTC) [("le", "0.5")])
           = key_name key +:+ "_count")
    /\ rootName (sample histogram "C_bucket" 0 (mkTime 0 0 UTC) [("le", "0.5")])
       = Some (key_name key).
Proof.
  apply (proj2 (proj2 (proj2 (rootName_safe_on_collected fnv1a_hash ftoa_table)))
           (metricStore_update fnv1a_hash ftoa_table emptyStore
              (sample histogram "C" 0.1 (mkTime 0 0 UTC) []) [0.25; 0.5]%float)
           (sample histogram "C_bucket" 0 (mkTime 0 0 UTC) [("le", "0.5")])).
  - apply reachable_update, reachable_empty.
  - vm_compute. apply list_elem_of_further, list_elem_of_here.
  - reflexivity.
Defined.

(** ** The handler *)

(** Trimming stops only when no space is left at the end worked on: the
    rounds allowed are enough. *)
Lemma space_width_pos pats s n :
  Forall (fun p => p <> []) pats -> space_width pats s = Some n -> (0 < n)%nat.
Proof.
  intros Hpats. unfold space_width. destruct s as [|c s]; [done|].
  destruct (asciiSpace c); [intros [= <-]; lia|].
  destruct (List.find _ pats) as [p|] eqn:Hfind; simpl; [|done].
  intros [= <-]. apply find_some in Hfind as [Hin _].
  apply list_elem_of_In in Hin.
  rewrite Forall_forall in Hpats. specialize (Hpats p Hin).
  destruct p; [done|simpl; lia].
Qed.

Lemma trim_spaces_done pats fuel s :
  Forall (fun p => p <> []) pats -> (length s <= fuel)%nat ->
  space_width pats (trim_spaces fuel pats s) = None.
Proof.
  intros Hpats. revert s. induction fuel as [|fuel IH]; intros s Hlen; simpl.
  - by destruct s; [|simpl in Hlen; lia].
  - destruct (space_width pats s) as [n|] eqn:Hw; [|done].
    apply IH. pose proof (space_width_pos pats s n Hpats Hw).
    rewrite length_drop. lia.
Qed.

Lemma unicodeSpaces_nonempty : Forall (fun p => p <> []) unicodeSpaces.
Proof. unfold unicodeSpaces. simpl. repeat constructor; discriminate. Qed.

Lemma TrimLeftSpace_done s : space_width unicodeSpaces (TrimLeftSpace s) = None.
Proof. apply trim_spaces_done; [apply unicodeSpaces_nonempty|done]. Qed.

Lemma TrimRightSpace_done s :
  space_width (map (@rev ascii) unicodeSpaces) (rev (TrimRightSpace s)) = None.
Proof.
  unfold TrimRightSpace. rewrite rev_involutive. apply trim_spaces_done.
  - unfold unicodeSpaces. simpl. repeat constructor; discriminate.
  - by rewrite length_rev.
Qed.

Lemma acceptEncoding_loop_spec codings check :
  acceptEncoding_loop codings check = true <->
  exists tok, tok ∈ codings /\ HasPrefix (TrimSpace tok) check = true.
Proof.
  induction codings as [|coding rest IH]; simpl.
  - split; [done|]. by intros (tok & ?%elem_of_nil & _).
  - destruct (HasPrefix (TrimSpace coding) check) eqn:Hp.
    + split; [|done]. intros _. exists coding. split; [apply list_elem_of_here|done].
    + rewrite IH. split.
      * intros (tok & Hin & Htok). exists tok. split; [by apply list_elem_of_further|done].
      * intros (tok & [->|Hin]%elem_of_cons & Htok); [congruence|by exists tok].
Qed.

Section Serve.
Variable sortMetrics : list metric -> list metric.
Variable appendMetric : string -> metric -> string.

Lemma write_metrics_total i lastName ms :
  Forall (fun m => is_Some (rootName m)) ms ->
  is_Some (write_metrics appendMetric i lastName ms).
Proof.
  intros Hall. revert i lastName.
  induction Hall as [|m ms [name Hname] _ IH]; intros i lastName; simpl.
  - by eexists.
  - rewrite Hname.
    destruct (IH (S i) name) as [chunks ->].
    destruct (String.eqb name lastName); [by eexists|].
    destruct (negb (i =? 0)%nat); by eexists.
Qed.

Lemma Handler_ServeHTTP_get h req res :
  req_Method req = "GET"%string \/ req_Method req = "HEAD"%string ->
  Handler_ServeHTTP sortMetrics appendMetric h req = Some res ->
  res_status res = StatusOK
  /\ res_gzip res = acceptEncoding (Header_Get (req_Header req) "Accept-Encoding") "gzip"
  /\ res_header res !! "Content-Encoding"%string
     = (if acceptEncoding (Header_Get (req_Header req) "Accept-Encoding") "gzip"
        then Some ["gzip"%string] else None)
  /\ res_header res !! "Content-Type"%string = Some ["text/plain; version=0.0.4"%string].
Proof.
  intros Hm. unfold Handler_ServeHTTP.
  assert (negb (String.eqb (req_Method req) "GET" || String.eqb (req_Method req) "HEAD")
          = false) as ->.
  { destruct Hm as [-> | ->]; reflexivity. }
  destruct (acceptEncoding _ "gzip");
    destruct (write_metrics _ _ _ _) as [chunks|]; simpl; try done;
    intros [= <-]; simpl; unfold Header_Set; split_and!; try done.
Qed.

Lemma Handler_ServeHTTP_other h req :
  req_Method req <> "GET"%string -> req_Method req <> "HEAD"%string ->
  Handler_ServeHTTP sortMetrics appendMetric h req
  = Some {| res_status := StatusMethodNotAllowed; res_header := ∅;
            res_gzip := false; res_body := [] |}.
Proof.
  intros Hg Hh. unfold Handler_ServeHTTP.
  apply String.eqb_neq in Hg, Hh. by rewrite Hg, Hh.
Qed.

Lemma Handler_ServeHTTP_total hash ftoa h req :
  reachable hash ftoa (metrics h) ->
  (forall l, sortMetrics l ≡ₚ l) ->
  is_Some (Handler_ServeHTTP sortMetrics appendMetric h req).
Proof.
  intros Hreach Hsort. unfold Handler_ServeHTTP.
  destruct (negb _); [by eexists|].
  destruct (write_metrics_total 0 EmptyString
              (sortMetrics (metricStore_collect (metrics h) []))) as [chunks ->].
  - apply Forall_forall. intros x Hx. rewrite Hsort in Hx.
    by apply (collected_rootName_safe hash ftoa (metrics h)).
  - destruct (acceptEncoding _ _); by eexists.
Qed.

End Serve.

(** ** Content negotiation (C8) *)

Lemma insert_sorted_perm m l : insert_sorted m l ≡ₚ m :: l.
Proof.
  induction l as [|x l IH]; simpl; [done|].
  destruct (byNameAndLabels_Less x m); [|done].
  rewrite IH. apply Permutation_swap.
Qed.

Lemma insertion_sort_perm l : insertion_sort l ≡ₚ l.
Proof.
  unfold insertion_sort. induction l as [|m l IH]; simpl; [done|].
  by rewrite insert_sorted_perm, IH.
Qed.

(** C8 (as amended).  For a GET or HEAD request the response has
    [Content-Encoding: gzip] and a body written through a gzip writer
    exactly when the [Accept-Encoding] header of the request, split at the
    commas, has a token that starts with "gzip" once the white space
    around it is trimmed; otherwise it has no [Content-Encoding] and a
    plain body.  A request of another method gets the status 405, no
    header and no body, whatever it accepts.  On a store built by updates
    and cleanups the handler returns.  The header value
    "identity, gzip; q=0.5" enables gzip, an absent or empty header does
    not. *)
Theorem gzip_negotiation (sortMetrics : list metric -> list metric)
    (appendMetric : string -> metric -> string) :
  (forall accept check : string,
      acceptEncoding accept check = true <->
      exists tok, tok ∈ Split accept "," /\ HasPrefix (TrimSpace tok) check = true)
  /\ (forall (h : Handler) (req : Request) (res : Response),
         req_Method req = "GET"%string \/ req_Method req = "HEAD"%string ->
         Handler_ServeHTTP sortMetrics appendMetric h req = Some res ->
         res_status res = StatusOK
         /\ res_gzip res
            = acceptEncoding (Header_Get (req_Header req) "Accept-Encoding") "gzip"
         /\ res_header res !! "Content-Encoding"%string
            = (if acceptEncoding (Header_Get (req_Header req) "Accept-Encoding") "gzip"
               then Some ["gzip"%string] else None)
         /\ res_header res !! "Content-Type"%string
            = Some ["text/plain; version=0.0.4"%string])
  /\ (forall (h : Handler) (req : Request),
         req_Method req <> "GET"%string -> req_Method req <> "HEAD"%string ->
         Handler_ServeHTTP sortMetrics appendMetric h req
         = Some {| res_status := StatusMethodNotAllowed; res_header := ∅;
                   res_gzip := false; res_body := [] |})
  /\ (forall (hash : labels -> Z) (ftoa : float -> string) (h : Handler)
             (req : Request),
         reachable hash ftoa (metrics h) ->
         (forall l, sortMetrics l ≡ₚ l) ->
         is_Some (Handler_ServeHTTP sortMetrics appendMetric h req))
  /\ acceptEncoding "identity, gzip; q=0.5" "gzip" = true
  /\ acceptEncoding "" "gzip" = false
  /\ (forall hd : gmap string (list string),
         hd !! "Accept-Encoding"%string = None ->
         Header_Get hd "Accept-Encoding" = ""%string).
Proof.
  split_and!.
  - intros accept check. apply acceptEncoding_loop_spec.
  - apply Handler_ServeHTTP_get.
  - apply Handler_ServeHTTP_other.
  - apply Handler_ServeHTTP_total.
  - reflexivity.
  - reflexivity.
  - intros hd Hnone. unfold Header_Get. by rewrite Hnone.
Qed.

(** The request of scenario S6 on a handler whose store is empty. *)
Lemma gzip_negotiation_witness :
  exists res,
    Handler_ServeHTTP insertion_sort appendName
      (mkHandler "" 0 false 0 emptyStore)
      (mkRequest "GET" {["Accept-Encoding"%string := ["identity, gzip; q=0.5"%string]]})
    = Some res
    /\ res_gzip res = true
    /\ res_header res !! "Content-Encoding"%string = Some ["gzip"%string].
Proof.
  pose (req := mkRequest "GET"
                 {["Accept-Encoding"%string := ["identity, gzip; q=0.5"%string]]}).
  pose (res := {| res_status := StatusOK;
                  res_header :=
                    Header_Set (Header_Set ∅ "Content-Type" "text/plain; version=0.0.4")
                               "Content-Encoding" "gzip";
                  res_gzip := true; res_body := [] |}).
  assert (Handler_ServeHTTP insertion_sort appendName
            (mkHandler "" 0 false 0 emptyStore) req = Some res) as Hserve
    by (vm_compute; reflexivity).
  exists res. split; [exact Hserve|].
  destruct (proj1 (proj2 (gzip_negotiation insertion_sort appendName))
              (mkHandler "" 0 false 0 emptyStore) req res
              (or_introl eq_refl) Hserve)
    as (_ & Hgz & Hce & _).
  split; [exact Hgz|exact Hce].
Defined.

(** C8 fails as stated for the requests the handler refuses: a POST that
    accepts gzip is answered 405 without [Content-Encoding]. *)
Lemma gzip_not_for_post :
  ~ (forall (req : Request) (res : Response),
        Handler_ServeHTTP insertion_sort appendName
          (mkHandler "" 0 false 0 emptyStore) req = Some res ->
        (res_header res !! "Content-Encoding"%string = Some ["gzip"%string]
         /\ res_gzip res = true)
        <-> acceptEncoding (Header_Get (req_Header req) "Accept-Encoding") "gzip"
            = true).
Proof.
  intros H.
  specialize (H (mkRequest "POST" {["Accept-Encoding"%string := ["gzip"%string]]})
                {| res_status := StatusMethodNotAllowed; res_header := ∅;
                   res_gzip := false; res_body := [] |}
                eq_refl).
  destruct H as [_ H]. destruct (H eq_refl) as [_ Hgz]. discriminate Hgz.
Qed.

(** ** More on the timestamp cell *)

(** X1.  Decoding a cell and encoding the instant again gives the cell
    back, for every value a cell can hold. *)
Theorem unixToTime_timeToUnix_cell (ms : Z) :
  MinInt64 <= ms <= MaxInt64 ->
  timeToUnix (unixToTime ms) = ms
  /\ Time_wf (unixToTime ms)
  /\ location (unixToTime ms) = UTC
  /\ nanosec (unixToTime ms) mod 1000000 = 0.
Proof.
  intros Hms. split; [by apply timeToUnix_unixToTime|].
  rewrite unixToTime_floor by done. simpl. unfold Time_wf. simpl.
  unfold MinInt64, MaxInt64 in *.
  split_and!; try done; Z.to_euclidean_division_equations; lia.
Qed.

Lemma unixToTime_timeToUnix_cell_witness :
  timeToUnix (unixToTime (-1)) = -1.
Proof.
  apply (proj1 (unixToTime_timeToUnix_cell (-1)
                  ltac:(vm_compute; intuition discriminate))).
Defined.

(** The test of [entry.cleanup] in terms of the cell: the threshold is
    before the instant of the cell when its own millisecond count is
    smaller. *)
Lemma Time_Before_load exp cell :
  Time_wf exp -> MinInt64 <= unixMilli exp <= MaxInt64 ->
  MinInt64 <= cell <= MaxInt64 ->
  Time_Before exp (atomicTime_load cell) = (timeToUnix exp <? cell).
Proof.
  intros [Hs Hn] Hfit Hcell. unfold atomicTime_load.
  rewrite unixToTime_floor by done.
  rewrite timeToUnix_exact by done.
  unfold Time_Before, unixMilli in *. simpl.
  apply eq_true_iff_eq.
  rewrite orb_true_iff, andb_true_iff, !Z.ltb_lt, Z.eqb_eq.
  unfold MinInt64, MaxInt64 in *.
  Z.to_euclidean_division_equations; lia.
Qed.

(** X2.  Eviction works at the granularity of the cell: a state survives
    [cleanup(exp)] exactly when the millisecond count it holds is greater
    than the millisecond count of [exp]; the encoding keeps the order of
    instants. *)
Theorem eviction_in_milliseconds (exp t : Time) (st : metricState) :
  Time_wf exp -> MinInt64 <= unixMilli exp <= MaxInt64 ->
  Time_wf t -> MinInt64 <= unixMilli t <= MaxInt64 ->
  MinInt64 <= state_time st <= MaxInt64 ->
  (updated_after exp st <-> timeToUnix exp < state_time st)
  /\ (cleanup_chain exp [st] = if timeToUnix exp <? state_time st then [st] else [])
  /\ (Time_Before exp t = true -> timeToUnix exp <= timeToUnix t)
  /\ (timeToUnix exp < timeToUnix t -> Time_Before exp t = true).
Proof.
  intros Hwe Hfe Hwt Hft Hst.
  assert (updated_after exp st <-> timeToUnix exp < state_time st) as Hiff.
  { unfold updated_after. rewrite Time_Before_load by done. apply Z.ltb_lt. }
  split_and!.
  - exact Hiff.
  - rewrite cleanup_chain_filter.
    destruct (Z.ltb_spec (timeToUnix exp) (state_time st)).
    + by rewrite filter_cons_True by (by apply Hiff).
    + rewrite filter_cons_False; [done|]. rewrite Hiff. lia.
  - rewrite !timeToUnix_exact by done. destruct Hwe, Hwt.
    unfold Time_Before, unixMilli.
    rewrite orb_true_iff, andb_true_iff, !Z.ltb_lt, Z.eqb_eq.
    Z.to_euclidean_division_equations; lia.
  - rewrite !timeToUnix_exact by done. destruct Hwe, Hwt.
    unfold Time_Before, unixMilli.
    rewrite orb_true_iff, andb_true_iff, !Z.ltb_lt, Z.eqb_eq.
    Z.to_euclidean_division_equations; lia.
Qed.

(** A state stamped in the millisecond of the threshold is evicted, also
    when the threshold lies at the start of that millisecond. *)
Lemma eviction_in_milliseconds_witness :
  cleanup_chain (mkTime 10 123000001 UTC)
    [mkState [] [] 1%float 0%float 0%float 10123]
  = [].
Proof.
  apply (proj1 (proj2 (eviction_in_milliseconds
           (mkTime 10 123000001 UTC) (mkTime 10 123900000 UTC)
           (mkState [] [] 1%float 0%float 0%float 10123)
           ltac:(vm_compute; intuition discriminate)
           ltac:(vm_compute; intuition discriminate)
           ltac:(vm_compute; intuition discriminate)
           ltac:(vm_compute; intuition discriminate)
           ltac:(vm_compute; intuition discriminate)))).
Defined.

(** ** The shape of reachable stores *)

Lemma fmap_labels_alter (f : metricState -> metricState) (i : nat)
    (chain : list metricState) :
  (forall st, state_labels (f st) = state_labels st) ->
  state_labels <$> alter f i chain = state_labels <$> chain.
Proof.
  intros Hf. revert i. induction chain as [|st chain IH]; intros [|i]; try done.
  - cbn. by rewrite Hf.
  - cbn. f_equal. apply IH.
Qed.

Lemma chain_update_wf hash (chain : list metricState) ls
    (f : metricState -> metricState) :
  (forall st, state_labels (f st) = state_labels st) ->
  (forall st, st ∈ chain -> hash (state_labels st) = hash ls) ->
  NoDup (state_labels <$> chain) ->
  chain_wf hash (hash ls) (chain_update chain ls f).
Proof.
  intros Hf Hh Hnd. unfold chain_wf, chain_update.
  destruct (find_in_chain chain ls) as [i|] eqn:Hfind.
  - apply find_in_chain_Some in Hfind as (st & Hi & _). split_and!.
    + intros Hnil. apply (f_equal length) in Hnil.
      rewrite length_alter in Hnil. apply lookup_lt_Some in Hi.
      simpl in Hnil. lia.
    + apply Forall_alter.
      * by apply Forall_forall.
      * intros x _ Hx. by rewrite Hf.
    + by rewrite fmap_labels_alter.
  - split_and!.
    + by intros ?%app_eq_nil%proj2.
    + apply Forall_app. split; [by apply Forall_forall|].
      apply Forall_singleton. by rewrite Hf.
    + rewrite fmap_app. apply NoDup_app. split_and!.
      * done.
      * intros x (st & -> & Hst)%list_elem_of_fmap.
        simpl. rewrite Hf. simpl. unfold labels_copy.
        intros Hin%list_elem_of_singleton.
        by apply (proj1 (find_in_chain_None chain ls) Hfind st).
      * simpl. apply NoDup_singleton.
Qed.

Lemma entry_update_wf hash key e ls (f : metricState -> metricState) :
  (forall st, state_labels (f st) = state_labels st) ->
  entry_scope e = key_scope key ->
  entry_name e = key_name key ->
  (forall h chain, entry_states e !! h = Some chain -> chain_wf hash h chain) ->
  entry_wf hash key (entry_update hash e ls f).
Proof.
  intros Hf Hscope Hname Hchains. unfold entry_wf, entry_update.
  destruct e as [ty sc nm hp bk su ct sts]; simpl in *. split_and!; try done.
  - apply insert_non_empty.
  - intros h chain. destruct (decide (h = hash ls)) as [->|Hne].
    + rewrite lookup_insert_eq. intros [= <-].
      destruct (sts !! hash ls) as [c|] eqn:Hc; simpl.
      * destruct (Hchains _ _ Hc) as (_ & Hall & Hnd).
        apply chain_update_wf; [done| |done].
        intros st Hst. by apply (proj1 (Forall_forall _ _) Hall).
      * apply chain_update_wf; [done| |constructor].
        by intros st ?%elem_of_nil.
    + rewrite lookup_insert_ne by done. apply Hchains.
Qed.

Lemma entry_cleanup_wf hash key e exp :
  entry_wf hash key e ->
  omap (keep_fresh exp) (entry_states e) <> ∅ ->
  entry_wf hash key (entry_set_states e (omap (keep_fresh exp) (entry_states e))).
Proof.
  intros (Hscope & Hname & _ & Hchains) Hne. unfold entry_wf.
  destruct e as [ty sc nm hp bk su ct sts]; simpl in *. split_and!; try done.
  intros h chain. rewrite lookup_omap.
  destruct (sts !! h) as [c|] eqn:Hc; simpl; [|done].
  intros [-> Hnil]%keep_fresh_Some.
  destruct (Hchains _ _ Hc) as (_ & Hall & Hnd). split_and!.
  - done.
  - apply Forall_forall. intros st [_ Hst]%list_elem_of_filter.
    by apply (proj1 (Forall_forall _ _) Hall).
  - eapply sublist_NoDup; [exact Hnd|].
    apply fmap_sublist, sublist_filter.
Qed.

Section Shape.
Variable hash : labels -> Z.
Variable ftoa : float -> string.

Lemma reachable_store_wf (s : metricStore) :
  reachable hash ftoa s -> store_wf hash s.
Proof.
  induction 1 as [|s m bs _ IH|s exp _ IH]; intros key e He.
  - simpl in He. by rewrite lookup_empty in He.
  - destruct (decide (key = metric_key m)) as [->|Hne].
    + rewrite metricStore_update_lookup in He. injection He as <-.
      assert (forall st, state_labels
                (metricState_update ftoa st (metric_mtype m) (metric_value m)
                   (metric_time m) bs) = state_labels st) as Hf
        by (intros; apply metricState_update_labels).
      unfold entry_for.
      destruct (entries s !! metric_key m) as [e0|] eqn:He0.
      * destruct (IH _ _ He0) as (Hscope & Hname & _ & Hchains).
        destruct (decide (entry_mtype e0 = metric_mtype m)).
        { by apply entry_update_wf. }
        apply entry_update_wf; try done;
          unfold newMetricEntry; destruct (decide _); simpl; try done;
          intros h chain; by rewrite lookup_empty.
      * apply entry_update_wf; try done;
          unfold newMetricEntry; destruct (decide _); simpl; try done;
          intros h chain; by rewrite lookup_empty.
    + rewrite metricStore_update_lookup_ne in He by done. by apply IH.
  - apply metricStore_cleanup_lookup in He as (e0 & He0 & -> & Hne).
    apply entry_cleanup_wf; [|done]. by apply IH.
Qed.

(** X3.  Every store reached from the zero value by updates and cleanups
    is well formed: an entry carries the scope and name of its key and
    holds a chain, no chain is empty, a state sits under the hash of its
    labels, and no two states of an entry carry the same labels. *)
Theorem reachable_wf (s : metricStore) :
  reachable hash ftoa s -> store_wf hash s.
Proof. apply reachable_store_wf. Qed.

End Shape.

Lemma reachable_wf_witness :
  store_wf fnv1a_hash
    (metricStore_cleanup
       (metricStore_update fnv1a_hash ftoa_table emptyStore
          (sample counter "A" 1%float (mkTime 10 0 UTC) [("id", "1")]) [])
       (mkTime 5 0 UTC)).
Proof.
  apply (reachable_wf fnv1a_hash ftoa_table).
  apply reachable_cleanup, reachable_update, reachable_empty.
Defined.

Lemma NoDup_fmap_elem {A B} (f : A -> B) (l : list A) x y :
  NoDup (f <$> l) -> x ∈ l -> y ∈ l -> f x = f y -> x = y.
Proof.
  induction l as [|a l IH]; simpl; [by intros _ ?%elem_of_nil|].
  intros [Ha Hnd]%NoDup_cons [->|Hx]%elem_of_cons [->|Hy]%elem_of_cons Hxy; try done.
  - destruct Ha. rewrite Hxy. by apply list_elem_of_fmap_2.
  - destruct Ha. rewrite <- Hxy. by apply list_elem_of_fmap_2.
  - by apply IH.
Qed.

Lemma chain_series_elem chain st :
  NoDup (state_labels <$> chain) -> st ∈ chain ->
  chain_series chain (state_labels st) = Some st.
Proof.
  unfold chain_series.
  induction chain as [|s0 chain IH]; simpl; [by intros _ ?%elem_of_nil|].
  intros [Ha Hnd]%NoDup_cons Hin.
  destruct (labels_equal (state_labels s0) (state_labels st)) eqn:E; simpl.
  - apply labels_equal_spec in E.
    apply elem_of_cons in Hin as [->|Hin]; [done|].
    destruct Ha. rewrite E. by apply list_elem_of_fmap_2.
  - apply elem_of_cons in Hin as [->|Hin].
    + by rewrite labels_equal_refl in E.
    + specialize (IH Hnd Hin).
      destruct (find_in_chain chain (state_labels st)) as [i|]; simpl in *; done.
Qed.

Section Found.
Variable hash : labels -> Z.
Variable ftoa : float -> string.

Lemma series_of_stored_state (s : metricStore) key e h chain st :
  reachable hash ftoa s ->
  entries s !! key = Some e ->
  entry_states e !! h = Some chain ->
  st ∈ chain ->
  h = hash (state_labels st)
  /\ series hash s key (state_labels st) = Some st.
Proof.
  intros Hr He Hc Hst.
  destruct (reachable_store_wf hash ftoa s Hr _ _ He) as (_ & _ & _ & Hchains).
  destruct (Hchains _ _ Hc) as (_ & Hall & Hnd).
  assert (hash (state_labels st) = h) as Hh
    by (by apply (proj1 (Forall_forall _ _) Hall)).
  split; [done|].
  unfold series. rewrite He. simpl. rewrite Hh, Hc. simpl.
  by apply chain_series_elem.
Qed.

(** X4.  Every state of a reachable store is the one a lookup of its own
    labels finds: it sits in the chain of their hash, and no state before
    it in the chain shadows it. *)
Theorem stored_state_found (s : metricStore) key e h chain st :
  reachable hash ftoa s ->
  entries s !! key = Some e ->
  entry_states e !! h = Some chain ->
  st ∈ chain ->
  h = hash (state_labels st)
  /\ series hash s key (state_labels st) = Some st.
Proof. apply series_of_stored_state. Qed.

End Found.

(** ** Counter and gauge series are collected once *)

Lemma fmap_filter_bind {A B C} (f : B -> C) (P : B -> Prop)
    `{!forall x, Decision (P x)} (g : A -> list B) (l : list A) :
  f <$> filter P (l ≫= g) = l ≫= (fun x => f <$> filter P (g x)).
Proof.
  induction l as [|a l IH]; csimpl; [done|].
  by rewrite filter_app, fmap_app, IH.
Qed.

Lemma filter_none {A} (P : A -> Prop) `{!forall x, Decision (P x)} (l : list A) :
  (forall x, x ∈ l -> ~ P x) -> filter P l = [].
Proof.
  induction l as [|a l IH]; intros Hno; [done|].
  rewrite filter_cons_False by (apply Hno; left).
  apply IH. intros x Hx. apply Hno. by right.
Qed.

Lemma state_ids_elem e st y :
  y ∈ state_ids e st -> y = (entry_scope e, entry_name e, state_labels st).
Proof.
  unfold state_ids. intros (m & -> & [Hty Hm]%list_elem_of_filter)%list_elem_of_fmap.
  pose proof (state_records_mtype _ _ _ Hm) as Hm'.
  destruct (entry_mtype e) eqn:He.
  - unfold state_records, metricState_collect in Hm. rewrite He in Hm.
    by apply elem_of_nil in Hm.
  - rewrite state_records_counter in Hm by done.
    by apply list_elem_of_singleton in Hm as ->.
  - rewrite state_records_gauge in Hm by done.
    by apply list_elem_of_singleton in Hm as ->.
  - by rewrite Hm' in Hty.
  - unfold state_records, metricState_collect in Hm. rewrite He in Hm.
    by apply elem_of_nil in Hm.
Qed.

Lemma state_ids_NoDup e st : NoDup (state_ids e st).
Proof.
  unfold state_ids. destruct (entry_mtype e) eqn:He.
  - unfold state_records, metricState_collect. rewrite He. constructor.
  - rewrite state_records_counter by done.
    rewrite filter_cons_True by done. apply NoDup_singleton.
  - rewrite state_records_gauge by done.
    rewrite filter_cons_True by done. apply NoDup_singleton.
  - rewrite filter_none; [constructor|].
    intros x Hx Hty. apply state_records_mtype in Hx. congruence.
  - unfold state_records, metricState_collect. rewrite He. constructor.
Qed.

Lemma chain_ids_NoDup e (chain : list metricState) :
  NoDup (state_labels <$> chain) ->
  NoDup (chain ≫= state_ids e).
Proof.
  intros Hnd. apply NoDup_bind.
  - intros x1 x2 y Hx1 Hx2 Hy1%state_ids_elem Hy2%state_ids_elem.
    apply (NoDup_fmap_elem state_labels chain); try done. congruence.
  - intros x _. apply state_ids_NoDup.
  - by apply NoDup_fmap_1 in Hnd.
Qed.

Lemma entry_ids_elem e y :
  y ∈ map_to_list (entry_states e) ≫= (fun hc => hc.2 ≫= state_ids e) ->
  exists h chain st, entry_states e !! h = Some chain /\ st ∈ chain
    /\ y = (entry_scope e, entry_name e, state_labels st).
Proof.
  intros ([h chain] & Hy & Hhc%elem_of_map_to_list)%list_elem_of_bind.
  simpl in Hy. apply list_elem_of_bind in Hy as (st & Hy%state_ids_elem & Hst).
  by exists h, chain, st.
Qed.

Lemma entry_ids_NoDup hash key e :
  entry_wf hash key e ->
  NoDup (map_to_list (entry_states e) ≫= (fun hc => hc.2 ≫= state_ids e)).
Proof.
  intros (_ & _ & _ & Hchains). apply NoDup_bind.
  - intros [h1 c1] [h2 c2] y H1%elem_of_map_to_list H2%elem_of_map_to_list.
    simpl. intros (st1 & Hy1%state_ids_elem & Hst1)%list_elem_of_bind
                  (st2 & Hy2%state_ids_elem & Hst2)%list_elem_of_bind.
    destruct (Hchains _ _ H1) as (_ & Hall1 & _).
    destruct (Hchains _ _ H2) as (_ & Hall2 & _).
    pose proof (proj1 (Forall_forall _ _) Hall1 _ Hst1) as E1.
    pose proof (proj1 (Forall_forall _ _) Hall2 _ Hst2) as E2.
    simpl in E1, E2.
    assert (h1 = h2) as -> by congruence.
    by assert (c1 = c2) as -> by congruence.
  - intros [h c] Hc%elem_of_map_to_list. simpl.
    apply chain_ids_NoDup. by destruct (Hchains _ _ Hc) as (_ & _ & ?).
  - apply NoDup_map_to_list.
Qed.

Lemma store_ids_eq s :
  series_id <$> filter (fun m => metric_mtype m <> histogram) (store_records s)
  = map_to_list (entries s) ≫= (fun ke =>
      map_to_list (entry_states ke.2) ≫= (fun hc => hc.2 ≫= state_ids ke.2)).
Proof.
  unfold store_records. rewrite fmap_filter_bind.
  apply list_bind_ext; [|done]. intros [k e]. simpl.
  unfold entry_records. rewrite fmap_filter_bind.
  apply list_bind_ext; [|done]. intros [h c]. simpl.
  unfold chain_records. by rewrite fmap_filter_bind.
Qed.

Section Once.
Variable hash : labels -> Z.
Variable ftoa : float -> string.

(** X5.  A collect of a reachable store reports no counter or gauge
    series twice: among the records that are not histogram records, no two
    agree on scope, name and labels. *)
Theorem collect_series_once (s : metricStore) :
  reachable hash ftoa s ->
  NoDup (series_id <$>
           filter (fun m => metric_mtype m <> histogram) (metricStore_collect s [])).
Proof.
  intros Hwf%reachable_store_wf.
  rewrite metricStore_collect_perm. simpl.
  rewrite store_ids_eq. apply NoDup_bind.
  - intros [k1 e1] [k2 e2] y H1%elem_of_map_to_list H2%elem_of_map_to_list.
    simpl. intros (_ & _ & st1 & _ & _ & ->)%entry_ids_elem
                  (_ & _ & st2 & _ & _ & [= Hs Hn _])%entry_ids_elem.
    destruct (Hwf _ _ H1) as (Hs1 & Hn1 & _).
    destruct (Hwf _ _ H2) as (Hs2 & Hn2 & _).
    assert (k1 = k2) as ->.
    { destruct k1, k2; simpl in *. congruence. }
    by assert (e1 = e2) as -> by congruence.
  - intros [k e] He%elem_of_map_to_list. simpl.
    by apply (entry_ids_NoDup hash k), Hwf.
  - apply NoDup_map_to_list.
Qed.

End Once.

Lemma collect_series_once_witness :
  NoDup (series_id <$>
    filter (fun m => metric_mtype m <> histogram)
      (metricStore_collect
         (metricStore_updates fnv1a_hash ftoa_table emptyStore
            [sample counter "A" 1%float (mkTime 10 0 UTC) [("id", "1")];
             sample counter "A" 2%float (mkTime 11 0 UTC) [("id", "1")]] [])
         [])).
Proof.
  apply (collect_series_once fnv1a_hash ftoa_table).
  unfold metricStore_updates. simpl.
  apply reachable_update, reachable_update, reachable_empty.
Defined.

(** ** Cleanups compose *)

Lemma store_eq (a b : metricStore) : entries a = entries b -> a = b.
Proof. destruct a, b. simpl. by intros ->. Qed.

Lemma entry_set_states_id e : entry_set_states e (entry_states e) = e.
Proof. by destruct e. Qed.

Lemma entry_set_states_twice e m1 m2 :
  entry_set_states (entry_set_states e m1) m2 = entry_set_states e m2.
Proof. done. Qed.

Lemma updated_after_mono e1 e2 st :
  Time_le e1 e2 -> updated_after e2 st -> updated_after e1 st.
Proof.
  unfold Time_le, updated_after, Time_Before.
  rewrite orb_false_iff, andb_false_iff, !orb_true_iff, !andb_true_iff,
    !Z.ltb_lt, !Z.ltb_ge, !Z.eqb_eq, Z.eqb_neq.
  lia.
Qed.

Lemma keep_fresh_twice e1 e2 chain :
  Time_le e1 e2 ->
  keep_fresh e1 chain ≫= keep_fresh e2 = keep_fresh e2 chain.
Proof.
  intros Hle.
  assert (filter (updated_after e2) (filter (updated_after e1) chain)
          = filter (updated_after e2) chain) as Hff.
  { apply list_filter_filter_l. intros st. by apply updated_after_mono. }
  unfold keep_fresh.
  destruct (decide (filter (updated_after e1) chain = [])) as [Hnil|Hne]; cbn.
  - rewrite Hnil in Hff. by rewrite decide_True.
  - by rewrite Hff.
Qed.

Lemma states_cleanup_twice e1 e2 (m : metricStateMap) :
  Time_le e1 e2 ->
  omap (keep_fresh e2) (omap (keep_fresh e1) m) = omap (keep_fresh e2) m.
Proof.
  intros Hle. apply map_eq. intros h. rewrite !lookup_omap.
  destruct (m !! h) as [c|]; simpl; [|done].
  by apply keep_fresh_twice.
Qed.

Lemma clean_entry_twice e1 e2 e :
  Time_le e1 e2 ->
  clean_entry e1 e ≫= clean_entry e2 = clean_entry e2 e.
Proof.
  intros Hle. pose proof (states_cleanup_twice e1 e2 (entry_states e) Hle) as Htw.
  unfold clean_entry. cbv zeta.
  destruct (decide (omap (keep_fresh e1) (entry_states e) = ∅)) as [Hnil|Hne]; simpl.
  - rewrite Hnil, omap_empty in Htw. by rewrite decide_True.
  - by rewrite Htw.
Qed.

(** X6.  A cleanup followed by a cleanup with a later (or the same)
    threshold leaves the store the later cleanup alone leaves; so a cleanup
    is idempotent. *)
Theorem cleanup_cleanup (s : metricStore) (e1 e2 : Time) :
  Time_le e1 e2 ->
  metricStore_cleanup (metricStore_cleanup s e1) e2 = metricStore_cleanup s e2.
Proof.
  intros Hle. apply store_eq. rewrite !metricStore_cleanup_entries.
  apply map_eq. intros key. rewrite !lookup_omap.
  destruct (entries s !! key) as [e|]; simpl; [|done].
  by apply clean_entry_twice.
Qed.

Lemma cleanup_cleanup_witness :
  metricStore_cleanup
    (metricStore_cleanup
       (metricStore_update fnv1a_hash ftoa_table emptyStore
           (sample counter "A" 1%float (mkTime 10 0 UTC) [("id", "1")]) [])
       (mkTime 5 0 UTC))
    (mkTime 7 0 UTC)
  = metricStore_cleanup
      (metricStore_update fnv1a_hash ftoa_table emptyStore
          (sample counter "A" 1%float (mkTime 10 0 UTC) [("id", "1")]) [])
      (mkTime 7 0 UTC).
Proof.
  apply (cleanup_cleanup _ (mkTime 5 0 UTC) (mkTime 7 0 UTC)).
  reflexivity.
Defined.

(** ** A cleanup that finds nothing stale *)

Lemma filter_all {A} (P : A -> Prop) `{!forall x, Decision (P x)} (l : list A) :
  (forall x, x ∈ l -> P x) -> filter P l = l.
Proof.
  induction l as [|a l IH]; intros Hall; [done|].
  rewrite filter_cons_True by (apply Hall; left).
  f_equal. apply IH. intros x Hx. apply Hall. by right.
Qed.

Section Untouched.
Variable hash : labels -> Z.
Variable ftoa : float -> string.

(** X7.  A cleanup of a reachable store all of whose states were updated
    after the threshold leaves the store as it is. *)
Theorem cleanup_nothing_stale (s : metricStore) (exp : Time) :
  reachable hash ftoa s ->
  (forall key e h chain st,
      entries s !! key = Some e -> entry_states e !! h = Some chain ->
      st ∈ chain -> updated_after exp st) ->
  metricStore_cleanup s exp = s.
Proof.
  intros Hwf%reachable_store_wf Hall. apply store_eq.
  rewrite metricStore_cleanup_entries.
  apply map_eq. intros key. rewrite lookup_omap.
  destruct (entries s !! key) as [e|] eqn:He; simpl; [|done].
  destruct (Hwf _ _ He) as (_ & _ & Hne & Hchains).
  assert (omap (keep_fresh exp) (entry_states e) = entry_states e) as Hsame.
  { apply map_eq. intros h. rewrite lookup_omap.
    destruct (entry_states e !! h) as [c|] eqn:Hc; simpl; [|done].
    unfold keep_fresh. rewrite filter_all by (intros st Hst; by eapply Hall).
    rewrite decide_False; [done|]. by destruct (Hchains _ _ Hc). }
  unfold clean_entry. rewrite Hsame.
  rewrite decide_False by done. by rewrite entry_set_states_id.
Qed.

End Untouched.

Lemma cleanup_nothing_stale_witness :
  metricStore_cleanup
    (metricStore_update fnv1a_hash ftoa_table emptyStore
       (sample counter "A" 1%float (mkTime 10 0 UTC) [("id", "1")]) [])
    (mkTime 5 0 UTC)
  = metricStore_update fnv1a_hash ftoa_table emptyStore
      (sample counter "A" 1%float (mkTime 10 0 UTC) [("id", "1")]) [].
Proof.
  apply (cleanup_nothing_stale fnv1a_hash ftoa_table).
  - apply reachable_update, reachable_empty.
  - intros key e h chain st He Hc Hst.
    assert (state_time st = 10000) as Hst'.
    { rewrite metricStore_update_entries in He.
      apply lookup_insert_Some in He as [[_ <-]|[_ He]];
        [|simpl in He; by rewrite lookup_empty in He].
      unfold entry_update in Hc. cbn [entry_states entry_set_states] in Hc.
      apply lookup_insert_Some in Hc as [[_ <-]|[_ Hc]].
      - vm_compute in Hst. apply list_elem_of_singleton in Hst. by subst st.
      - vm_compute in Hc. discriminate. }
    unfold updated_after. rewrite Hst'. reflexivity.
Defined.

(** ** Collecting into a slice *)

Lemma foldr_app_acc {A B} (R : A -> list B -> list B) (l : list A) (ms : list B) :
  (forall x acc, R x acc = acc ++ R x []) ->
  foldr R ms l = ms ++ foldr R [] l.
Proof.
  intros HR. induction l as [|x l IH]; simpl.
  - by rewrite app_nil_r.
  - rewrite HR, IH, (HR x (foldr R [] l)). by rewrite app_assoc.
Qed.

Lemma metricEntry_collect_app ms e :
  metricEntry_collect ms e = ms ++ metricEntry_collect [] e.
Proof.
  unfold metricEntry_collect. destruct (decide _); [|by rewrite app_nil_r].
  rewrite !map_fold_foldr. apply foldr_app_acc.
  intros [h chain] acc. simpl. by rewrite !chain_collect_app.
Qed.

(** X8.  [collect] appends to the slice it is given: the records already
    there stay in front, in their order, and what is appended does not
    depend on them. *)
Theorem metricStore_collect_app (s : metricStore) (ms : list metric) :
  metricStore_collect s ms = ms ++ metricStore_collect s [].
Proof.
  unfold metricStore_collect. rewrite !map_fold_foldr.
  apply foldr_app_acc. intros [k e] acc. simpl.
  by rewrite metricEntry_collect_app.
Qed.

(** ** Types that are stored and never exposed *)

Section Untyped.
Variable hash : labels -> Z.
Variable ftoa : float -> string.

(** X9.  An update of type [untyped] or [summary] is stored as a series of
    its own, and takes the place of an entry of another type under its key,
    but adds no record to a collect: the records afterwards are the ones
    from before less those the update supersedes. *)
Theorem untyped_update_not_collected (s : metricStore) (m : metric) (bs : list float) :
  metric_mtype m = untyped \/ metric_mtype m = summary ->
  is_Some (series hash (metricStore_update hash ftoa s m bs)
             (metric_key m) (metric_labels m))
  /\ exists rest,
       metricStore_collect s []
       ≡ₚ superseded hash s (metric_mtype m) (metric_key m) (metric_labels m) ++ rest
       /\ metricStore_collect (metricStore_update hash ftoa s m bs) [] ≡ₚ rest.
Proof.
  intros Hty. split.
  - rewrite series_update_eq. by eexists.
  - destruct (store_records_update hash ftoa s m bs) as (rest & Hold & Hnew).
    exists rest. rewrite !metricStore_collect_perm. simpl. split; [done|].
    rewrite Hnew.
    unfold state_records, metricState_collect. rewrite entry_for_mtype.
    by destruct Hty as [-> | ->].
Qed.

End Untyped.

Lemma untyped_update_not_collected_witness :
  exists rest,
    metricStore_collect
      (metricStore_update fnv1a_hash ftoa_table emptyStore
         (sample counter "A" 1%float (mkTime 10 0 UTC) []) []) []
    ≡ₚ superseded fnv1a_hash
         (metricStore_update fnv1a_hash ftoa_table emptyStore
            (sample counter "A" 1%float (mkTime 10 0 UTC) []) [])
         untyped (mkKey "" "A") [] ++ rest
    /\ metricStore_collect
         (metricStore_update fnv1a_hash ftoa_table
            (metricStore_update fnv1a_hash ftoa_table emptyStore
               (sample counter "A" 1%float (mkTime 10 0 UTC) []) [])
            (sample untyped "A" 2%float (mkTime 11 0 UTC) []) []) []
       ≡ₚ rest.
Proof.
  apply (proj2 (untyped_update_not_collected fnv1a_hash ftoa_table
                  (metricStore_update fnv1a_hash ftoa_table emptyStore
                     (sample counter "A" 1%float (mkTime 10 0 UTC) []) [])
                  (sample untyped "A" 2%float (mkTime 11 0 UTC) []) []
                  (or_introl eq_refl))).
Defined.

(** ** Histograms count each observation in one bucket *)

Section Histogram.
Variable ftoa : float -> string.

Lemma metricState_update_buckets st v t bs :
  state_buckets (metricState_update ftoa st histogram v t bs)
  = metricBuckets_update (update_buckets ftoa st bs) v.
Proof.
  unfold metricState_update, update_buckets.
  by destruct (decide _).
Qed.

Lemma metricState_update_sum st v t bs :
  state_sum (metricState_update ftoa st histogram v t bs)
  = PrimFloat.add (state_sum st) v
  /\ state_count (metricState_update ftoa st histogram v t bs)
     = PrimFloat.add (state_count st) 1.
Proof.
  unfold metricState_update. by destruct (decide _).
Qed.

Lemma counted_buckets_length ls limits c :
  length (counted_buckets ftoa ls limits c) = length limits.
Proof.
  unfold counted_buckets, makeMetricBuckets.
  by rewrite length_imap, length_map.
Qed.

Lemma counted_buckets_ext ls limits c c' :
  (forall i, c i = c' i) ->
  counted_buckets ftoa ls limits c = counted_buckets ftoa ls limits c'.
Proof.
  intros Hc. unfold counted_buckets. apply imap_ext. intros i b _.
  simpl. by rewrite Hc.
Qed.

Lemma counted_buckets_cons ls limit limits c :
  counted_buckets ftoa ls (limit :: limits) c
  = {| bucket_count := c 0%nat; bucket_limit := limit;
       bucket_labels := labels_copyAppend ls ("le"%string, ftoa limit) |}
    :: counted_buckets ftoa ls limits (c ∘ S).
Proof. unfold counted_buckets. simpl. reflexivity. Qed.

Lemma metricBuckets_update_counted ls limits c v :
  metricBuckets_update (counted_buckets ftoa ls limits c) v
  = counted_buckets ftoa ls limits
      (fun i => if decide (bucket_index limits v = Some i)
                then wrapU64 (c i + 1) else c i).
Proof.
  revert c. induction limits as [|limit limits IH]; intros c; [done|].
  rewrite !counted_buckets_cons. simpl.
  destruct (PrimFloat.leb v limit) eqn:Hle.
  - reflexivity.
  - f_equal.
    + f_equal. destruct (bucket_index limits v); simpl; try case_decide; done.
    + rewrite IH. apply counted_buckets_ext. intros i. unfold compose.
      destruct (bucket_index limits v) as [j|]; simpl;
        repeat case_decide; try done; congruence.
Qed.

Lemma bucket_hits_snoc limits vs v i :
  wrapU64 (bucket_hits limits (vs ++ [v]) i)
  = if decide (bucket_index limits v = Some i)
    then wrapU64 (wrapU64 (bucket_hits limits vs i) + 1)
    else wrapU64 (bucket_hits limits vs i).
Proof.
  unfold bucket_hits. rewrite filter_app, length_app.
  destruct (decide (bucket_index limits v = Some i)) as [Hi|Hi].
  - rewrite filter_cons_True by done. simpl.
    unfold wrapU64. rewrite Z.add_mod_idemp_l by lia. f_equal. lia.
  - rewrite filter_cons_False by done. simpl. f_equal. lia.
Qed.

Lemma counted_buckets_zero ls limits :
  counted_buckets ftoa ls limits (fun _ => 0) = makeMetricBuckets ftoa limits ls.
Proof.
  induction limits as [|limit limits IH]; [done|].
  rewrite counted_buckets_cons. simpl. f_equal. exact IH.
Qed.

Lemma histogram_updates_buckets ls limits ms :
  Forall (fun m => metric_mtype m = histogram) ms ->
  update_buckets ftoa (metricState_updates ftoa (newMetricState ls) ms limits) limits
  = counted_buckets ftoa ls limits
      (fun i => wrapU64 (bucket_hits limits (metric_value <$> ms) i)).
Proof.
  induction ms as [|m ms IH] using rev_ind; intros Hall.
  - unfold update_buckets, metricState_updates. simpl.
    destruct (decide _) as [Hne|Heq].
    + rewrite <- counted_buckets_zero. by apply counted_buckets_ext.
    + destruct limits; [done|]. simpl in Heq. by destruct Heq.
  - apply Forall_app in Hall as [Hall Hm]. rewrite Forall_singleton in Hm.
    rewrite metricState_updates_snoc, Hm.
    unfold update_buckets at 1.
    rewrite metricState_update_buckets, metricBuckets_update_length.
    rewrite IH by done. rewrite counted_buckets_length.
    rewrite decide_False by (by intros ?).
    rewrite metricBuckets_update_counted.
    apply counted_buckets_ext. intros i.
    rewrite fmap_app.
    change (metric_value <$> [m]) with [metric_value m].
    by rewrite bucket_hits_snoc.
Qed.

(** The sum and the count of a histogram state fold the observations in
    order, in float64. *)
Lemma histogram_updates_sum st limits ms :
  Forall (fun m => metric_mtype m = histogram) ms ->
  state_sum (metricState_updates ftoa st ms limits)
  = fold_left PrimFloat.add (metric_value <$> ms) (state_sum st)
  /\ state_count (metricState_updates ftoa st ms limits)
     = fold_left (fun c _ => PrimFloat.add c 1) ms (state_count st).
Proof.
  unfold metricState_updates. revert st.
  induction ms as [|m ms IH]; intros st Hall; simpl; [done|].
  apply Forall_cons in Hall as [Hty Hall].
  destruct (IH (metricState_update ftoa st (metric_mtype m) (metric_value m)
                  (metric_time m) limits) Hall) as [-> ->].
  rewrite Hty.
  by destruct (metricState_update_sum st (metric_value m) (metric_time m) limits)
    as [-> ->].
Qed.

End Histogram.

Section HistogramSeries.
Variable hash : labels -> Z.
Variable ftoa : float -> string.

(** X10.  A histogram series fed a sequence of observations from an empty
    store, always with the same limits: bucket [i] counts (modulo 2^64) the
    observations whose first limit reaching them is limit [i], so an
    observation is counted in one bucket at most, and in none when it is
    above every limit; the sum and the count fold all of them. *)
Theorem histogram_series_counts (key : metricKey) (ls : labels)
    (limits : list float) (ms : list metric) :
  Forall (on_series histogram key ls) ms -> ms <> [] ->
  exists st,
    series hash (metricStore_updates hash ftoa emptyStore ms limits) key ls = Some st
    /\ state_buckets st
       = counted_buckets ftoa ls limits
           (fun i => wrapU64 (bucket_hits limits (metric_value <$> ms) i))
    /\ state_sum st = fold_left PrimFloat.add (metric_value <$> ms) 0%float
    /\ state_count st = fold_left (fun c _ => PrimFloat.add c 1) ms 0%float.
Proof.
  intros Hon Hne.
  destruct (series_updates hash ftoa emptyStore histogram key ls ms limits Hon Hne)
    as [_ Hs].
  rewrite prior_state_empty in Hs.
  assert (Forall (fun m => metric_mtype m = histogram) ms) as Hty.
  { eapply Forall_impl; [exact Hon|]. by intros m (? & _). }
  eexists. split; [exact Hs|]. split.
  - destruct (exists_last Hne) as (ms' & m & ->).
    apply Forall_app in Hty as [Hty' Hm]. rewrite Forall_singleton in Hm.
    rewrite metricState_updates_snoc, Hm, metricState_update_buckets.
    rewrite histogram_updates_buckets by done.
    rewrite metricBuckets_update_counted.
    apply counted_buckets_ext. intros i.
    rewrite fmap_app.
    change (metric_value <$> [m]) with [metric_value m].
    by rewrite bucket_hits_snoc.
  - by apply (histogram_updates_sum ftoa (newMetricState ls)).
Qed.

(** X11.  The limits passed to a histogram update matter through their
    number only: with as many limits as the state holds buckets they are
    ignored and the buckets keep their own limits; with another number the
    buckets are made anew from them, their counters start from zero, and
    the sum and the count go on. *)
Theorem histogram_limits_by_length (st : metricState) (v : float) (t : Time)
    (limits : list float) :
  (length (state_buckets st) = length limits ->
   state_buckets (metricState_update ftoa st histogram v t limits)
   = metricBuckets_update (state_buckets st) v
   /\ map bucket_limit (state_buckets (metricState_update ftoa st histogram v t limits))
      = map bucket_limit (state_buckets st))
  /\ (length (state_buckets st) <> length limits ->
      state_buckets (metricState_update ftoa st histogram v t limits)
      = counted_buckets ftoa (state_labels st) limits
          (fun i => if decide (bucket_index limits v = Some i) then 1 else 0))
  /\ state_sum (metricState_update ftoa st histogram v t limits)
     = PrimFloat.add (state_sum st) v
  /\ state_count (metricState_update ftoa st histogram v t limits)
     = PrimFloat.add (state_count st) 1.
Proof.
  split_and!.
  - intros Hlen. rewrite metricState_update_buckets. unfold update_buckets.
    rewrite decide_False by (by intros ?).
    by rewrite metricBuckets_update_limits.
  - intros Hlen. rewrite metricState_update_buckets. unfold update_buckets.
    rewrite decide_True by done.
    rewrite <- counted_buckets_zero, metricBuckets_update_counted.
    apply counted_buckets_ext. intros i. by case_decide.
  - apply metricState_update_sum.
  - apply metricState_update_sum.
Qed.

End HistogramSeries.

Lemma histogram_series_counts_witness :
  exists st,
    series fnv1a_hash
      (metricStore_updates fnv1a_hash ftoa_table emptyStore
         [sample histogram "C" 0.3%float (mkTime 10 0 UTC) [];
          sample histogram "C" 2%float (mkTime 11 0 UTC) []]
         [0.25%float; 0.5%float; 1%float])
      (mkKey "" "C") [] = Some st
    /\ bucket_count <$> state_buckets st = [0; 1; 0]
    /\ state_count st = 2%float.
Proof.
  destruct (histogram_series_counts fnv1a_hash ftoa_table (mkKey "" "C") []
              [0.25%float; 0.5%float; 1%float]
              [sample histogram "C" 0.3%float (mkTime 10 0 UTC) [];
               sample histogram "C" 2%float (mkTime 11 0 UTC) []])
    as (st & Hs & Hb & _ & Hc).
  - repeat constructor.
  - discriminate.
  - exists st. split; [exact Hs|]. split.
    + rewrite Hb. vm_compute. reflexivity.
    + rewrite Hc. vm_compute. reflexivity.
Defined.

(** ** More on [acceptEncoding] *)

Lemma Split_nonempty s sep : exists tok toks, Split s sep = tok :: toks.
Proof.
  induction s as [|c r IH]; simpl; [by eexists _, _|].
  destruct (Ascii.eqb c sep); [by eexists _, _|].
  destruct IH as (tok & toks & ->). by eexists _, _.
Qed.

Lemma Split_cons_ne c r sep tok toks :
  Ascii.eqb c sep = false -> Split r sep = tok :: toks ->
  Split (String c r) sep = String c tok :: toks.
Proof. intros Hc Hr. simpl. by rewrite Hc, Hr. Qed.

Lemma Split_app s1 s2 sep :
  Split (s1 +:+ String sep s2) sep = Split s1 sep ++ Split s2 sep.
Proof.
  induction s1 as [|c r IH]; simpl.
  - by rewrite Ascii.eqb_refl.
  - destruct (Ascii.eqb c sep); [by rewrite IH|].
    rewrite IH. by destruct (Split_nonempty r sep) as (tok & toks & ->).
Qed.

Lemma acceptEncoding_loop_app l1 l2 check :
  acceptEncoding_loop (l1 ++ l2) check
  = acceptEncoding_loop l1 check || acceptEncoding_loop l2 check.
Proof.
  induction l1 as [|c l1 IH]; simpl; [done|].
  by destruct (HasPrefix (TrimSpace c) check).
Qed.

Lemma bytes_prefix_length (x : ascii) (p a b : list ascii) :
  Forall (fun c => c <> x) p ->
  bytes_prefix p (a ++ x :: b) = true -> (length p <= length a)%nat.
Proof.
  revert a. induction p as [|c p IH]; intros a Hall; simpl; [lia|].
  apply Forall_cons in Hall as [Hc Hall].
  destruct a as [|y a]; simpl.
  - rewrite andb_true_iff, Ascii.eqb_eq. by intros [-> _].
  - rewrite andb_true_iff. intros [_ Hp]. specialize (IH a Hall Hp). lia.
Qed.

(** Trimming stops at a byte that is no space and occurs in no encoding of
    a space. *)
Lemma trim_spaces_stop (x : ascii) pats fuel (a b : list ascii) :
  asciiSpace x = false ->
  Forall (Forall (fun c => c <> x)) pats ->
  Forall (fun p => p <> []) pats ->
  exists a', trim_spaces fuel pats (a ++ x :: b) = a' ++ x :: b.
Proof.
  intros Hx Hpats Hne. revert a.
  induction fuel as [|fuel IH]; intros a; simpl; [by exists a|].
  destruct (space_width pats (a ++ x :: b)) as [n|] eqn:Hw; [|by exists a].
  assert (n <= length a)%nat as Hn.
  { unfold space_width in Hw. destruct a as [|c a]; simpl in Hw.
    - rewrite Hx in Hw.
      destruct (List.find _ pats) as [p|] eqn:Hfind; [|done].
      apply find_some in Hfind as [Hin Hp].
      apply list_elem_of_In in Hin.
      pose proof (proj1 (Forall_forall _ _) Hpats _ Hin) as Hall.
      pose proof (proj1 (Forall_forall _ _) Hne _ Hin) as Hnil.
      destruct p as [|c p]; [done|]. simpl in Hp.
      apply Forall_cons in Hall as [Hc _].
      apply andb_true_iff in Hp as [Hp%Ascii.eqb_eq _]. done.
    - destruct (asciiSpace c); [injection Hw as <-; simpl; lia|].
      destruct (List.find _ pats) as [p|] eqn:Hfind; [|done].
      simpl in Hw. injection Hw as <-.
      apply find_some in Hfind as [Hin Hp].
      apply list_elem_of_In in Hin.
      pose proof (proj1 (Forall_forall _ _) Hpats _ Hin) as Hall.
      by apply (bytes_prefix_length x p (c :: a) b). }
  rewrite drop_app_le by done. apply IH.
Qed.

Lemma TrimSpace_gzip (tok : string) :
  exists rest, TrimSpace ("gzip" +:+ tok) = "gzip" +:+ rest.
Proof.
  unfold TrimSpace.
  change (list_ascii_of_string ("gzip" +:+ tok))
    with ("g" :: "z" :: "i" :: "p" :: list_ascii_of_string tok)%char.
  set (t := list_ascii_of_string tok).
  assert (TrimLeftSpace ("g" :: "z" :: "i" :: "p" :: t)%char
          = ("g" :: "z" :: "i" :: "p" :: t)%char) as -> by reflexivity.
  unfold TrimRightSpace.
  assert (rev ("g" :: "z" :: "i" :: "p" :: t)%char
          = rev t ++ ("p" :: "i" :: "z" :: "g" :: [])%char) as ->.
  { simpl. by rewrite <- !app_assoc. }
  destruct (trim_spaces_stop "p"%char (map (@rev ascii) unicodeSpaces)
              (length ("g" :: "z" :: "i" :: "p" :: t)%char) (rev t)
              ("i" :: "z" :: "g" :: [])%char) as [a' ->].
  - reflexivity.
  - unfold unicodeSpaces. simpl. repeat constructor; discriminate.
  - unfold unicodeSpaces. simpl. repeat constructor; discriminate.
  - rewrite rev_app_distr. simpl.
    exists (string_of_list_ascii (rev a')). reflexivity.
Qed.

(** X12.  [acceptEncoding] looks at the codings one by one: a header made
    of two lists joined by a comma is accepted when one of the lists is;
    whatever follows the name looked for is ignored, so a coding refused
    with a zero quality value, or a longer name, is taken for an accepted
    one; and an empty header accepts nothing but the empty name. *)
Theorem acceptEncoding_codings :
  (forall a b check : string,
      acceptEncoding (a +:+ "," +:+ b) check
      = acceptEncoding a check || acceptEncoding b check)
  /\ (forall rest : string, acceptEncoding ("gzip" +:+ rest) "gzip" = true)
  /\ (forall check : string,
         acceptEncoding "" check = bool_decide (check = ""%string)).
Proof.
  split_and!.
  - intros a b check. unfold acceptEncoding.
    change (a +:+ "," +:+ b) with (a +:+ String "," b).
    by rewrite Split_app, acceptEncoding_loop_app.
  - intros rest. unfold acceptEncoding.
    destruct (Split_nonempty rest ",") as (tok & toks & Hsplit).
    assert (Split ("gzip" +:+ rest) "," = ("gzip" +:+ tok) :: toks) as ->.
    { change (Split (String "g" (String "z" (String "i" (String "p" rest)))) ","
              = String "g" (String "z" (String "i" (String "p" tok))) :: toks).
      by do 4 (apply Split_cons_ne; [reflexivity|]). }
    simpl acceptEncoding_loop.
    destruct (TrimSpace_gzip tok) as [r ->].
    unfold HasPrefix. simpl. by destruct r.
  - intros check. unfold acceptEncoding.
    change (Split "" ",") with [""%string]. cbn [acceptEncoding_loop].
    change (TrimSpace "") with ""%string.
    unfold HasPrefix. by destruct check.
Qed.

(** ** The handler between events and scrapes *)

Section Handle.
Variable hash : labels -> Z.
Variable ftoa : float -> string.
Variable appendTags : labels -> list Tag -> labels.
Variable sortLabels : labels -> labels.

Lemma HandleMetric_reachable h m now now' :
  reachable hash ftoa (metrics h) ->
  reachable hash ftoa
    (metrics (Handler_HandleMetric hash ftoa appendTags sortLabels h m now now')).
Proof.
  intros Hr. unfold Handler_HandleMetric. cbn [metrics].
  destruct (_ =? 0).
  - apply reachable_cleanup, reachable_update, Hr.
  - apply reachable_update, Hr.
Qed.

Lemma HandleMetrics_reachable h evs :
  reachable hash ftoa (metrics h) ->
  reachable hash ftoa
    (metrics (Handler_HandleMetrics hash ftoa appendTags sortLabels h evs)).
Proof.
  unfold Handler_HandleMetrics. revert h.
  induction evs as [|ev evs IH]; intros h Hr; simpl; [done|].
  by apply IH, HandleMetric_reachable.
Qed.

Lemma HandleMetrics_snoc h evs ev :
  Handler_HandleMetrics hash ftoa appendTags sortLabels h (evs ++ [ev])
  = Handler_HandleMetric hash ftoa appendTags sortLabels
      (Handler_HandleMetrics hash ftoa appendTags sortLabels h evs)
      ev.1.1 ev.1.2 ev.2.
Proof. unfold Handler_HandleMetrics. by rewrite foldl_snoc. Qed.

Lemma HandleMetrics_config h evs :
  TrimPrefix (Handler_HandleMetrics hash ftoa appendTags sortLabels h evs)
  = TrimPrefix h
  /\ MetricTimeout (Handler_HandleMetrics hash ftoa appendTags sortLabels h evs)
     = MetricTimeout h
  /\ UseUnsortedLabels (Handler_HandleMetrics hash ftoa appendTags sortLabels h evs)
     = UseUnsortedLabels h.
Proof.
  induction evs as [|ev evs IH] using rev_ind; [done|].
  rewrite HandleMetrics_snoc. by destruct IH as (? & ? & ?).
Qed.

(** X13.  The handler leaves eviction alone until its counter of calls
    reaches 10000: over fewer calls from a counter at zero, the counter
    holds the number of calls and the store is the one the updates alone
    build, each record made with the handler's settings. *)
Theorem handler_no_eviction_before_10000 (h : Handler)
    (evs : list (Metric * Time * Time)) :
  opcount h = 0 -> Z.of_nat (length evs) < 10000 ->
  opcount (Handler_HandleMetrics hash ftoa appendTags sortLabels h evs)
  = Z.of_nat (length evs)
  /\ metrics (Handler_HandleMetrics hash ftoa appendTags sortLabels h evs)
     = foldl (fun s ev =>
                metricStore_update hash ftoa s
                  (handled_metric appendTags sortLabels h ev.1.1 ev.1.2)
                  (Metric_Buckets ev.1.1))
             (metrics h) evs.
Proof.
  intros H0. induction evs as [|ev evs IH] using rev_ind; intros Hlen.
  - unfold Handler_HandleMetrics. simpl. by rewrite H0.
  - rewrite length_app in Hlen. simpl in Hlen.
    destruct IH as [IHc IHs]; [lia|].
    rewrite HandleMetrics_snoc, foldl_snoc, length_app. simpl.
    unfold Handler_HandleMetric. cbn [opcount metrics].
    rewrite IHc, IHs. unfold atomicUint64_add, wrapU64.
    rewrite Z.mod_small by lia.
    assert ((Z.rem (Z.of_nat (length evs) + 1) 10000 =? 0) = false) as ->.
    { apply Z.eqb_neq. rewrite Z.rem_small by lia. lia. }
    split; [lia|].
    f_equal. unfold handled_metric.
    by destruct (HandleMetrics_config h evs) as (-> & _ & ->).
Qed.

(** X14.  The call that brings the counter of calls to a multiple of 10000
    cleans the store after its update, with the threshold one timeout (two
    minutes when none is set) before the clock: the states it leaves are
    those updated after the threshold, the one just written among them
    or not. *)
Theorem handler_cleanup_every_10000 (h : Handler) (m : Metric) (now now' : Time) :
  Z.rem (wrapU64 (opcount h + 1)) 10000 = 0 ->
  let exp := Time_Add now' (wrap64 (- (if decide (MetricTimeout h = 0)
                                       then 120000000000
                                       else MetricTimeout h))) in
  let updated :=
    metricStore_update hash ftoa (metrics h)
      (handled_metric appendTags sortLabels h m now) (Metric_Buckets m) in
  let h' := Handler_HandleMetric hash ftoa appendTags sortLabels h m now now' in
  opcount h' = wrapU64 (opcount h + 1)
  /\ metrics h' = metricStore_cleanup updated exp
  /\ forall key hsh,
       store_chain (metrics h') key hsh
       = filter (updated_after exp) (store_chain updated key hsh).
Proof.
  intros Hrem exp updated h'.
  assert (metrics h' = metricStore_cleanup updated exp) as Hm.
  { unfold h', Handler_HandleMetric, atomicUint64_add. cbn [metrics].
    rewrite Hrem. simpl. unfold Handler_timeout, exp, updated.
    destruct (decide (MetricTimeout h = 0)) as [H0|H0].
    - by rewrite decide_False by (by intros ?).
    - by rewrite decide_True by done. }
  split_and!.
  - done.
  - exact Hm.
  - intros key hsh. rewrite Hm. apply store_chain_cleanup.
Qed.

End Handle.

Section ServeAfter.
Variable hash : labels -> Z.
Variable ftoa : float -> string.
Variable appendTags : labels -> list Tag -> labels.
Variable sortLabels : labels -> labels.
Variable sortMetrics : list metric -> list metric.
Variable appendMetric : string -> metric -> string.

(** X15.  A handler that starts with an empty store answers every request
    after every run of events: the loop of [ServeHTTP] never meets a
    record whose root name cannot be taken, however the events are named
    and whenever the clean-ups fall. *)
Theorem handler_serves_after_events (h : Handler)
    (evs : list (Metric * Time * Time)) (req : Request) :
  metrics h = emptyStore ->
  (forall l, sortMetrics l ≡ₚ l) ->
  is_Some (Handler_ServeHTTP sortMetrics appendMetric
             (Handler_HandleMetrics hash ftoa appendTags sortLabels h evs) req).
Proof.
  intros Hempty Hsort.
  apply (Handler_ServeHTTP_total sortMetrics appendMetric hash ftoa); [|done].
  apply HandleMetrics_reachable. rewrite Hempty. apply reachable_empty.
Qed.

End ServeAfter.

Lemma handler_cleanup_every_10000_witness :
  opcount
    (Handler_HandleMetric fnv1a_hash ftoa_table
       (fun ls tags => ls ++ map (fun t => (Tag_Name t, Tag_Value t)) tags)
       (fun ls => ls)
       (mkHandler "" 0 true 9999 emptyStore)
       (mkEvent CounterType "app" "requests" 1%float (mkTime 10 0 UTC)
                [mkTag "id" "1"] [])
       (mkTime 20 0 UTC) (mkTime 200 0 UTC))
  = 10000.
Proof.
  apply (proj1 (handler_cleanup_every_10000 fnv1a_hash ftoa_table
                  (fun ls tags => ls ++ map (fun t => (Tag_Name t, Tag_Value t)) tags)
                  (fun ls => ls)
                  (mkHandler "" 0 true 9999 emptyStore)
                  (mkEvent CounterType "app" "requests" 1%float (mkTime 10 0 UTC)
                           [mkTag "id" "1"] [])
                  (mkTime 20 0 UTC) (mkTime 200 0 UTC) eq_refl)).
Defined.

Lemma handler_no_eviction_before_10000_witness :
  opcount
    (Handler_HandleMetrics fnv1a_hash ftoa_table
       (fun ls tags => ls ++ map (fun t => (Tag_Name t, Tag_Value t)) tags)
       (fun ls => ls)
       (mkHandler "" 0 true 0 emptyStore)
       [(mkEvent CounterType "app" "requests" 1%float (mkTime 10 0 UTC)
                 [mkTag "id" "1"] [],
         mkTime 20 0 UTC, mkTime 20 0 UTC)])
  = 1.
Proof.
  apply (proj1 (handler_no_eviction_before_10000 fnv1a_hash ftoa_table
                  (fun ls tags => ls ++ map (fun t => (Tag_Name t, Tag_Value t)) tags)
                  (fun ls => ls)
                  (mkHandler "" 0 true 0 emptyStore)
                  [(mkEvent CounterType "app" "requests" 1%float (mkTime 10 0 UTC)
                            [mkTag "id" "1"] [],
                    mkTime 20 0 UTC, mkTime 20 0 UTC)]
                  eq_refl ltac:(simpl; lia))).
Defined.

Lemma handler_serves_after_events_witness :
  is_Some
    (Handler_ServeHTTP insertion_sort appendName
       (Handler_HandleMetrics fnv1a_hash ftoa_table
          (fun ls tags => ls ++ map (fun t => (Tag_Name t, Tag_Value t)) tags)
          (fun ls => ls)
          (mkHandler "" 0 true 0 emptyStore)
          [(mkEvent HistogramType "app" "latency" 0.3%float (mkTime 10 0 UTC)
                    [mkTag "id" "1"] [0.25%float; 0.5%float],
            mkTime 20 0 UTC, mkTime 20 0 UTC)])
       (mkRequest "GET" ∅)).
Proof.
  apply (handler_serves_after_events fnv1a_hash ftoa_table
           (fun ls tags => ls ++ map (fun t => (Tag_Name t, Tag_Value t)) tags)
           (fun ls => ls) insertion_sort appendName).
  - reflexivity.
  - apply insertion_sort_perm.
Defined.

(** ** What a collected record says of its entry *)

Lemma state_records_scope e st x :
  x ∈ state_records e st ->
  metric_help x = entry_help e
  /\ (entry_mtype e = histogram -> metric_scope x = ""%string)
  /\ (entry_mtype e <> histogram ->
      metric_scope x = entry_scope e /\ metric_name x = entry_name e
      /\ metric_labels x = state_labels st
      /\ metric_value x = state_value st
      /\ metric_time x = atomicTime_load (state_time st)).
Proof.
  unfold state_records, metricState_collect.
  destruct (entry_mtype e) eqn:Hty; simpl; rewrite ?foldl_snoc_map.
  - by intros ?%elem_of_nil.
  - by intros ->%list_elem_of_singleton.
  - by intros ->%list_elem_of_singleton.
  - rewrite app_nil_l, elem_of_app, list_elem_of_fmap.
    intros [(b & -> & _)|[->|[->|[]%elem_of_nil]%elem_of_cons]%elem_of_cons];
      by simpl.
  - by intros ?%elem_of_nil.
Qed.

Section Collected.
Variable hash : labels -> Z.
Variable ftoa : float -> string.

(** X16.  A record collected from a reachable store is a counter, a gauge
    or a histogram record.  A counter or gauge record carries the scope and
    the name of the key its entry is stored under, and its labels are
    those of a series of that entry; a histogram record carries no scope,
    whatever the scope of its key. *)
Theorem collected_record_identity (s : metricStore) (x : metric) :
  reachable hash ftoa s ->
  x ∈ metricStore_collect s [] ->
  (metric_mtype x = counter \/ metric_mtype x = gauge \/ metric_mtype x = histogram)
  /\ (metric_mtype x = histogram -> metric_scope x = ""%string)
  /\ (metric_mtype x <> histogram ->
      exists e st,
        entries s !! metric_key x = Some e
        /\ entry_mtype e = metric_mtype x
        /\ series hash s (metric_key x) (metric_labels x) = Some st
        /\ metric_value x = state_value st
        /\ metric_time x = atomicTime_load (state_time st)).
Proof.
  intros Hr (key & e & h & chain & st & He & Hc & Hst & Hx)%elem_of_metricStore_collect.
  pose proof (state_records_mtype _ _ _ Hx) as Hty.
  destruct (state_records_scope _ _ _ Hx) as (_ & Hhist & Hother).
  split_and!.
  - rewrite Hty. unfold state_records, metricState_collect in Hx.
    destruct (entry_mtype e); auto; by apply elem_of_nil in Hx.
  - rewrite Hty. exact Hhist.
  - rewrite Hty. intros Hne. destruct (Hother Hne) as (Hs & Hn & Hl & Hv & Ht).
    destruct (reachable_store_wf hash ftoa s Hr _ _ He) as (Hks & Hkn & _).
    assert (metric_key x = key) as Hkey.
    { unfold metric_key. rewrite Hs, Hn, Hks, Hkn. by destruct key. }
    destruct (series_of_stored_state hash ftoa s key e h chain st Hr He Hc Hst)
      as [_ Hser].
    exists e, st. by rewrite Hkey, Hl.
Qed.

End Collected.

Lemma collected_record_identity_witness :
  metric_mtype (sample counter "A" 1%float (mkTime 10 0 UTC) [("id", "1")]) = counter
  \/ metric_mtype (sample counter "A" 1%float (mkTime 10 0 UTC) [("id", "1")]) = gauge
  \/ metric_mtype (sample counter "A" 1%float (mkTime 10 0 UTC) [("id", "1")])
     = histogram.
Proof.
  apply (proj1 (collected_record_identity fnv1a_hash ftoa_table
                  (metricStore_update fnv1a_hash ftoa_table emptyStore
                     (sample counter "A" 1%float (mkTime 10 0 UTC) [("id", "1")]) [])
                  (sample counter "A" 1%float (mkTime 10 0 UTC) [("id", "1")])
                  (reachable_update _ _ _ _ _ (reachable_empty _ _))
                  ltac:(vm_compute; apply list_elem_of_here))).
Defined.

(** ** A state found by its labels *)

Lemma stored_state_found_witness :
  series fnv1a_hash
    (metricStore_update fnv1a_hash ftoa_table emptyStore
       (sample counter "A" 1%float (mkTime 10 0 UTC) [("id", "1")]) [])
    (mkKey "" "A")
    (state_labels
       (metricState_update ftoa_table (newMetricState [("id", "1")]) counter
          1%float (mkTime 10 0 UTC) []))
  = Some (metricState_update ftoa_table (newMetricState [("id", "1")]) counter
            1%float (mkTime 10 0 UTC) []).
Proof.
  eapply (fun e h chain Hr He Hc Hst =>
            proj2 (stored_state_found fnv1a_hash ftoa_table _ (mkKey "" "A")
                     e h chain _ Hr He Hc Hst)).
  - apply reachable_update, reachable_empty.
  - apply (metricStore_update_lookup fnv1a_hash ftoa_table emptyStore
             (sample counter "A" 1%float (mkTime 10 0 UTC) [("id", "1")]) []).
  - unfold entry_update. cbn [entry_states entry_set_states].
    apply lookup_insert_eq.
  - vm_compute. apply list_elem_of_here.
Defined.

(** ** The connection wrapper *)

Lemma rootError_loop_wrap (n k : nat) (e : error) :
  (n <= k)%nat ->
  rootError_loop n (Some (wrapOpError k e)) = Some (wrapOpError (k - n) e).
Proof.
  revert k. induction n as [|n IH]; intros k Hk; simpl.
  - by rewrite Nat.sub_0_r.
  - destruct k as [|k]; [lia|]. simpl. apply IH. lia.
Qed.

Lemma rootError_loop_stop (n : nat) (e : error) :
  (forall e', e <> OpError e') ->
  rootError_loop n (Some e) = Some e.
Proof.
  intros He. destruct n as [|n]; simpl; [done|].
  destruct e; try done. by destruct (He Err).
Qed.

Lemma rootError_wrap (k : nat) (e : error) :
  (forall e', e <> OpError e') ->
  rootError (Some (wrapOpError k e))
  = if decide (k <= 10)%nat then Some e else Some (wrapOpError (k - 10) e).
Proof.
  intros He. unfold rootError. destruct (decide (k <= 10)%nat) as [Hk|Hk].
  - replace 10%nat with (k + (10 - k))%nat at 1 by lia.
    generalize (10 - k)%nat as r. intros r.
    induction k as [|k IH]; simpl.
    + by apply rootError_loop_stop.
    + apply IH. lia.
  - apply rootError_loop_wrap. lia.
Qed.

Section ConnProps.
Variable isTemporary : option error -> bool.

(** X17.  An end of stream or a closed pipe is not counted as an error of
    the connection, also under layers of [*net.OpError], ten of them at
    most: under more, the search for the root stops on an [*net.OpError],
    and the error is counted unless that one is temporary. *)
Theorem conn_error_root_filter (c : conn) (op : string) (e : error) (k : nat) :
  e = EOF \/ e = ErrClosedPipe \/ e = ErrUnexpectedEOF ->
  conn_error isTemporary c op (Some (wrapOpError k e))
  = if decide (k <= 10)%nat then []
    else if isTemporary (Some (wrapOpError (k - 10) e)) then []
    else [Incr "conn.error.count"
               [mkTag "protocol" (conn_proto c); mkTag "operation" op]].
Proof.
  intros He. unfold conn_error.
  rewrite rootError_wrap by (by destruct He as [->|[->| ->]]).
  destruct (decide (k <= 10)%nat) as [Hk|Hk].
  - by destruct He as [->|[->| ->]].
  - destruct (k - 10)%nat as [|r] eqn:Hr; [lia|]. simpl.
    by destruct (isTemporary _).
Qed.

Lemma conn_Closes_acc (c : conn) (log : list measure) (errs : list (option error)) :
  foldl (fun acc err =>
           let '(c, log) := acc in
           let '(c, out) := conn_Close isTemporary c err in
           (c, log ++ out))
        (c, log) errs
  = ((conn_Closes isTemporary c errs).1, log ++ (conn_Closes isTemporary c errs).2).
Proof.
  unfold conn_Closes. revert c log.
  induction errs as [|err errs IH]; intros c log; simpl.
  - by rewrite app_nil_r.
  - destruct (conn_Close isTemporary c err) as [c' out].
    rewrite (IH c' (log ++ out)), (IH c' out). simpl.
    by rewrite app_assoc.
Qed.

Lemma conn_Closes_cons (c : conn) (err : option error) (errs : list (option error)) :
  conn_Closes isTemporary c (err :: errs)
  = ((conn_Closes isTemporary (conn_Close isTemporary c err).1 errs).1,
     (conn_Close isTemporary c err).2
     ++ (conn_Closes isTemporary (conn_Close isTemporary c err).1 errs).2).
Proof.
  unfold conn_Closes at 1. simpl.
  destruct (conn_Close isTemporary c err) as [c' out]. simpl.
  apply conn_Closes_acc.
Qed.

Lemma conn_Closes_done (c : conn) (errs : list (option error)) :
  conn_once c = true -> conn_Closes isTemporary c errs = (c, []).
Proof.
  intros Hc. unfold conn_Closes.
  induction errs as [|err errs IH]; simpl; [done|].
  unfold conn_Close. by rewrite Hc.
Qed.

(** X18.  However often [Close] is called on a wrapper, and whatever the
    calls return, the engine sees what the first call reports: the close
    is counted once, after the error of the first call if that one is
    counted; the errors of later calls are never reported. *)
Theorem conn_Close_once (proto : string) (err : option error)
    (errs : list (option error)) :
  conn_Closes isTemporary (NewConnWith proto).1 (err :: errs)
  = ({| conn_proto := proto; conn_once := true |},
     (conn_Close isTemporary (NewConnWith proto).1 err).2)
  /\ exists reported,
       (conn_Close isTemporary (NewConnWith proto).1 err).2
       = reported ++ [Incr "conn.close.count" [mkTag "protocol" proto]]
       /\ (reported = []
           \/ reported = [Incr "conn.error.count"
                               [mkTag "protocol" proto; mkTag "operation" "close"]]).
Proof.
  set (c := (NewConnWith proto).1). split.
  - rewrite conn_Closes_cons.
    change (conn_Close isTemporary c err).1
      with {| conn_proto := proto; conn_once := true |}.
    rewrite conn_Closes_done by done.
    simpl. by rewrite app_nil_r.
  - simpl. eexists. split; [reflexivity|].
    destruct err as [e|]; [|by left].
    unfold conn_error.
    destruct (rootError (Some e)) as [[]|]; simpl;
      try destruct (isTemporary _); simpl; auto.
Qed.

(** [Read] reports what [Write] reports, under its own name: its test for
    [io.EOF] keeps nothing from [error] that [error] would count. *)
Lemma conn_Read_as_Write (c : conn) (n : Z) (err : option error) :
  conn_Read isTemporary c n err
  = (if 0 <=? n
     then [Observe "conn.read.bytes" (float64_of_int n)
                   [mkTag "protocol" (conn_proto c)]]
     else [])
    ++ match err with
       | None => []
       | Some _ => conn_error isTemporary c "read" err
       end.
Proof.
  unfold conn_Read. f_equal. by destruct err as [[]|].
Qed.

End ConnProps.

Lemma conn_error_root_filter_witness :
  conn_error (fun _ => false) (mkConn "tcp" false) "read"
    (Some (wrapOpError 11 EOF))
  = [Incr "conn.error.count" [mkTag "protocol" "tcp"; mkTag "operation" "read"]].
Proof.
  apply (conn_error_root_filter (fun _ => false) (mkConn "tcp" false) "read"
           EOF 11 (or_introl eq_refl)).
Defined.

(** ** The earlier version of [ServeHTTP] *)

Section Earlier.
Variable sortMetrics : list metric -> list metric.
Variable appendMetric : string -> metric -> string.

(** X19.  The earlier [ServeHTTP] of the sources answers every method with
    status 200 and the same chunks as the later one answers a GET with, and
    it compresses for the header [Accept-Endoing] only: a request without
    that header gets no gzip, whatever its [Accept-Encoding]. *)
Theorem earlier_handler_negotiation (h : Handler) (req : Request) :
  res_body <$> Handler_ServeHTTP_earlier sortMetrics appendMetric h req
  = res_body <$> Handler_ServeHTTP sortMetrics appendMetric h
                   (mkRequest "GET" (req_Header req))
  /\ forall res,
       Handler_ServeHTTP_earlier sortMetrics appendMetric h req = Some res ->
       res_status res = StatusOK
       /\ res_gzip res
          = acceptEncoding (Header_Get (req_Header req) "Accept-Endoing") "gzip"
       /\ (req_Header req !! "Accept-Endoing"%string = None ->
           res_gzip res = false
           /\ res_header res !! "Content-Encoding"%string = None).
Proof.
  unfold Handler_ServeHTTP_earlier, Handler_ServeHTTP. simpl. split.
  - destruct (acceptEncoding _ "gzip"), (acceptEncoding _ "gzip");
      by destruct (write_metrics _ _ _ _).
  - intros res.
    destruct (acceptEncoding (Header_Get (req_Header req) "Accept-Endoing") "gzip")
      eqn:Hacc;
      destruct (write_metrics _ _ _ _) as [chunks|]; simpl; try done;
      intros [= <-]; simpl; (split; [done|]); (split; [done|]); intros Hnone.
    + unfold Header_Get in Hacc. rewrite Hnone in Hacc. done.
    + split; [done|]. unfold Header_Set. by rewrite lookup_insert_ne.
Qed.

End Earlier.

(** ** What an update leaves alone *)

Section Frame.
Variable hash : labels -> Z.
Variable ftoa : float -> string.

(** X20.  An update touches the series of its key and labels only, unless
    it changes the type of the entry: the series under other keys are left
    as they are; the series under its key and other labels are left as
    they are when the entry was of the type of the update, and are gone
    when it was of another type. *)
Theorem update_frame (s : metricStore) (m : metric) (bs : list float)
    (key : metricKey) (ls : labels) :
  (key <> metric_key m ->
   series hash (metricStore_update hash ftoa s m bs) key ls = series hash s key ls)
  /\ (ls <> metric_labels m ->
      series hash (metricStore_update hash ftoa s m bs) (metric_key m) ls
      = series_of_type hash s (metric_mtype m) (metric_key m) ls).
Proof.
  split.
  - apply series_update_ne_key.
  - intros Hne. unfold series_of_type.
    destruct (entries s !! metric_key m) as [e|] eqn:He; simpl.
    + destruct (decide (entry_mtype e = metric_mtype m)) as [Hty|Hty].
      * rewrite (series_update_ne_labels hash ftoa s m bs e ls) by done.
        unfold series. by rewrite He.
      * unfold series. rewrite metricStore_update_lookup. simpl.
        unfold entry_for. rewrite He, decide_False by done.
        unfold newMetricEntry. destruct (decide _); simpl;
          rewrite lookup_empty; simpl;
          (destruct (decide (hash ls = hash (metric_labels m))) as [->|Hh];
           [rewrite lookup_insert_eq; simpl;
            by rewrite chain_series_update_ne
              by (done || intros; apply metricState_update_labels)
           |by rewrite lookup_insert_ne]).
    + unfold series. rewrite metricStore_update_lookup. simpl.
      unfold entry_for. rewrite He.
      unfold newMetricEntry. destruct (decide _); simpl;
        rewrite lookup_empty; simpl;
        (destruct (decide (hash ls = hash (metric_labels m))) as [->|Hh];
         [rewrite lookup_insert_eq; simpl;
          by rewrite chain_series_update_ne
            by (done || intros; apply metricState_update_labels)
         |by rewrite lookup_insert_ne]).
Qed.

Lemma entry_for_update_ne s m bs mtype key help :
  key <> metric_key m ->
  entry_for (metricStore_update hash ftoa s m bs) mtype key help
  = entry_for s mtype key help.
Proof.
  intros Hne. unfold entry_for. by rewrite metricStore_update_lookup_ne.
Qed.

(** X21.  Updates to different keys commute: the store they leave does not
    depend on their order. *)
Theorem updates_commute (s : metricStore) (m1 m2 : metric) (bs1 bs2 : list float) :
  metric_key m1 <> metric_key m2 ->
  metricStore_update hash ftoa (metricStore_update hash ftoa s m1 bs1) m2 bs2
  = metricStore_update hash ftoa (metricStore_update hash ftoa s m2 bs2) m1 bs1.
Proof.
  intros Hne. apply store_eq.
  rewrite !metricStore_update_entries.
  rewrite !entry_for_update_ne by done.
  by apply insert_insert_ne.
Qed.

End Frame.

Lemma updates_commute_witness :
  metricStore_update fnv1a_hash ftoa_table
    (metricStore_update fnv1a_hash ftoa_table emptyStore
       (sample counter "A" 1%float (mkTime 10 0 UTC) []) [])
    (sample gauge "B" 2%float (mkTime 11 0 UTC) []) []
  = metricStore_update fnv1a_hash ftoa_table
      (metricStore_update fnv1a_hash ftoa_table emptyStore
         (sample gauge "B" 2%float (mkTime 11 0 UTC) []) [])
      (sample counter "A" 1%float (mkTime 10 0 UTC) []) [].
Proof.
  apply (updates_commute fnv1a_hash ftoa_table). discriminate.
Defined.

(** ** Looking up twice *)

Section LookupTwice.
Variable hash : labels -> Z.

Lemma metricEntry_lookup_twice e ls :
  metricEntry_lookup hash (metricEntry_lookup hash e ls).2 ls
  = metricEntry_lookup hash e ls
  /\ exists st,
       entry_deref (metricEntry_lookup hash e ls).2 (metricEntry_lookup hash e ls).1
       = Some st
       /\ state_labels st = ls.
Proof.
  unfold metricEntry_lookup, metricEntry_lookup_locked, metricStateMap_find.
  destruct (find_in_chain (default [] (entry_states e !! hash ls)) ls)
    as [i|] eqn:Hfind; simpl.
  - rewrite Hfind. simpl. split; [done|].
    unfold entry_deref. simpl. by apply find_in_chain_Some.
  - unfold metricStateMap_put. rewrite !lookup_insert_eq. simpl.
    rewrite find_in_chain_app, Hfind. unfold labels_copy. simpl.
    rewrite labels_equal_refl. simpl. split; [done|].
    unfold entry_deref. simpl. rewrite lookup_insert_eq. simpl.
    exists (newMetricState ls). split; [|done].
    by rewrite lookup_app_r, Nat.sub_diag by done.
Qed.

Lemma metricStore_lookup_twice s mtype key help help' :
  metricStore_lookup (metricStore_lookup s mtype key help).2 mtype key help'
  = metricStore_lookup s mtype key help
  /\ entries (metricStore_lookup s mtype key help).2 !! key
     = Some (metricStore_lookup s mtype key help).1
  /\ entry_mtype (metricStore_lookup s mtype key help).1 = mtype.
Proof.
  rewrite !metricStore_lookup_entry_for. cbn [fst snd entries].
  assert (entry_for
            {| entries := <[key := entry_for s mtype key help]> (entries s) |}
            mtype key help'
          = entry_for s mtype key help) as Hsame.
  { unfold entry_for at 1. cbn [entries]. rewrite lookup_insert_eq.
    by rewrite decide_True by apply entry_for_mtype. }
  rewrite Hsame. split_and!.
  - by rewrite insert_insert_eq.
  - by rewrite lookup_insert_eq.
  - apply entry_for_mtype.
Qed.

(** X22.  Looking up creates at most once: a second lookup of the same
    labels in the entry, of the same key and type in the store, returns
    what the first returned and changes nothing, whatever help text it
    passes; the pointer returned leads to a state with the labels asked
    for, and the entry returned is the one stored under the key. *)
Theorem lookup_twice :
  (forall (e : metricEntry) (ls : labels),
      metricEntry_lookup hash (metricEntry_lookup hash e ls).2 ls
      = metricEntry_lookup hash e ls
      /\ exists st,
           entry_deref (metricEntry_lookup hash e ls).2
                       (metricEntry_lookup hash e ls).1 = Some st
           /\ state_labels st = ls)
  /\ (forall (s : metricStore) (mtype : metricType) (key : metricKey)
             (help help' : string),
         metricStore_lookup (metricStore_lookup s mtype key help).2 mtype key help'
         = metricStore_lookup s mtype key help
         /\ entries (metricStore_lookup s mtype key help).2 !! key
            = Some (metricStore_lookup s mtype key help).1
         /\ entry_mtype (metricStore_lookup s mtype key help).1 = mtype).
Proof.
  split.
  - apply metricEntry_lookup_twice.
  - apply metricStore_lookup_twice.
Qed.

End LookupTwice.

(** ** A scrape after a cleanup *)

Lemma filter_bind {A B} (P : B -> Prop) `{!forall x, Decision (P x)}
    (g : A -> list B) (l : list A) :
  filter P (l ≫= g) = l ≫= (fun x => filter P (g x)).
Proof.
  induction l as [|a l IH]; csimpl; [done|].
  by rewrite filter_app, IH.
Qed.

Lemma bind_perm_ext {A B} (f g : A -> list B) (l : list A) :
  (forall x, x ∈ l -> f x ≡ₚ g x) -> l ≫= f ≡ₚ l ≫= g.
Proof.
  induction l as [|a l IH]; intros Hfg; csimpl; [done|].
  rewrite (Hfg a) by left. f_equiv. apply IH. intros x Hx. apply Hfg. by right.
Qed.

Lemma bind_map_to_list_omap `{Countable K} {A B C} (f : A -> option B)
    (g : B -> list C) (m : gmap K A) :
  map_to_list (omap f m) ≫= (fun kb => g kb.2)
  ≡ₚ map_to_list m ≫= (fun ka => from_option g [] (f ka.2)).
Proof.
  induction m as [|i x m Hi IH] using map_ind.
  - by rewrite omap_empty, !map_to_list_empty.
  - rewrite (map_to_list_insert m i x) by done. csimpl.
    destruct (f x) as [y|] eqn:Hfx; simpl.
    + rewrite (omap_insert_Some f m i x y) by done.
      rewrite map_to_list_insert by (by rewrite lookup_omap, Hi).
      csimpl. by rewrite IH.
    + rewrite (omap_insert_None f m i x) by done.
      rewrite delete_id by (by rewrite lookup_omap, Hi).
      exact IH.
Qed.

Lemma state_records_time e st x :
  x ∈ state_records e st -> metric_time x = atomicTime_load (state_time st).
Proof.
  unfold state_records, metricState_collect.
  destruct (entry_mtype e) eqn:Hty; simpl; rewrite ?foldl_snoc_map.
  - by intros ?%elem_of_nil.
  - by intros ->%list_elem_of_singleton.
  - by intros ->%list_elem_of_singleton.
  - rewrite app_nil_l, elem_of_app, list_elem_of_fmap.
    intros [(b & -> & _)|[->|[->|[]%elem_of_nil]%elem_of_cons]%elem_of_cons];
      by simpl.
  - by intros ?%elem_of_nil.
Qed.

(** The records stamped after the threshold. *)
Lemma chain_records_filter exp e chain :
  filter (fun x => Time_Before exp (metric_time x) = true) (chain_records e chain)
  = chain_records e (filter (updated_after exp) chain).
Proof.
  induction chain as [|st chain IH]; [done|].
  rewrite chain_records_cons, filter_app, IH.
  destruct (decide (updated_after exp st)) as [Hst|Hst].
  - rewrite (filter_cons_True _ _ _ Hst), chain_records_cons. f_equal.
    apply filter_all. intros x Hx%state_records_time. by rewrite Hx.
  - rewrite (filter_cons_False _ _ _ Hst).
    rewrite filter_none; [done|].
    intros x Hx%state_records_time. by rewrite Hx.
Qed.

Lemma entry_records_filter exp e :
  filter (fun x => Time_Before exp (metric_time x) = true) (entry_records e)
  ≡ₚ entry_records (entry_set_states e (omap (keep_fresh exp) (entry_states e))).
Proof.
  rewrite entry_records_set_states.
  rewrite (bind_map_to_list_omap (keep_fresh exp) (chain_records e)).
  unfold entry_records. rewrite filter_bind.
  apply bind_perm_ext. intros [h chain] _. simpl.
  rewrite chain_records_filter. unfold keep_fresh.
  destruct (decide _) as [->|_]; done.
Qed.

Lemma store_records_cleanup s exp :
  store_records (metricStore_cleanup s exp)
  ≡ₚ filter (fun x => Time_Before exp (metric_time x) = true) (store_records s).
Proof.
  unfold store_records. rewrite metricStore_cleanup_entries.
  rewrite (bind_map_to_list_omap (clean_entry exp) entry_records).
  rewrite filter_bind. apply bind_perm_ext. intros [key e] _. simpl.
  rewrite entry_records_filter. unfold clean_entry.
  destruct (decide _) as [->|_]; [|done].
  simpl. rewrite entry_records_set_states. by rewrite map_to_list_empty.
Qed.

(** X23.  What a collect gathers after a cleanup is what it gathered
    before, less the records whose time is not after the threshold:
    a cleanup removes whole series, and nothing else. *)
Theorem collect_after_cleanup (s : metricStore) (exp : Time) :
  metricStore_collect (metricStore_cleanup s exp) []
  ≡ₚ filter (fun x => Time_Before exp (metric_time x) = true)
            (metricStore_collect s []).
Proof.
  rewrite !metricStore_collect_perm. simpl. apply store_records_cleanup.
Qed.

(** ** Series across a cleanup *)

Lemma chain_series_cons st (chain : list metricState) ls :
  chain_series (st :: chain) ls
  = if labels_equal (state_labels st) ls then Some st else chain_series chain ls.
Proof.
  unfold chain_series. simpl.
  destruct (labels_equal (state_labels st) ls); [done|].
  by destruct (find_in_chain chain ls).
Qed.

Lemma chain_series_absent (chain : list metricState) ls :
  ls ∉ state_labels <$> chain -> chain_series chain ls = None.
Proof.
  intros Hnot. unfold chain_series.
  assert (find_in_chain chain ls = None) as ->; [|done].
  apply find_in_chain_None. intros st Hst Hl. apply Hnot.
  rewrite <- Hl. by apply list_elem_of_fmap_2.
Qed.

Lemma chain_series_filter (P : metricState -> Prop) `{!forall st, Decision (P st)}
    (chain : list metricState) ls :
  NoDup (state_labels <$> chain) ->
  chain_series (filter P chain) ls
  = chain_series chain ls ≫= (fun st => if decide (P st) then Some st else None).
Proof.
  induction chain as [|s0 chain IH]; [done|].
  rewrite fmap_cons. intros [Hs0 Hnd]%NoDup_cons.
  rewrite chain_series_cons.
  destruct (labels_equal (state_labels s0) ls) eqn:E; simpl.
  - apply labels_equal_spec in E. destruct (decide (P s0)) as [Hp|Hp].
    + rewrite filter_cons_True by done.
      by rewrite chain_series_cons, (proj2 (labels_equal_spec _ _) E).
    + rewrite filter_cons_False by done.
      rewrite IH by done. rewrite chain_series_absent; [done|]. by rewrite <- E.
  - destruct (decide (P s0)) as [Hp|Hp].
    + rewrite filter_cons_True by done.
      rewrite chain_series_cons, E. by apply IH.
    + rewrite filter_cons_False by done. by apply IH.
Qed.

Lemma series_store_chain hash s key ls :
  series hash s key ls = chain_series (store_chain s key (hash ls)) ls.
Proof.
  unfold series, store_chain.
  by destruct (entries s !! key) as [e|].
Qed.

Lemma series_of_type_absent hash s mtype key ls :
  series hash s key ls = None -> series_of_type hash s mtype key ls = None.
Proof.
  unfold series, series_of_type.
  destruct (entries s !! key) as [e|]; simpl; [|done].
  by destruct (decide _).
Qed.

Section AcrossCleanup.
Variable hash : labels -> Z.
Variable ftoa : float -> string.

Lemma store_chain_NoDup s key h :
  reachable hash ftoa s -> NoDup (state_labels <$> store_chain s key h).
Proof.
  intros Hwf%reachable_store_wf. unfold store_chain.
  destruct (entries s !! key) as [e|] eqn:He; simpl; [|constructor].
  destruct (entry_states e !! h) as [chain|] eqn:Hc; simpl; [|constructor].
  destruct (Hwf _ _ He) as (_ & _ & _ & Hchains).
  by destruct (Hchains _ _ Hc) as (_ & _ & ?).
Qed.

Lemma series_cleanup s exp key ls :
  reachable hash ftoa s ->
  series hash (metricStore_cleanup s exp) key ls
  = series hash s key ls
    ≫= (fun st => if decide (updated_after exp st) then Some st else None).
Proof.
  intros Hr. rewrite !series_store_chain, store_chain_cleanup.
  apply chain_series_filter. by apply store_chain_NoDup.
Qed.

(** X24.  In a reachable store a cleanup leaves a series as it is when
    its state was updated after the threshold and removes it otherwise;
    no other series comes to answer for its labels. *)
Theorem series_after_cleanup (s : metricStore) (exp : Time)
    (key : metricKey) (ls : labels) :
  reachable hash ftoa s ->
  series hash (metricStore_cleanup s exp) key ls
  = match series hash s key ls with
    | Some st => if decide (updated_after exp st) then Some st else None
    | None => None
    end.
Proof.
  intros Hr. rewrite series_cleanup by done.
  by destruct (series hash s key ls).
Qed.

(** X25.  A series evicted by a cleanup starts anew at its next update:
    the update works on a new state, so a counter restarts from the value
    of that update alone, and a histogram from empty buckets. *)
Theorem evicted_series_restarts (s : metricStore) (exp : Time) (m : metric)
    (bs : list float) (st : metricState) :
  reachable hash ftoa s ->
  series hash s (metric_key m) (metric_labels m) = Some st ->
  ~ updated_after exp st ->
  series hash (metricStore_update hash ftoa (metricStore_cleanup s exp) m bs)
    (metric_key m) (metric_labels m)
  = Some (metricState_update ftoa (newMetricState (metric_labels m))
            (metric_mtype m) (metric_value m) (metric_time m) bs).
Proof.
  intros Hr Hs Hstale. rewrite series_update_eq. do 2 f_equal.
  unfold prior_state. rewrite series_of_type_absent; [done|].
  rewrite series_cleanup, Hs by done. simpl.
  by rewrite decide_False.
Qed.

End AcrossCleanup.

Lemma series_after_cleanup_witness :
  series fnv1a_hash
    (metricStore_cleanup
       (metricStore_update fnv1a_hash ftoa_table emptyStore
          (sample counter "A" 1%float (mkTime 10 0 UTC) []) [])
       (mkTime 10 0 UTC))
    (mkKey "" "A") []
  = match series fnv1a_hash
            (metricStore_update fnv1a_hash ftoa_table emptyStore
               (sample counter "A" 1%float (mkTime 10 0 UTC) []) [])
            (mkKey "" "A") [] with
    | Some st => if decide (updated_after (mkTime 10 0 UTC) st) then Some st else None
    | None => None
    end.
Proof.
  apply (series_after_cleanup fnv1a_hash ftoa_table).
  apply reachable_update, reachable_empty.
Defined.

Lemma evicted_series_restarts_witness :
  series fnv1a_hash
    (metricStore_update fnv1a_hash ftoa_table
       (metricStore_cleanup
          (metricStore_update fnv1a_hash ftoa_table emptyStore
             (sample counter "A" 1%float (mkTime 10 0 UTC) []) [])
          (mkTime 10 0 UTC))
       (sample counter "A" 5%float (mkTime 20 0 UTC) []) [])
    (mkKey "" "A") []
  = Some (metricState_update ftoa_table (newMetricState []) counter 5%float
            (mkTime 20 0 UTC) []).
Proof.
  apply (evicted_series_restarts fnv1a_hash ftoa_table
           (metricStore_update fnv1a_hash ftoa_table emptyStore
              (sample counter "A" 1%float (mkTime 10 0 UTC) []) [])
           (mkTime 10 0 UTC)
           (sample counter "A" 5%float (mkTime 20 0 UTC) []) []
           (metricState_update ftoa_table (newMetricState []) counter 1%float
              (mkTime 10 0 UTC) [])).
  - apply reachable_update, reachable_empty.
  - apply (series_update_eq fnv1a_hash ftoa_table emptyStore
             (sample counter "A" 1%float (mkTime 10 0 UTC) []) []).
  - vm_compute. discriminate.
Defined.

(** ** What a scrape writes *)

Section Writes.
Variable sortMetrics : list metric -> list metric.
Variable appendMetric : string -> metric -> string.

Lemma write_metrics_length i lastName ms chunks :
  write_metrics appendMetric i lastName ms = Some chunks ->
  length chunks = length ms.
Proof.
  revert i lastName chunks.
  induction ms as [|m ms IH]; intros i lastName chunks; simpl.
  - by intros [= <-].
  - destruct (rootName m) as [name|]; [|done].
    destruct (write_metrics appendMetric (S i) name ms) as [rest|] eqn:Hrest;
      [|by destruct (String.eqb name lastName), (negb (i =? 0)%nat)].
    specialize (IH _ _ _ Hrest).
    destruct (String.eqb name lastName); [|destruct (negb (i =? 0)%nat)];
      simpl; intros [= <-]; simpl; by rewrite IH.
Qed.

(** X26.  A GET or HEAD on a handler whose store is reachable is answered
    with status 200 and one chunk for every record of the store; a HEAD is
    answered as a GET is, body included. *)
Theorem serve_writes_every_record (hash : labels -> Z) (ftoa : float -> string)
    (h : Handler) (hdr : Header) :
  reachable hash ftoa (metrics h) ->
  (forall l, sortMetrics l ≡ₚ l) ->
  exists res,
    Handler_ServeHTTP sortMetrics appendMetric h (mkRequest "GET" hdr) = Some res
    /\ Handler_ServeHTTP sortMetrics appendMetric h (mkRequest "HEAD" hdr) = Some res
    /\ res_status res = StatusOK
    /\ length (res_body res) = length (metricStore_collect (metrics h) []).
Proof.
  intros Hr Hsort.
  destruct (Handler_ServeHTTP_total sortMetrics appendMetric hash ftoa h
              (mkRequest "GET" hdr) Hr Hsort) as [res Hres].
  exists res. split; [done|]. split; [exact Hres|].
  destruct (Handler_ServeHTTP_get sortMetrics appendMetric h
              (mkRequest "GET" hdr) res (or_introl eq_refl) Hres) as (Hst & _).
  split; [exact Hst|].
  unfold Handler_ServeHTTP in Hres.
  change (negb (String.eqb (req_Method (mkRequest "GET" hdr)) "GET"
                || String.eqb (req_Method (mkRequest "GET" hdr)) "HEAD"))
    with false in Hres.
  cbv iota in Hres.
  destruct (write_metrics appendMetric 0 ""
              (sortMetrics (metricStore_collect (metrics h) []))) as [chunks|] eqn:Hw.
  - apply write_metrics_length in Hw.
    rewrite (Permutation_length (Hsort _)) in Hw.
    destruct (acceptEncoding _ _); cbn [fmap option_fmap option_map] in Hres;
      injection Hres as <-; exact Hw.
  - destruct (acceptEncoding _ _); discriminate Hres.
Qed.

End Writes.

Lemma serve_writes_every_record_witness :
  exists res,
    Handler_ServeHTTP insertion_sort appendName
      (mkHandler "" 0 false 0
         (metricStore_update fnv1a_hash ftoa_table emptyStore
            (sample counter "A" 1%float (mkTime 10 0 UTC) []) []))
      (mkRequest "GET" ∅) = Some res
    /\ res_status res = StatusOK.
Proof.
  destruct (serve_writes_every_record insertion_sort appendName
              fnv1a_hash ftoa_table
              (mkHandler "" 0 false 0
                 (metricStore_update fnv1a_hash ftoa_table emptyStore
                    (sample counter "A" 1%float (mkTime 10 0 UTC) []) []))
              ∅)
    as (res & Hget & _ & Hstatus & _).
  - apply reachable_update, reachable_empty.
  - apply insertion_sort_perm.
  - exists res. split; [exact Hget|exact Hstatus].
Defined.

(** ** A scrape after an update *)

Section CollectUpdate.
Variable hash : labels -> Z.
Variable ftoa : float -> string.

(** X27.  What a collect gathers after an update is what it gathered
    before, with the records the update supersedes (those of its series,
    or of the whole entry when the type changes) replaced by the records of
    the updated state. *)
Theorem collect_after_update (s : metricStore) (m : metric) (bs : list float) :
  exists rest,
    metricStore_collect s []
    ≡ₚ superseded hash s (metric_mtype m) (metric_key m) (metric_labels m) ++ rest
    /\ metricStore_collect (metricStore_update hash ftoa s m bs) []
       ≡ₚ state_records
            (entry_for s (metric_mtype m) (metric_key m) (metric_help m))
            (metricState_update ftoa
               (prior_state hash s (metric_mtype m) (metric_key m) (metric_labels m))
               (metric_mtype m) (metric_value m) (metric_time m) bs)
          ++ rest.
Proof.
  destruct (store_records_update hash ftoa s m bs) as (rest & Hold & Hnew).
  exists rest. by rewrite !metricStore_collect_perm.
Qed.

End CollectUpdate.
